(** * pycel: the dependency-graph engine of [ExcelCompiler]

    A shallow embedding of [src/pycel/excelcompiler.py]: the address-to-node
    map, the dependency graph, the graph builder, the memoizing evaluator,
    the invalidator, the trimmer and the text/pickle persistence, followed
    by the properties of the engine.

    Python objects ([_Cell], [_CellRange]) live in a heap and are named by
    their index in it, so that the address map and the dependency graph
    share the objects the way the Python code does.  Each method becomes a
    function in a state-and-exception monad over the compiler instance;
    recursion that Python leaves unbounded takes a fuel argument. *)

From Stdlib Require Import ZArith.
From stdpp Require Import gmap strings list.

Open Scope string_scope.
Open Scope list_scope.
Set Warnings "-register-all".

(** ** Python values *)

(** The values a cell can hold.  Python's [None] is [VNone]; numbers are
    integers (Python booleans are the integers 0 and 1); [VSeq] stands for
    tuples and lists (everything [list_like] accepts); [VRef] is an
    [AddressRange] held as a value, which the evaluator dereferences. *)
Inductive value : Type :=
  | VNone
  | VNum (z : Z)
  | VStr (s : string)
  | VSeq (l : list value)
  | VRef (a : string).

Definition VALUE_ERROR : value := VStr "#VALUE!".

Definition list_like (v : value) : bool :=
  match v with VSeq _ => true | _ => false end.

Definition is_None (v : value) : bool :=
  match v with VNone => true | _ => false end.

(** [flatten]: nested sequences to the list of their leaves. *)
Fixpoint flatten (v : value) : list value :=
  match v with
  | VSeq l => (fix go (l : list value) : list value :=
                 match l with
                 | [] => []
                 | x :: l' => flatten x ++ go l'
                 end) l
  | _ => [v]
  end.

(** Python's [==] on values. *)
Fixpoint value_eqb (v w : value) : bool :=
  match v, w with
  | VNone, VNone => true
  | VNum a, VNum b => Z.eqb a b
  | VStr a, VStr b => String.eqb a b
  | VRef a, VRef b => String.eqb a b
  | VSeq l, VSeq m =>
      (fix go (l m : list value) : bool :=
         match l, m with
         | [], [] => true
         | x :: l', y :: m' => value_eqb x y && go l' m'
         | _, _ => false
         end) l m
  | _, _ => false
  end.

Definition type_name (v : value) : string :=
  match v with
  | VNone => "NoneType"
  | VNum _ => "int"
  | VStr _ => "str"
  | VSeq _ => "tuple"
  | VRef _ => "AddressRange"
  end.

(** ** Exceptions and the monad of methods *)

Inductive exn : Type :=
  | KeyError (k : string)
  | AssertionError
  | AttributeError (what : string)
  | TypeError (what : string)
  | ValueError (msg : string)
  | NetworkXError (msg : string)
  | RuntimeError (msg : string)
  | NotImplementedError (msg : string).

(** The outcome of a call: a result, a raised exception, or the fuel of the
    model ran out (Python would still be running, or would have overflowed
    its stack). *)
Inductive res (A : Type) : Type :=
  | Ok (a : A)
  | Raise (e : exn)
  | OutOfFuel.
Arguments Ok {A} a.
Arguments Raise {A} e.
Arguments OutOfFuel {A}.

(** ** Python dictionaries keyed by strings

    Insertion-ordered: assigning to an existing key keeps its position. *)
Section Dict.
Context {V : Type}.

Fixpoint dict_get (d : list (string * V)) (k : string) : option V :=
  match d with
  | [] => None
  | (k', v) :: d' => if String.eqb k' k then Some v else dict_get d' k
  end.

Fixpoint dict_set (d : list (string * V)) (k : string) (v : V)
  : list (string * V) :=
  match d with
  | [] => [(k, v)]
  | (k', v') :: d' =>
      if String.eqb k' k then (k', v) :: d' else (k', v') :: dict_set d' k v
  end.

Fixpoint dict_del (d : list (string * V)) (k : string) : list (string * V) :=
  match d with
  | [] => []
  | (k', v') :: d' =>
      if String.eqb k' k then d' else (k', v') :: dict_del d' k
  end.

Definition dict_mem (d : list (string * V)) (k : string) : bool :=
  match dict_get d k with Some _ => true | None => false end.

Definition dict_keys (d : list (string * V)) : list string := d.*1.
End Dict.

(** ** The external collaborators *)

(** The address algebra ([pycel.excelutil.AddressRange], [AddressCell]).
    An address object is represented by its canonical string (its
    [.address]); the algebra supplies what the compiler asks of it. *)
Class AddressAlgebra : Type := {
  (** [AddressRange(s).address] for a raw string [s] *)
  canon : string → string;
  is_range : string → bool;
  is_bounded_range : string → bool;
  has_sheet : string → bool;
  (** [AddressRange(a, sheet=s).address] *)
  with_sheet : string → string → string;
  (** [.resolve_range]: the matrix of member cell addresses *)
  resolve_range : string → list (list string);
  (** comparison of [.sort_key] *)
  sort_key_le : string → string → bool;
}.

(** Python's [c in s] for a one-character string [c]. *)
Fixpoint contains_char (c : Ascii.ascii) (s : string) : bool :=
  match s with
  | EmptyString => false
  | String c' s' => if Ascii.eqb c c' then true else contains_char c s'
  end.

(** Python's [s.startswith(p)] and [s.endswith(p)]. *)
Definition startswith (s p : string) : bool := String.prefix p s.
Definition endswith (s p : string) : bool :=
  String.prefix (String.rev p) (String.rev s).

(** The formula front end ([pycel.excelformula.ExcelFormula]).  A compiled
    formula exposes its Python code, the addresses it needs and an evaluable
    form.  The evaluable form is called with a context of two callbacks, the
    single-cell lookup and the range lookup; [fexpr] is such a callable,
    written as the tree of the lookups it makes and of what it does with
    their answers. *)
Inductive fexpr : Type :=
  | Ret (v : value)
  | Throw (e : exn)
  | LookupCell (a : string) (k : value → fexpr)
  | LookupRange (a : string) (k : value → fexpr).

Record ExcelFormula : Type := {
  python_code : string;
  needed_addresses : list string;
  body : fexpr;
}.

Class FormulaFrontEnd : Type := {
  (** [ExcelFormula(text, formula_is_python_code=b)] *)
  compile_formula : bool → string → ExcelFormula;
}.

(** What the data source answers ([ExcelOpxWrapper.RangeData]): for a cell a
    formula text and a value, for a range two matrices. *)
Inductive RangeData : Type :=
  | CellData (address : string) (formulas : string) (values : value)
  | MatrixData (address : string) (formulas : list (list string))
               (values : list (list value)).

Definition rd_address (d : RangeData) : string :=
  match d with CellData a _ _ | MatrixData a _ _ => a end.

(** The data source contract: the live spreadsheet reader and
    [_CompiledImporter] both implement it. *)
Record datasource : Type := {
  ds_filename : string;
  is_compiled_importer : bool;
  get_range : string → res RangeData;
  get_active_sheet_name : res string;
}.

(** ** Nodes *)

Record _Cell : Type := {
  c_address : string;
  c_value : value;
  c_formula : option ExcelFormula;
  c_id : nat;
}.

Record _CellRange : Type := {
  r_address : string;
  r_addresses : list (list string);
  r_value : value;
}.

Inductive node : Type :=
  | NCell (c : _Cell)
  | NRange (r : _CellRange).

Definition node_address (x : node) : string :=
  match x with NCell c => c_address c | NRange r => r_address r end.

Definition node_value (x : node) : value :=
  match x with NCell c => c_value c | NRange r => r_value r end.

Definition node_set_value (x : node) (v : value) : node :=
  match x with
  | NCell c => NCell {| c_address := c_address c; c_value := v;
                        c_formula := c_formula c; c_id := c_id c |}
  | NRange r => NRange {| r_address := r_address r;
                          r_addresses := r_addresses r; r_value := v |}
  end.

(** [node.formula], [None] for a range (which has no such attribute: the
    code either tests [isinstance(cell, _CellRange)] first or reads it with
    [getattr(cell, 'formula', None)]). *)
Definition node_formula (x : node) : option ExcelFormula :=
  match x with NCell c => c_formula c | NRange _ => None end.

Definition node_clear_formula (x : node) : node :=
  match x with
  | NCell c => NCell {| c_address := c_address c; c_value := c_value c;
                        c_formula := None; c_id := c_id c |}
  | NRange r => NRange r
  end.

Definition is_CellRange (x : node) : bool :=
  match x with NRange _ => true | NCell _ => false end.

(** [_Cell.python_code]: [self.formula and self.formula.python_code]. *)
Definition node_python_code (x : node) : option string :=
  match node_formula x with Some f => Some (python_code f) | None => None end.

(** Truthiness of [cell.python_code]. *)
Definition has_python_code (x : node) : bool :=
  match node_python_code x with
  | Some s => negb (String.eqb s EmptyString)
  | None => false
  end.

(** [.needed_addresses] of either kind of node: the formula's list for a
    cell, the flattened member matrix for a range. *)
Definition node_needed_addresses (x : node) : list string :=
  match x with
  | NCell c => match c_formula c with
               | Some f => needed_addresses f
               | None => []
               end
  | NRange r => concat (r_addresses r)
  end.

(** Truthiness of [cell.formula]. *)
Definition has_formula (x : node) : bool :=
  match node_formula x with Some _ => true | None => false end.

(** [_CellRange.serialize = False], [_Cell.serialize = True]. *)
Definition serialize (x : node) : bool := negb (is_CellRange x).

(** ** The dependency graph ([networkx.DiGraph] over node objects) *)

Record DiGraph : Type := {
  dg_nodes : list nat;
  dg_edges : list (nat * nat);
}.

Definition nat_mem (n : nat) (l : list nat) : bool :=
  existsb (Nat.eqb n) l.

Definition edge_mem (e : nat * nat) (l : list (nat * nat)) : bool :=
  existsb (λ e', Nat.eqb e.1 e'.1 && Nat.eqb e.2 e'.2) l.

Definition add_node (g : DiGraph) (n : nat) : DiGraph :=
  if nat_mem n (dg_nodes g) then g
  else {| dg_nodes := dg_nodes g ++ [n]; dg_edges := dg_edges g |}.

Definition add_edge (g : DiGraph) (u v : nat) : DiGraph :=
  let g' := add_node (add_node g u) v in
  if edge_mem (u, v) (dg_edges g') then g'
  else {| dg_nodes := dg_nodes g'; dg_edges := dg_edges g' ++ [(u, v)] |}.

(** [successors(n)]; [None] stands for the [NetworkXError] networkx raises
    for a node that is not in the graph. *)
Definition successors (g : DiGraph) (n : nat) : option (list nat) :=
  if nat_mem n (dg_nodes g)
  then Some (map snd (filter (λ e, e.1 = n) (dg_edges g)))
  else None.

(** ** The compiler instance and its world *)

Inductive log_level : Type := DEBUG | INFO | WARNING.

Record log_record : Type := {
  lr_level : log_level;
  lr_msg : string;
  lr_args : list value;
}.

(** An entry of a saved text document: a plain value or, under the key
    [cell_map], the mapping from addresses to formulas and values. *)
Inductive document_item : Type :=
  | DValue (v : value)
  | DMap (m : list (string * value)).

(** The attributes of an [ExcelCompiler] ([eval], [excel], [log],
    [dep_graph], [cell_map], [graph_todos], [range_todos], ...), followed
    by the world the instance lives in: the object heap, the class counter
    [_Cell.ctr], the records the logger received, and, as a ghost field,
    the addresses of the cells whose formula was invoked, in order. *)
Record state : Type := {
  eval : option unit;
  excel : option datasource;
  filename : string;
  excel_file_md5_digest : value;
  log : option unit;
  dep_graph : DiGraph;
  cell_map : list (string * nat);
  graph_todos : option (list nat);
  range_todos : option (list string);
  extra_data : option (list (string * document_item));
  heap : list node;
  ctr : nat;
  logged : list log_record;
  runs : list string;
}.

Definition set_eval (x : option unit) (s : state) : state :=
  {| eval := x; excel := excel s; filename := filename s;
     excel_file_md5_digest := excel_file_md5_digest s; log := log s;
     dep_graph := dep_graph s; cell_map := cell_map s;
     graph_todos := graph_todos s; range_todos := range_todos s;
     extra_data := extra_data s; heap := heap s; ctr := ctr s;
     logged := logged s; runs := runs s |}.

Definition set_excel (x : option datasource) (s : state) : state :=
  {| eval := eval s; excel := x; filename := filename s;
     excel_file_md5_digest := excel_file_md5_digest s; log := log s;
     dep_graph := dep_graph s; cell_map := cell_map s;
     graph_todos := graph_todos s; range_todos := range_todos s;
     extra_data := extra_data s; heap := heap s; ctr := ctr s;
     logged := logged s; runs := runs s |}.

Definition set_excel_file_md5_digest (x : value) (s : state) : state :=
  {| eval := eval s; excel := excel s; filename := filename s;
     excel_file_md5_digest := x; log := log s;
     dep_graph := dep_graph s; cell_map := cell_map s;
     graph_todos := graph_todos s; range_todos := range_todos s;
     extra_data := extra_data s; heap := heap s; ctr := ctr s;
     logged := logged s; runs := runs s |}.

Definition set_log (x : option unit) (s : state) : state :=
  {| eval := eval s; excel := excel s; filename := filename s;
     excel_file_md5_digest := excel_file_md5_digest s; log := x;
     dep_graph := dep_graph s; cell_map := cell_map s;
     graph_todos := graph_todos s; range_todos := range_todos s;
     extra_data := extra_data s; heap := heap s; ctr := ctr s;
     logged := logged s; runs := runs s |}.

Definition set_dep_graph (x : DiGraph) (s : state) : state :=
  {| eval := eval s; excel := excel s; filename := filename s;
     excel_file_md5_digest := excel_file_md5_digest s; log := log s;
     dep_graph := x; cell_map := cell_map s;
     graph_todos := graph_todos s; range_todos := range_todos s;
     extra_data := extra_data s; heap := heap s; ctr := ctr s;
     logged := logged s; runs := runs s |}.

Definition set_cell_map (x : list (string * nat)) (s : state) : state :=
  {| eval := eval s; excel := excel s; filename := filename s;
     excel_file_md5_digest := excel_file_md5_digest s; log := log s;
     dep_graph := dep_graph s; cell_map := x;
     graph_todos := graph_todos s; range_todos := range_todos s;
     extra_data := extra_data s; heap := heap s; ctr := ctr s;
     logged := logged s; runs := runs s |}.

Definition set_graph_todos (x : option (list nat)) (s : state) : state :=
  {| eval := eval s; excel := excel s; filename := filename s;
     excel_file_md5_digest := excel_file_md5_digest s; log := log s;
     dep_graph := dep_graph s; cell_map := cell_map s;
     graph_todos := x; range_todos := range_todos s;
     extra_data := extra_data s; heap := heap s; ctr := ctr s;
     logged := logged s; runs := runs s |}.

Definition set_range_todos (x : option (list string)) (s : state) : state :=
  {| eval := eval s; excel := excel s; filename := filename s;
     excel_file_md5_digest := excel_file_md5_digest s; log := log s;
     dep_graph := dep_graph s; cell_map := cell_map s;
     graph_todos := graph_todos s; range_todos := x;
     extra_data := extra_data s; heap := heap s; ctr := ctr s;
     logged := logged s; runs := runs s |}.

Definition set_extra_data (x : option (list (string * document_item)))
           (s : state)
  : state :=
  {| eval := eval s; excel := excel s; filename := filename s;
     excel_file_md5_digest := excel_file_md5_digest s; log := log s;
     dep_graph := dep_graph s; cell_map := cell_map s;
     graph_todos := graph_todos s; range_todos := range_todos s;
     extra_data := x; heap := heap s; ctr := ctr s;
     logged := logged s; runs := runs s |}.

Definition set_heap (x : list node) (s : state) : state :=
  {| eval := eval s; excel := excel s; filename := filename s;
     excel_file_md5_digest := excel_file_md5_digest s; log := log s;
     dep_graph := dep_graph s; cell_map := cell_map s;
     graph_todos := graph_todos s; range_todos := range_todos s;
     extra_data := extra_data s; heap := x; ctr := ctr s;
     logged := logged s; runs := runs s |}.

Definition set_ctr (x : nat) (s : state) : state :=
  {| eval := eval s; excel := excel s; filename := filename s;
     excel_file_md5_digest := excel_file_md5_digest s; log := log s;
     dep_graph := dep_graph s; cell_map := cell_map s;
     graph_todos := graph_todos s; range_todos := range_todos s;
     extra_data := extra_data s; heap := heap s; ctr := x;
     logged := logged s; runs := runs s |}.

Definition set_logged (x : list log_record) (s : state) : state :=
  {| eval := eval s; excel := excel s; filename := filename s;
     excel_file_md5_digest := excel_file_md5_digest s; log := log s;
     dep_graph := dep_graph s; cell_map := cell_map s;
     graph_todos := graph_todos s; range_todos := range_todos s;
     extra_data := extra_data s; heap := heap s; ctr := ctr s;
     logged := x; runs := runs s |}.

Definition set_runs (x : list string) (s : state) : state :=
  {| eval := eval s; excel := excel s; filename := filename s;
     excel_file_md5_digest := excel_file_md5_digest s; log := log s;
     dep_graph := dep_graph s; cell_map := cell_map s;
     graph_todos := graph_todos s; range_todos := range_todos s;
     extra_data := extra_data s; heap := heap s; ctr := ctr s;
     logged := logged s; runs := x |}.

(** A method: it runs on a state and leaves one, also when it raises. *)
Definition M (A : Type) : Type := state → res A * state.

Definition ret {A} (a : A) : M A := λ s, (Ok a, s).
Definition raise {A} (e : exn) : M A := λ s, (Raise e, s).
Definition out_of_fuel {A} : M A := λ s, (OutOfFuel, s).

Definition bind {A B} (m : M A) (f : A → M B) : M B :=
  λ s, match m s with
       | (Ok a, s') => f a s'
       | (Raise e, s') => (Raise e, s')
       | (OutOfFuel, s') => (OutOfFuel, s')
       end.

Declare Scope M_scope.
Delimit Scope M_scope with M.
Notation "x <- m ;; k" := (bind m (λ x, k))
  (at level 100, m at next level, k at level 200, right associativity)
  : M_scope.
Notation "m ;; k" := (bind m (λ _, k))
  (at level 100, k at level 200, right associativity) : M_scope.
Open Scope M_scope.

Definition get_state : M state := λ s, (Ok s, s).
Definition modify (f : state → state) : M unit := λ s, (Ok tt, f s).

(** [assert b] *)
Definition assert (b : bool) : M unit :=
  if b then ret tt else raise AssertionError.

(** [for x in l: f x] *)
Fixpoint for_each {A} (l : list A) (f : A → M unit) : M unit :=
  match l with
  | [] => ret tt
  | x :: l' => f x ;; for_each l' f
  end.

(** [tuple(f x for x in l)] *)
Fixpoint map_M {A B} (l : list A) (f : A → M B) : M (list B) :=
  match l with
  | [] => ret []
  | x :: l' => y <- f x ;; ys <- map_M l' f ;; ret (y :: ys)
  end.

Definition lift_res {A} (r : res A) : M A := λ s, (r, s).

(** [self.log.debug(...)], [.info], [.warning]: the record reaches the
    logger; with [self.log] set to [None] the attribute access fails. *)
Definition log_call (lvl : log_level) (msg : string) (args : list value)
  : M unit :=
  λ s, match log s with
       | Some _ =>
           (Ok tt, set_logged (logged s ++ [{| lr_level := lvl; lr_msg := msg;
                                               lr_args := args |}]) s)
       | None => (Raise (AttributeError "log"), s)
       end.

(** Reading an object through a reference. *)
Definition get_node (id : nat) : M node :=
  λ s, match heap s !! id with
       | Some x => (Ok x, s)
       | None => (Raise (AttributeError "object"), s)
       end.

(** [obj.value = v] *)
Definition set_node_value (id : nat) (v : value) : M unit :=
  x <- get_node id ;;
  modify (λ s, set_heap (<[id := node_set_value x v]> (heap s)) s).

(** A new object. *)
Definition new_node (x : node) : M nat :=
  λ s, (Ok (length (heap s)), set_heap (heap s ++ [x]) s).

(** [self.cell_map[k]] *)
Definition lookup_cell_map (k : string) : M nat :=
  λ s, match dict_get (cell_map s) k with
       | Some id => (Ok id, s)
       | None => (Raise (KeyError k), s)
       end.

(** [self.cell_map[k] = obj] *)
Definition cell_map_set (k : string) (id : nat) : M unit :=
  modify (λ s, set_cell_map (dict_set (cell_map s) k id) s).

(** [self.excel], about to be used. *)
Definition get_excel : M datasource :=
  λ s, match excel s with
       | Some e => (Ok e, s)
       | None => (Raise (AttributeError "excel"), s)
       end.

Definition dquote : string := String (Ascii.ascii_of_nat 34) EmptyString.
Definition REF_START : string := "=_REF_(" +:+ dquote.
Definition REF_END : string := dquote +:+ ")".
(** [REF_FORMAT.format(a)] *)
Definition REF_FORMAT (a : string) : string := REF_START +:+ a +:+ REF_END.

(** Addresses given by a caller: one address or a list-like of them. *)
Inductive addr_arg : Type :=
  | AOne (a : string)
  | AMany (l : list addr_arg).

(** What [_gen_graph] accepts as a seed: an address object, a string, an
    iterable of seeds, or anything else. *)
Inductive seed_t : Type :=
  | SeedAddr (a : string)
  | SeedStr (s : string)
  | SeedIter (l : list seed_t)
  | SeedOther.

Section Engine.
Context `{AA : AddressAlgebra} `{FE : FormulaFrontEnd}.

(** [_Cell(address, value, formula, excel)]: the formula text is compiled
    unless it is empty, as Python code when the cell is given no data
    source or the compiled importer; the cell takes the next id. *)
Definition new_Cell (address : string) (v : value) (formula : string)
           (xl : option datasource) : M nat :=
  let is_python := match xl with
                   | Some e => is_compiled_importer e
                   | None => true
                   end in
  let f := if String.eqb formula EmptyString then None
           else Some (compile_formula is_python formula) in
  s <- get_state ;;
  modify (set_ctr (S (ctr s))) ;;
  new_node (NCell {| c_address := address; c_value := v; c_formula := f;
                     c_id := S (ctr s) |}).

(** [_CellRange(data)] *)
Definition new_CellRange (data_address : string) : M nat :=
  (if has_sheet data_address then ret tt
   else raise (ValueError "Must pass in a sheet")) ;;
  new_node (NRange {| r_address := data_address;
                      r_addresses := resolve_range data_address;
                      r_value := VNone |}).

(** [add_node_to_graph] of [_make_cells] (the [sheet] and [label]
    attributes it stores on the graph node are only read by the
    exporters). *)
Definition add_node_to_graph (id : nat) : M unit :=
  modify (λ s, set_dep_graph (add_node (dep_graph s) id) s) ;;
  s <- get_state ;;
  match graph_todos s with
  | Some l => modify (set_graph_todos (Some (l ++ [id])))
  | None => raise (AttributeError "append")
  end.

(** [build_cell] of [_make_cells] *)
Definition build_cell (excel_cell : RangeData) : M nat :=
  match excel_cell with
  | CellData address formulas values =>
      s <- get_state ;;
      a_cell <- new_Cell address values formulas (excel s) ;;
      cell_map_set address a_cell ;;
      ret a_cell
  | MatrixData _ _ _ => raise (TypeError "formula")
  end.

(** [build_range] of [_make_cells] *)
Definition build_range (excel_range : RangeData) : M (list nat) :=
  match excel_range with
  | MatrixData address formulas values =>
      a_range <- new_CellRange address ;;
      let excel_cells :=
        zip (concat (resolve_range address))
            (zip (concat formulas) (flat_map flatten (concat values))) in
      added <- map_M excel_cells (λ '(cell_address, (f, v)),
        assert (negb (is_range cell_address)) ;;
        s <- get_state ;;
        if dict_mem (cell_map s) cell_address then ret []
        else if String.eqb f EmptyString && is_None v then ret []
        else a_cell <- new_Cell cell_address v f (excel s) ;;
             cell_map_set cell_address a_cell ;;
             ret [a_cell]) ;;
      cell_map_set address a_range ;;
      ret (a_range :: concat added)
  | CellData _ _ _ => raise (TypeError "flatten")
  end.

(** [ExcelCompiler._make_cells] *)
Definition _make_cells (address : string) : M unit :=
  s <- get_state ;;
  assert (negb (dict_mem (cell_map s) address)) ;;
  xl <- get_excel ;;
  excel_data <- lift_res (get_range xl address) ;;
  new_nodes <-
    (if is_range address then
       (if negb (String.eqb (rd_address excel_data) address) then
          ref <- new_Cell address VNone (REF_FORMAT (rd_address excel_data))
                          None ;;
          cell_map_set address ref
        else ret tt) ;;
       s <- get_state ;;
       match range_todos s with
       | Some l =>
           modify (set_range_todos (Some (l ++ [rd_address excel_data])))
       | None => raise (AttributeError "append")
       end ;;
       build_range excel_data
     else
       a_cell <- build_cell excel_data ;; ret [a_cell]) ;;
  for_each new_nodes (λ id,
    x <- get_node id ;;
    if is_CellRange x || has_formula x
    then add_node_to_graph id
    else ret tt).

(** What [_evaluate] does before it calls a cell's formula: the debug
    record, the evaluation context built on first use, and the ghost
    record of the invocation. *)
Definition begin_formula (c : _Cell) (f : ExcelFormula) : M unit :=
  log_call DEBUG ("Evaluating: " +:+ c_address c +:+ ", " +:+ python_code f)
           [] ;;
  s <- get_state ;;
  match eval s with
  | Some _ => ret tt
  | None => modify (set_eval (Some tt))
  end ;;
  modify (λ s, set_runs (runs s ++ [c_address c]) s).

(** The graph builder and the evaluator call each other: a range lookup
    on an address that has no node yet builds it, and the builder
    evaluates the ranges it discovered.  [n] is the fuel. *)
Fixpoint _gen_graph (n : nat) (seed : seed_t) (recursed : bool) {struct n}
  : M unit :=
  match n with
  | 0 => out_of_fuel
  | S n' =>
      match seed with
      | SeedIter l =>
          for_each l (λ s, _gen_graph n' s true) ;;
          _process_gen_graph n'
      | SeedOther => raise (ValueError "Unknown seed")
      | SeedAddr _ | SeedStr _ =>
          let seed := match seed with
                      | SeedStr s => canon s
                      | SeedAddr a => a
                      | _ => EmptyString
                      end in
          (* get/set the current sheet *)
          seed <- (if has_sheet seed then ret seed
                   else xl <- get_excel ;;
                        sheet <- lift_res (get_active_sheet_name xl) ;;
                        ret (with_sheet seed sheet)) ;;
          s <- get_state ;;
          if dict_mem (cell_map s) seed then
            (* already did this cell/range *)
            ret tt
          else
            _make_cells seed ;;
            if recursed then ret tt else _process_gen_graph n'
      end
  end

with _process_gen_graph (n : nat) {struct n} : M unit :=
  match n with
  | 0 => out_of_fuel
  | S n' =>
      connect_dependants n' ;;
      (* calc the values for ranges *)
      s <- get_state ;;
      todos <- match range_todos s with
               | Some l => ret l
               | None => raise (TypeError "reversed")
               end ;;
      for_each (rev todos) (λ range_todo,
        _evaluate_range n' range_todo ;; ret tt) ;;
      modify (set_range_todos (Some [])) ;;
      s <- get_state ;;
      log_call INFO "Graph construction done, %s nodes, %s edges, %s self.cell_map entries"
        [VNum (Z.of_nat (length (dg_nodes (dep_graph s))));
         VNum (Z.of_nat (length (dg_edges (dep_graph s))));
         VNum (Z.of_nat (length (cell_map s)))]
  end

(** the [while self.graph_todos] loop of [_process_gen_graph] *)
with connect_dependants (n : nat) {struct n} : M unit :=
  match n with
  | 0 => out_of_fuel
  | S n' =>
      s <- get_state ;;
      match graph_todos s with
      | None | Some [] => ret tt
      | Some (d0 :: l0) =>
          let dependant := List.last l0 d0 in
          modify (set_graph_todos (Some (removelast (d0 :: l0)))) ;;
          x <- get_node dependant ;;
          log_call DEBUG ("Handling " +:+ node_address x) [] ;;
          for_each (node_needed_addresses x) (λ precedent_address,
            s <- get_state ;;
            (if dict_mem (cell_map s) precedent_address then ret tt
             else _gen_graph n' (SeedAddr precedent_address) true) ;;
            precedent <- lookup_cell_map precedent_address ;;
            modify (λ s, set_dep_graph
                           (add_edge (dep_graph s) precedent dependant) s)) ;;
          connect_dependants n'
      end
  end

with _evaluate_range (n : nat) (address : string) {struct n} : M value :=
  match n with
  | 0 => out_of_fuel
  | S n' =>
      s <- get_state ;;
      cell_range <-
        match dict_get (cell_map s) address with
        | Some id => ret id
        | None =>
            (* we don't save the _CellRange values in the text format *)
            assert (contains_char (Ascii.ascii_of_nat 33) address) ;;
            _gen_graph n' (SeedStr address) false ;;
            lookup_cell_map address
        end ;;
      x <- get_node cell_range ;;
      (if is_None (node_value x) then
         log_call DEBUG ("Evaluating: " +:+ node_address x) [] ;;
         addresses <- match x with
                      | NRange r => ret (r_addresses r)
                      | NCell _ => raise (AttributeError "addresses")
                      end ;;
         data <- map_M addresses (λ row,
                   vs <- map_M row (λ addr, _evaluate n' addr) ;;
                   ret (VSeq vs)) ;;
         set_node_value cell_range (VSeq data)
       else ret tt) ;;
      x <- get_node cell_range ;;
      ret (node_value x)
  end

with _evaluate (n : nat) (address : string) {struct n} : M value :=
  match n with
  | 0 => out_of_fuel
  | S n' =>
      cell <- lookup_cell_map address ;;
      x <- get_node cell ;;
      (* calculate the cell value for formulas and ranges *)
      (if is_None (node_value x) then
         match x with
         | NRange r => _evaluate_range n' (r_address r) ;; ret tt
         | NCell c =>
             match c_formula c with
             | Some f =>
                 if negb (String.eqb (python_code f) EmptyString) then
                   begin_formula c f ;;
                   v <- eval_formula n' (body f) ;;
                   log_call INFO "Cell %s evaluated to '%s' (%s)"
                     [VStr (c_address c); v; VStr (type_name v)] ;;
                   set_node_value cell
                     (if list_like v then VALUE_ERROR else v)
                 else ret tt
             | None => ret tt
             end
         end
       else ret tt) ;;
      x <- get_node cell ;;
      match node_value x with
      | VRef a =>
          (* If the cell returns a reference, then dereference *)
          _evaluate n' a
      | v => ret v
      end
  end

(** [self.eval(formula)]: the formula's callable run against the context
    built from [_evaluate] and [_evaluate_range]. *)
with eval_formula (n : nat) (e : fexpr) {struct n} : M value :=
  match n with
  | 0 => out_of_fuel
  | S n' =>
      match e with
      | Ret v => ret v
      | Throw exc => raise exc
      | LookupCell a k => v <- _evaluate n' a ;; eval_formula n' (k v)
      | LookupRange a k => v <- _evaluate_range n' a ;; eval_formula n' (k v)
      end
  end.

(** [ExcelCompiler.evaluate] *)
Fixpoint evaluate (n : nat) (address : addr_arg) {struct n} : M value :=
  match n with
  | 0 => out_of_fuel
  | S n' =>
      match address with
      | AMany l =>
          (* process a tuple or list of addresses *)
          vs <- map_M l (λ c, evaluate n' c) ;; ret (VSeq vs)
      | AOne a =>
          s <- get_state ;;
          if dict_mem (cell_map s) a then _evaluate n' a
          else
            let address := canon a in
            (* get the sheet if not specified *)
            address <- (if has_sheet address then ret address
                        else xl <- get_excel ;;
                             sheet <- lift_res (get_active_sheet_name xl) ;;
                             ret (with_sheet address sheet)) ;;
            s <- get_state ;;
            (if dict_mem (cell_map s) address then ret tt
             else _gen_graph n' (SeedStr address) false) ;;
            _evaluate n' address
      end
  end.

(** [ExcelCompiler._reset] *)
Fixpoint _reset (n : nat) (cell : nat) {struct n} : M unit :=
  match n with
  | 0 => out_of_fuel
  | S n' =>
      x <- get_node cell ;;
      if is_None (node_value x) then ret tt
      else
        log_call INFO ("Resetting " +:+ node_address x) [] ;;
        set_node_value cell VNone ;;
        s <- get_state ;;
        match successors (dep_graph s) cell with
        | Some children =>
            for_each children (λ child_cell,
              y <- get_node child_cell ;;
              if negb (is_None (node_value y)) then _reset n' child_cell
              else ret tt)
        | None => ret tt
        end
  end.

(** The body of [set_value] once the address names one node: compare,
    reset the node and its dependants, store the value. *)
Definition set_value_at (n : nat) (address : string) (v : value) : M unit :=
  cell_or_range <- lookup_cell_map address ;;
  x <- get_node cell_or_range ;;
  if negb (value_eqb (node_value x) v) then
    (* need to be able to 'set' an empty cell *)
    (if is_None (node_value x) then set_node_value cell_or_range v
     else ret tt) ;;
    (* reset the node + its dependencies *)
    _reset n cell_or_range ;;
    (* set the value *)
    set_node_value cell_or_range v
  else ret tt.

Fixpoint flatten_addr (a : addr_arg) : list string :=
  match a with
  | AOne s => [s]
  | AMany l => (fix go (l : list addr_arg) : list string :=
                  match l with
                  | [] => []
                  | x :: l' => flatten_addr x ++ go l'
                  end) l
  end.

(** [ExcelCompiler.set_value].  In the list-like branch each pair is set
    by a recursive call on an address object and a scalar, which reaches
    the canonical-address branch. *)
Definition set_value (n : nat) (address : addr_arg) (v : value) : M unit :=
  if list_like v then
    let values := flatten v in
    let addresses :=
      match address with
      | AMany _ => map canon (flatten_addr address)
      | AOne a => concat (resolve_range (canon a))
      end in
    assert (Nat.eqb (length addresses) (length values)) ;;
    for_each (zip addresses values) (λ '(addr, val),
      s <- get_state ;;
      assert (dict_mem (cell_map s) addr) ;;
      set_value_at n addr val)
  else
    match address with
    | AOne a =>
        s <- get_state ;;
        address <- (if dict_mem (cell_map s) a then ret a
                    else let a' := canon a in
                         assert (dict_mem (cell_map s) a') ;; ret a') ;;
        set_value_at n address v
    | AMany _ => raise (TypeError "unhashable")
    end.





(** ** The trimmer *)

(** [walk_dependents] of [trim_graph]: it only reads the graph and the
    addresses of the nodes, and adds to [needed_cells]; what it has added
    stays added when [successors] raises. *)
Fixpoint walk_dependents (n : nat) (g : DiGraph) (hp : list node)
         (needed_cells : gset string) (cell : nat) {struct n}
  : res unit * gset string :=
  match n with
  | 0 => (OutOfFuel, needed_cells)
  | S n' =>
      match successors g cell with
      | None => (Raise (NetworkXError "not in the digraph"), needed_cells)
      | Some children =>
          (fix loop (children : list nat) (needed_cells : gset string)
             : res unit * gset string :=
             match children with
             | [] => (Ok tt, needed_cells)
             | child_cell :: rest =>
                 match hp !! child_cell with
                 | None => (Raise (AttributeError "object"), needed_cells)
                 | Some y =>
                     let child_addr := node_address y in
                     if bool_decide (child_addr ∈ needed_cells)
                     then loop rest needed_cells
                     else
                       match walk_dependents n' g hp
                               ({[child_addr]} ∪ needed_cells) child_cell with
                       | (Ok _, needed_cells') => loop rest needed_cells'
                       | r => r
                       end
                 end
             end) children needed_cells
      end
  end.

(** The [try] block of [trim_graph]: the loop over the inputs.  It
    returns the needed cells and, when [successors] raised, the input
    being walked and the message. *)
Fixpoint walk_inputs (n : nat) (input_addrs : list string)
         (needed_cells : gset string) {struct input_addrs}
  : M (gset string * option (string * string)) :=
  match input_addrs with
  | [] => ret (needed_cells, None)
  | addr :: rest =>
      s <- get_state ;;
      match dict_get (cell_map s) addr with
      | Some cell =>
          match walk_dependents n (dep_graph s) (heap s) needed_cells cell with
          | (Ok _, needed_cells') => walk_inputs n rest needed_cells'
          | (Raise (NetworkXError msg), needed_cells') =>
              ret (needed_cells', Some (addr, msg))
          | (Raise e, _) => raise e
          | (OutOfFuel, _) => out_of_fuel
          end
      | None =>
          log_call WARNING ("Address " +:+ addr +:+ " not found in cell_map")
                   [] ;;
          walk_inputs n rest needed_cells
      end
  end.

(** [walk_precedents] of [trim_graph] *)
Fixpoint walk_precedents (n : nat) (cell : nat)
         (sets : gset string * gset string) {struct n}
  : M (gset string * gset string) :=
  match n with
  | 0 => out_of_fuel
  | S n' =>
      x <- get_node cell ;;
      (fix loop (children : list string) (sets : gset string * gset string)
         : M (gset string * gset string) :=
         match children with
         | [] => ret sets
         | child_address :: rest =>
             let '(needed_cells, processed_cells) := sets in
             if bool_decide (child_address ∈ processed_cells)
             then loop rest sets
             else
               let processed_cells := {[child_address]} ∪ processed_cells in
               child_cell <- lookup_cell_map child_address ;;
               if bool_decide (child_address ∈ needed_cells)
                  || contains_char (Ascii.ascii_of_nat 58) child_address
               then
                 sets' <- walk_precedents n' child_cell
                            (needed_cells, processed_cells) ;;
                 loop rest sets'
               else
                 (* trim this cell, now we will need only its value *)
                 y <- get_node child_cell ;;
                 modify (λ s, set_heap (<[child_cell := node_clear_formula y]>
                                          (heap s)) s) ;;
                 log_call DEBUG ("Trimming " +:+ child_address) [] ;;
                 loop rest ({[child_address]} ∪ needed_cells, processed_cells)
         end) (node_needed_addresses x) sets
  end.

(** [for addr in output_addrs: walk_precedents(self.cell_map[addr.address])] *)
Fixpoint walk_outputs (n : nat) (outs : list string)
         (sets : gset string * gset string) {struct outs}
  : M (gset string * gset string) :=
  match outs with
  | [] => ret sets
  | addr :: rest =>
      cell <- lookup_cell_map addr ;;
      sets' <- walk_precedents n cell sets ;;
      walk_outputs n rest sets'
  end.

(** Step 2 of [trim_graph]: the [try] block, its [except] clause, and
    the outputs, which are needed even when unconnected. *)
Definition find_needed_cells (n : nat) (input_addrs output_addrs : list string)
  : M (gset string) :=
  walked <- walk_inputs n input_addrs ∅ ;;
  let '(needed_cells, caught) := walked in
  match caught with
  | Some (addr, exc) =>
      if negb (existsb (String.eqb (canon addr)) output_addrs) then
        raise (ValueError (exc +:+ ": which usually means no outputs are dependant on it."))
      else ret tt
  | None => ret tt
  end ;;
  (* even unconnected output addresses are needed *)
  ret (foldl (λ nc addr, {[addr]} ∪ nc) needed_cells output_addrs).

(** [ExcelCompiler.trim_graph] *)
Definition trim_graph (n : nat) (input_addrs output_addrs : list string)
  : M unit :=
  let input_addrs := map canon input_addrs in
  let output_addrs := map canon output_addrs in
  (* 1) build graph for all needed outputs *)
  _gen_graph n (SeedIter (map SeedAddr output_addrs)) false ;;
  (* 2) walk the dependant tree (from the inputs) and find needed cells *)
  needed_cells <- find_needed_cells n input_addrs output_addrs ;;
  (* 3) walk the precedent tree (from the output) and trim unneeded cells *)
  sets <- walk_outputs n output_addrs (needed_cells, ∅) ;;
  let needed_cells := sets.1 in
  (* 4) check for any buried (not leaf node) inputs *)
  for_each input_addrs (λ addr,
    s <- get_state ;;
    match dict_get (cell_map s) addr with
    | Some cell =>
        x <- get_node cell ;;
        if has_formula x
        then log_call INFO (addr +:+ " is not a leaf node") []
        else ret tt
    | None => ret tt
    end) ;;
  (* 5) remove unneeded cells *)
  s <- get_state ;;
  let cells_to_remove :=
    filter (λ addr, addr ∉ needed_cells) (dict_keys (cell_map s)) in
  for_each cells_to_remove (λ addr,
    modify (λ s, set_cell_map (dict_del (cell_map s) addr) s)).

(** ** Persistence *)

(** [cell_value] of [_to_text] *)
Definition cell_value (a_cell : node) : value :=
  match node_formula a_cell with
  | Some f => if negb (String.eqb (python_code f) EmptyString)
              then VStr ("=" +:+ python_code f)
              else node_value a_cell
  | None => node_value a_cell
  end.

(** [sorted(items, key=lambda x: AddressRange(x[0]).sort_key)]: a stable
    sort, each item going behind the items whose key is not larger. *)
Fixpoint sorted_insert (x : string * value) (l : list (string * value))
  : list (string * value) :=
  match l with
  | [] => [x]
  | y :: l' =>
      if sort_key_le (canon y.1) (canon x.1) then y :: sorted_insert x l'
      else x :: y :: l'
  end.

Definition sorted (l : list (string * value)) : list (string * value) :=
  foldl (λ acc x, sorted_insert x acc) [] l.

(** [dict(pairs)] *)
Definition dict_of_pairs (l : list (string * value))
  : list (string * value) :=
  foldl (λ d kv, dict_set d kv.1 kv.2) [] l.

(** The [cell_map] entry of the saved document. *)
Definition text_cell_map (s : state) : list (string * value) :=
  dict_of_pairs (sorted (
    omap (λ '(addr, cell),
            match heap s !! cell with
            | Some x => if serialize x then Some (addr, cell_value x)
                        else None
            | None => None
            end) (cell_map s))).

(** [ExcelCompiler._to_text]: the dictionary handed to the YAML or JSON
    writer, and the instance afterwards ([extra_data], when the instance
    has one, is updated in place and keeps the [excel_hash] entry).
    Writing the file and comparing its digest with the previous file's
    belong to the codec and the file system. *)
Definition _to_text (s : state) : list (string * document_item) * state :=
  let ed := match extra_data s with
            | Some d => d
            | None => []
            end in
  let ed := dict_set (dict_set ed "excel_hash"
                               (DValue (excel_file_md5_digest s)))
                     "cell_map" (DMap (text_cell_map s)) in
  (ed,
   match extra_data s with
   | Some _ => set_extra_data (Some (dict_del ed "cell_map")) s
   | None => s
   end).

(** [_CompiledImporter._get_cell] *)
Definition _get_cell (file_cell_map : list (string * value))
           (address : string) : RangeData :=
  match dict_get file_cell_map address with
  | None | Some VNone => CellData address EmptyString VNone
  | Some (VStr t) =>
      if startswith t "=" then CellData address t VNone
      else CellData address EmptyString (VStr t)
  | Some v => CellData address EmptyString v
  end.

Definition cd_formulas (d : RangeData) : string :=
  match d with CellData _ f _ => f | MatrixData _ _ _ => EmptyString end.
Definition cd_values (d : RangeData) : value :=
  match d with CellData _ _ v => v | MatrixData _ _ _ => VNone end.

(** [_CompiledImporter.get_range]; an unbounded range is stored as a
    reference to the range it resolved to, which is followed. *)
Fixpoint importer_get_range (n : nat) (file_cell_map : list (string * value))
         (address : string) {struct n} : res RangeData :=
  if negb (is_bounded_range address) then
    if negb (is_range address) then Ok (_get_cell file_cell_map address)
    else
      (* this is a unbounded range to range mapping, disassemble *)
      let formula := cd_formulas (_get_cell file_cell_map address) in
      if negb (startswith formula REF_START) then Raise AssertionError
      else if negb (endswith formula REF_END) then Raise AssertionError
      else
        let ref_addr :=
          String.substring (String.length REF_START)
            (String.length formula - String.length REF_START
             - String.length REF_END) formula in
        match n with
        | 0 => OutOfFuel
        | S n' => importer_get_range n' file_cell_map (canon ref_addr)
        end
  else
    (* need to map col or row ranges to a specific range *)
    let cells := map (map (_get_cell file_cell_map)) (resolve_range address) in
    Ok (MatrixData address (map (map cd_formulas) cells)
                   (map (map cd_values) cells)).

(** [filename.rsplit('.', maxsplit=1)[0]] *)
Fixpoint rsplit_dot (s : string) : option string :=
  match s with
  | EmptyString => None
  | String c s' =>
      match rsplit_dot s' with
      | Some p => Some (String c p)
      | None => if Ascii.eqb c (Ascii.ascii_of_nat 46) then Some EmptyString
                else None
      end
  end.

(** [filename.split('.')[-1]] *)
Definition after_last_dot (s : string) : string :=
  match rsplit_dot s with
  | Some p => String.substring (S (String.length p))
                (String.length s - S (String.length p)) s
  | None => s
  end.

(** [_CompiledImporter(filename, file_data)].  A chain of references
    through the records that is longer than the records are many has a
    cycle, on which Python would recurse until its stack overflows. *)
Definition _CompiledImporter (filename : string)
           (file_cell_map : list (string * value)) : datasource :=
  {| ds_filename := default filename (rsplit_dot filename);
     is_compiled_importer := true;
     get_range := importer_get_range (length file_cell_map) file_cell_map;
     get_active_sheet_name := Raise (AttributeError "get_active_sheet_name") |}.

(** [ExcelCompiler.__init__(excel=excel)], on the world it is run in;
    [digest] is the digest of the file of that name, if there is one. *)
Definition __init__ (xl : datasource) (digest : value) (w : state) : state :=
  {| eval := None; excel := Some xl; filename := ds_filename xl;
     excel_file_md5_digest := digest; log := Some tt;
     dep_graph := {| dg_nodes := []; dg_edges := [] |};
     cell_map := []; graph_todos := Some []; range_todos := Some [];
     extra_data := None;
     heap := heap w; ctr := ctr w; logged := logged w; runs := runs w |}.

(** [add_line_numbers] of [_from_text]: the line number and file name it
    stores on the formula are for debuggers only; what remains is the
    lookup. *)
Definition add_line_numbers (cell_addr : string) : M unit :=
  cell <- lookup_cell_map cell_addr ;;
  x <- get_node cell ;;
  match x with
  | NCell _ => ret tt
  | NRange _ => raise (AttributeError "formula")
  end.

(** [ExcelCompiler._from_text], from the document the YAML reader
    returned; the new instance replaces the attributes of the state. *)
Definition _from_text (n : nat) (filename : string) (is_json : bool)
           (data : list (string * document_item)) (digest : value) : M unit :=
  let filename :=
    if is_json then
      if endswith filename ".json" then filename else filename +:+ ".json"
    else
      if startswith (after_last_dot filename) "y" then filename
      else filename +:+ ".yml" in
  file_cell_map <- match dict_get data "cell_map" with
                   | Some (DMap m) => ret m
                   | Some (DValue _) => raise (TypeError "cell_map")
                   | None => raise (KeyError "cell_map")
                   end ;;
  modify (__init__ (_CompiledImporter filename file_cell_map) digest) ;;
  (* populate the cells *)
  let addresses := map (λ kv, canon kv.1) file_cell_map in
  for_each (List.filter (λ a, negb (is_range a)) addresses) (λ address,
    _make_cells address ;; add_line_numbers address) ;;
  (* populate the ranges and dependant graph *)
  for_each (List.filter is_range addresses) (λ address,
    _make_cells address ;; add_line_numbers address) ;;
  _process_gen_graph n ;;
  (* process the rest of the data from the file *)
  excel_hash <- match dict_get data "excel_hash" with
                | Some (DValue v) => ret v
                | Some (DMap _) => raise (TypeError "excel_hash")
                | None => raise (KeyError "excel_hash")
                end ;;
  modify (set_excel_file_md5_digest excel_hash) ;;
  modify (set_extra_data
            (Some (dict_del (dict_del data "cell_map") "excel_hash"))) ;;
  (* remove "excel" file references for GC *)
  modify (set_excel None).

(** ** Pickling *)

(** [ExcelCompiler.__getstate__]: the instance dictionary with the
    attributes that cannot be pickled set to [None]. *)
Definition __getstate__ (s : state) : state :=
  set_eval None (set_excel None (set_log None
    (set_graph_todos None (set_range_todos None s)))).

(** [ExcelCompiler.__setstate__(d)] on a new object in the world [w]:
    the attributes are those of [d], and the logger is fetched again.
    The objects come with the pickle; [_Cell.ctr] and the logger's
    records are those of the process that loads. *)
Definition __setstate__ (d : state) (w : state) : state :=
  set_log (Some tt)
    {| eval := eval d; excel := excel d; filename := filename d;
       excel_file_md5_digest := excel_file_md5_digest d; log := log d;
       dep_graph := dep_graph d; cell_map := cell_map d;
       graph_todos := graph_todos d; range_todos := range_todos d;
       extra_data := extra_data d;
       heap := heap d; ctr := ctr w; logged := logged w; runs := runs w |}.
End Engine.

(** ** A small workbook to run the engine on

    One sheet [S] with [A1 = 2], [B1 = A1*3] and [C1 = B1+1], the data
    source that serves it, and the instances of the external collaborators
    that the examples below use. *)
Module Demo.

Definition colon : Ascii.ascii := Ascii.ascii_of_nat 58.
Definition bang : Ascii.ascii := Ascii.ascii_of_nat 33.

#[global] Instance demo_AA : AddressAlgebra := {|
  canon := id;
  is_range := contains_char colon;
  is_bounded_range := contains_char colon;
  has_sheet := contains_char bang;
  with_sheet a sheet := sheet +:+ "!" +:+ a;
  resolve_range a := [];
  sort_key_le := String.leb;
|}.

Definition on_num (g : Z → Z) (v : value) : fexpr :=
  match v with
  | VNum z => Ret (VNum (g z))
  | _ => Ret VALUE_ERROR
  end.

Definition times3 : ExcelFormula :=
  {| python_code := "_C_(S!A1) * 3"; needed_addresses := ["S!A1"];
     body := LookupCell "S!A1" (on_num (λ z, z * 3)%Z) |}.

Definition plus1 : ExcelFormula :=
  {| python_code := "_C_(S!B1) + 1"; needed_addresses := ["S!B1"];
     body := LookupCell "S!B1" (on_num (λ z, z + 1)%Z) |}.

(** a formula that reads an empty cell and passes its value on *)
Definition same_as_E1 : ExcelFormula :=
  {| python_code := "_C_(S!E1)"; needed_addresses := ["S!E1"];
     body := LookupCell "S!E1" Ret |}.

(** a formula that spills a list into its cell *)
Definition spill : ExcelFormula :=
  {| python_code := "(1, 2)"; needed_addresses := [];
     body := Ret (VSeq [VNum 1; VNum 2]) |}.

(** a formula with two precedents *)
Definition plusH : ExcelFormula :=
  {| python_code := "_C_(S!A1) + _C_(S!H1)";
     needed_addresses := ["S!A1"; "S!H1"];
     body := LookupCell "S!A1" (λ v,
               LookupCell "S!H1" (λ w,
                 match v, w with
                 | VNum x, VNum y => Ret (VNum (x + y))
                 | _, _ => Ret VALUE_ERROR
                 end)) |}.

#[global] Instance demo_FE : FormulaFrontEnd := {|
  compile_formula _ text :=
    if String.eqb text "=A1*3" || String.eqb text "=_C_(S!A1) * 3"
    then times3
    else if String.eqb text "=B1+1" || String.eqb text "=_C_(S!B1) + 1"
    then plus1
    else if String.eqb text "=E1" || String.eqb text "=_C_(S!E1)"
    then same_as_E1
    else if String.eqb text "=A1+H1"
            || String.eqb text "=_C_(S!A1) + _C_(S!H1)"
    then plusH
    else spill
|}.

Definition workbook : datasource := {|
  ds_filename := "book.xlsx";
  is_compiled_importer := false;
  get_range a :=
    if String.eqb a "S!A1" then Ok (CellData a EmptyString (VNum 2))
    else if String.eqb a "S!B1" then Ok (CellData a "=A1*3" (VNum 6))
    else if String.eqb a "S!C1" then Ok (CellData a "=B1+1" (VNum 7))
    else if String.eqb a "S!D1" then Ok (CellData a "=E1" VNone)
    else if String.eqb a "S!F1" then Ok (CellData a "=SPILL" VNone)
    else if String.eqb a "S!G1" then Ok (CellData a "=A1+H1" (VNum 12))
    else if String.eqb a "S!H1" then Ok (CellData a EmptyString (VNum 10))
    else Ok (CellData a EmptyString VNone);
  get_active_sheet_name := Ok "S";
|}.

Definition empty_graph : DiGraph := {| dg_nodes := []; dg_edges := [] |}.

(** a process in which nothing has been created yet *)
Definition world0 : state :=
  {| eval := None; excel := None; filename := EmptyString;
     excel_file_md5_digest := VNone; log := None; dep_graph := empty_graph;
     cell_map := []; graph_todos := None; range_todos := None;
     extra_data := None; heap := []; ctr := 0; logged := []; runs := [] |}.

(** [ExcelCompiler(excel=workbook)] *)
Definition fresh : state := __init__ workbook VNone world0.

(** the state a method leaves *)
Definition after {A} (m : M A) (s : state) : state := (m s).2.

(** the compiler after [evaluate('S!C1')] *)
Definition built : state := after (evaluate 20 (AOne "S!C1")) fresh.

(** the compiler with the node of [S!F1], whose formula yields a list *)
Definition with_F1 : state :=
  after (_gen_graph 10 (SeedAddr "S!F1") false) fresh.



(** the compiler after [evaluate(['S!C1', 'S!G1'])]: [S!G1] reads [S!A1]
    and [S!H1] *)
Definition with_G1 : state :=
  after (evaluate 20 (AMany [AOne "S!C1"; AOne "S!G1"])) fresh.

(** and after [trim_graph(['S!A1'], ['S!C1'])]: [S!G1] depends on the
    input and is kept, [S!H1] is removed *)
Definition trimmed_G1 : state :=
  after (trim_graph 20 ["S!A1"] ["S!C1"]) with_G1.

End Demo.

(** ** Vocabulary of the properties *)

(** the cached value of an object *)
Definition val (s : state) (id : nat) : option value :=
  node_value <$> heap s !! id.

(** how many objects hold a value *)
Definition cached (hp : list node) : nat :=
  length (List.filter (λ x, negb (is_None (node_value x))) hp).

(** The edges of the graph start at nodes of the graph and end at objects. *)
Definition graph_ok (s : state) : Prop :=
  ∀ u w, (u, w) ∈ dg_edges (dep_graph s) →
         nat_mem u (dg_nodes (dep_graph s)) = true ∧ w < length (heap s).

(** What a reset does to the state: it only clears values, and whatever it
    cleared has all its successors cleared. *)
Record resets (s s' : state) : Prop := {
  rs_graph : dep_graph s' = dep_graph s;
  rs_log : log s' = log s;
  rs_map : cell_map s' = cell_map s;
  rs_len : length (heap s') = length (heap s);
  rs_heap : ∀ id x, heap s !! id = Some x →
              heap s' !! id = Some x
              ∨ heap s' !! id = Some (node_set_value x VNone);
  rs_cached : (cached (heap s') ≤ cached (heap s))%nat;
  rs_closed : ∀ u w x, (u, w) ∈ dg_edges (dep_graph s) →
                heap s !! u = Some x → is_None (node_value x) = false →
                val s' u = Some VNone → val s' w = Some VNone;
}.



(** A data source that answers every request under the address it was
    asked for (it resolves no unbounded range to another address); no data
    source at all is such a source. *)
Definition redirect_free (xl : option datasource) : Prop :=
  match xl with
  | Some xl => ∀ a d, get_range xl a = Ok d → rd_address d = a
  | None => True
  end.

(** What building and evaluating can do to the state: objects stay and
    keep everything but their value, a value that is there is not replaced,
    a cell without Python code is not touched at all, the graph only grows,
    the handles stay, invocations are only added to the record, and (with a
    source that does not redirect) an address keeps its node. *)
Record ext (s s' : state) : Prop := {
  ex_excel : excel s' = excel s;
  ex_log : log s' = log s;
  ex_heap : ∀ id x, heap s !! id = Some x →
    ∃ x', heap s' !! id = Some x'
          ∧ x' = node_set_value x (node_value x')
          ∧ (is_None (node_value x) = false → x' = x)
          ∧ (is_CellRange x = false → has_python_code x = false → x' = x);
  ex_nodes : dg_nodes (dep_graph s) ⊆ dg_nodes (dep_graph s');
  ex_edges : dg_edges (dep_graph s) ⊆ dg_edges (dep_graph s');
  ex_runs : runs s `prefix_of` runs s';
  ex_map : redirect_free (excel s) →
           ∀ k id, dict_get (cell_map s) k = Some id →
                   dict_get (cell_map s') k = Some id;
}.

(** a method that only extends the state, whatever its outcome *)
Definition mono {A} (m : M A) : Prop := ∀ s, ext s (m s).2.

(** the same, seen from an earlier state [s0] *)
Definition mono_from (s0 : state) {A} (m : M A) : Prop :=
  ∀ s, ext s0 s → ext s0 (m s).2.

(** [ext], and no address of a range gets or loses its node. *)
Definition ext_cells `{AA : AddressAlgebra} (s s' : state) : Prop :=
  ext s s'
  ∧ ∀ k, is_range k = true → dict_get (cell_map s') k = dict_get (cell_map s) k.


(** what [recalculate] clears: a range, or a cell with a formula *)
Definition recalculated (x : node) : bool := is_CellRange x || has_formula x.

(** the heap after the first loop of [recalculate] went over the objects
    [ids] *)
Definition clear_ids (ids : list nat) (hp : list node) : list node :=
  foldl (λ hp id, match hp !! id with
                  | Some x => if recalculated x
                              then <[id := node_set_value x VNone]> hp
                              else hp
                  | None => hp
                  end) hp ids.

(** a method after which the state is related by [R] to the state before,
    whatever its outcome *)
Definition pres (R : state → state → Prop) {A} (m : M A) : Prop :=
  ∀ s, R s (m s).2.

(** What trimming (after its build step) can do to the state: the
    dependency graph is what it was, and an object is what it was or has
    lost its formula.  The address map is not constrained. *)
Record trims (s s' : state) : Prop := {
  tr_graph : dep_graph s' = dep_graph s;
  tr_len : length (heap s') = length (heap s);
  tr_heap : ∀ id x, heap s !! id = Some x →
              heap s' !! id = Some x
              ∨ heap s' !! id = Some (node_clear_formula x);
}.

Section Steps.
Context `{AA : AddressAlgebra} `{FE : FormulaFrontEnd}.

(** the first half of [_evaluate]: compute the value of a node that has
    none *)
Definition evaluate_compute (n : nat) (cell : nat) (x : node) : M unit :=
  if is_None (node_value x) then
    match x with
    | NRange r => _evaluate_range n (r_address r) ;; ret tt
    | NCell c =>
        match c_formula c with
        | Some f =>
            if negb (String.eqb (python_code f) EmptyString) then
              begin_formula c f ;;
              v <- eval_formula n (body f) ;;
              log_call INFO "Cell %s evaluated to '%s' (%s)"
                [VStr (c_address c); v; VStr (type_name v)] ;;
              set_node_value cell (if list_like v then VALUE_ERROR else v)
            else ret tt
        | None => ret tt
        end
    end
  else ret tt.

(** the second half of [_evaluate]: return the value, through the
    reference if it is one *)
Definition evaluate_return (n : nat) (cell : nat) : M value :=
  x <- get_node cell ;;
  match node_value x with
  | VRef a => _evaluate n a
  | v => ret v
  end.

(** [_evaluate_range] once the node of the range is known *)
Definition evaluate_range_known (n : nat) (cell_range : nat) : M value :=
  x <- get_node cell_range ;;
  (if is_None (node_value x) then
     log_call DEBUG ("Evaluating: " +:+ node_address x) [] ;;
     addresses <- match x with
                  | NRange r => ret (r_addresses r)
                  | NCell _ => raise (AttributeError "addresses")
                  end ;;
     data <- map_M addresses (λ row,
               vs <- map_M row (λ addr, _evaluate n addr) ;;
               ret (VSeq vs)) ;;
     set_node_value cell_range (VSeq data)
   else ret tt) ;;
  x <- get_node cell_range ;;
  ret (node_value x).

(** steps 2 to 5 of [trim_graph] *)
Definition trim_after_build (n : nat) (input_addrs output_addrs : list string)
  : M unit :=
  needed_cells <- find_needed_cells n input_addrs output_addrs ;;
  sets <- walk_outputs n output_addrs (needed_cells, ∅) ;;
  let needed_cells := sets.1 in
  for_each input_addrs (λ addr,
    s <- get_state ;;
    match dict_get (cell_map s) addr with
    | Some cell =>
        x <- get_node cell ;;
        if has_formula x
        then log_call INFO (addr +:+ " is not a leaf node") []
        else ret tt
    | None => ret tt
    end) ;;
  s <- get_state ;;
  let cells_to_remove :=
    filter (λ addr, addr ∉ needed_cells) (dict_keys (cell_map s)) in
  for_each cells_to_remove (λ addr,
    modify (λ s, set_cell_map (dict_del (cell_map s) addr) s)).
End Steps.

(** ** Evaluation inside a closed part of the graph *)

(** a value that, if it is a reference, refers to an address of [K] *)
Definition value_within (K : list string) (v : value) : Prop :=
  ∀ r, v = VRef r → r ∈ K.

(** a formula body whose lookups and returned references stay in [K] *)
Inductive reads_within (K : list string) : fexpr → Prop :=
  | rw_ret (v : value) : value_within K v → reads_within K (Ret v)
  | rw_throw (e : exn) : reads_within K (Throw e)
  | rw_cell (a : string) (k : value → fexpr) :
      a ∈ K → (∀ v, reads_within K (k v)) → reads_within K (LookupCell a k)
  | rw_range (a : string) (k : value → fexpr) :
      a ∈ K → (∀ v, reads_within K (k v)) → reads_within K (LookupRange a k).

(** a node whose value, formula and members stay in [K] *)
Definition node_within (K : list string) (x : node) : Prop :=
  value_within K (node_value x)
  ∧ match x with
    | NCell c => match c_formula c with
                 | Some f => reads_within K (body f)
                 | None => True
                 end
    | NRange r => r_address r ∈ K ∧ ∀ a, a ∈ concat (r_addresses r) → a ∈ K
    end.

(** Two states that an evaluation inside [K] cannot tell apart: the same
    objects, the same handles, and the addresses of [K] name the same
    objects, which are objects of [I] and stay in [K]. *)
Record same_within (K : list string) (I : list nat) (s t : state) : Prop := {
  sw_heap : heap s = heap t;
  sw_log : log s = log t;
  sw_eval : eval s = eval t;
  sw_runs : runs s = runs t;
  sw_map : ∀ k, k ∈ K →
             ∃ id, id ∈ I ∧ dict_get (cell_map s) k = Some id
                   ∧ dict_get (cell_map t) k = Some id;
  sw_objs : ∀ id, id ∈ I → ∃ x, heap s !! id = Some x ∧ node_within K x;
}.

(** a method that has the same outcome on both states and leaves them
    indistinguishable *)
Definition sim_run (K : list string) (I : list nat) {A} (m : M A)
           (s t : state) : Prop :=
  (m s).1 = (m t).1 ∧ same_within K I (m s).2 (m t).2.

(** ** The trimming scenario

    One sheet with the input [A1], [B1] whose formula reads [A1], the
    output [C1] whose formula reads [B1], and [D1] with an unrelated
    formula, as the builder leaves them: the objects in the heap, the four
    addresses in the map, the edges [A1 → B1 → C1].  The values, the bodies
    of the formulas and the rest of the state are arbitrary. *)
Module Scenario.

Definition A1 : string := "Sheet1!A1".
Definition B1 : string := "Sheet1!B1".
Definition C1 : string := "Sheet1!C1".
Definition D1 : string := "Sheet1!D1".

Definition formula_B (code : string) (b : fexpr) : ExcelFormula :=
  {| python_code := code; needed_addresses := [A1]; body := b |}.

Definition formula_C (code : string) (b : fexpr) : ExcelFormula :=
  {| python_code := code; needed_addresses := [B1]; body := b |}.

Definition cells (vA vB vC vD : value) (fB fC fD : ExcelFormula) : list node :=
  [NCell {| c_address := A1; c_value := vA; c_formula := None; c_id := 1 |};
   NCell {| c_address := B1; c_value := vB; c_formula := Some fB; c_id := 2 |};
   NCell {| c_address := C1; c_value := vC; c_formula := Some fC; c_id := 3 |};
   NCell {| c_address := D1; c_value := vD; c_formula := Some fD; c_id := 4 |}].

Definition graph : DiGraph :=
  {| dg_nodes := [2; 1; 0; 3]; dg_edges := [(1, 2); (0, 1)] |}.

Definition sheet (base : state) (hp : list node) : state :=
  {| eval := eval base; excel := excel base; filename := filename base;
     excel_file_md5_digest := excel_file_md5_digest base; log := Some tt;
     dep_graph := graph;
     cell_map := [(C1, 2); (B1, 1); (A1, 0); (D1, 3)];
     graph_todos := Some []; range_todos := Some [];
     extra_data := extra_data base;
     heap := hp; ctr := 4; logged := logged base; runs := runs base |}.

(** the records [trim_graph] logs on the scenario *)
Definition build_done : log_record :=
  {| lr_level := INFO;
     lr_msg := "Graph construction done, %s nodes, %s edges, %s self.cell_map entries";
     lr_args := [VNum 4; VNum 2; VNum 4] |}.

Definition trimming (a : string) : log_record :=
  {| lr_level := DEBUG; lr_msg := "Trimming " +:+ a; lr_args := [] |}.

(** the scenario after [trim_graph([A1], [C1])] *)
Definition trimmed (base : state) (hp : list node) : state :=
  set_cell_map [(C1, 2); (B1, 1); (A1, 0)]
    (set_logged ((logged base ++ [build_done]) ++ [trimming A1])
                (sheet base hp)).

(** the scenario after [trim_graph([], [C1])]: [B1] is kept for its value *)
Definition frozen (base : state) (vA vB vC vD : value)
           (fB fC fD : ExcelFormula) : state :=
  set_heap
    [NCell {| c_address := A1; c_value := vA; c_formula := None; c_id := 1 |};
     NCell {| c_address := B1; c_value := vB; c_formula := None; c_id := 2 |};
     NCell {| c_address := C1; c_value := vC; c_formula := Some fC; c_id := 3 |};
     NCell {| c_address := D1; c_value := vD; c_formula := Some fD; c_id := 4 |}]
    (set_cell_map [(C1, 2); (B1, 1)]
       (set_logged ((logged base ++ [build_done]) ++ [trimming B1])
                   (sheet base (cells vA vB vC vD fB fC fD)))).

(** the bodies of [= A1 * 3] and [= B1 + 1] *)
Definition body_B : fexpr := LookupCell A1 (Demo.on_num (λ z, z * 3)%Z).
Definition body_C : fexpr := LookupCell B1 (Demo.on_num (λ z, z + 1)%Z).

(** the scenario with [A1 = 2] and nothing computed yet *)
Definition example : state :=
  sheet Demo.world0
    (cells (VNum 2) VNone VNone VNone (formula_B "_C_(A1) * 3" body_B)
           (formula_C "_C_(B1) + 1" body_C) Demo.spill).

End Scenario.

(** ** Records of a saved document *)

Section Records.
Context `{AA : AddressAlgebra} `{FE : FormulaFrontEnd}.

(** the formula [_CompiledImporter] and [_Cell] make of a stored value: a
    string that starts with [=] is compiled as Python code *)
Definition record_formula (v : value) : option ExcelFormula :=
  match v with
  | VStr t => if startswith t "=" then Some (compile_formula true t) else None
  | _ => None
  end.

(** the value of the cell made of a stored value *)
Definition record_value (v : value) : value :=
  match record_formula v with
  | Some _ => VNone
  | None => v
  end.

(** the cell made of a record *)
Definition loaded_as (rec : string * value) (x : node) : Prop :=
  ∃ i, x = NCell {| c_address := rec.1; c_value := record_value rec.2;
                    c_formula := record_formula rec.2; c_id := i |}.

(** A record that survives a reload: its address is a canonical cell
    address, and if it is a formula, the formula has Python code, is
    written back as the same text, and needs only addresses of [keys]. *)
Definition round_trips (keys : list string) (rec : string * value) : Prop :=
  canon rec.1 = rec.1 ∧ is_range rec.1 = false
  ∧ is_bounded_range rec.1 = false
  ∧ ∀ f, record_formula rec.2 = Some f →
         rec.2 = VStr ("=" +:+ python_code f)
         ∧ String.eqb (python_code f) EmptyString = false
         ∧ ∀ p, p ∈ needed_addresses f → p ∈ keys.

(** the state of [_from_text] after the cells of the records [done] were
    made *)
Record loading (imp : datasource) (done : list (string * value)) (st : state)
  : Prop := {
  ld_excel : excel st = Some imp;
  ld_log : log st = Some tt;
  ld_range_todos : range_todos st = Some [];
  ld_entries :
    Forall2 (λ rec e, e.1 = rec.1
                      ∧ ∃ x, heap st !! e.2 = Some x ∧ loaded_as rec x)
            done (cell_map st);
  ld_todos :
    ∃ gt, graph_todos st = Some gt
          ∧ Forall (λ id, ∃ rec x, rec ∈ done ∧ heap st !! id = Some x
                                   ∧ loaded_as rec x) gt;
}.
End Records.

(** ** File names and file types

    [to_file] and [from_file] first decide, from the file name and the
    requested file types, which files are written or read and in which
    format; only then do they touch the file system.  The decisions are
    embedded here as functions of the arguments; of the file system they
    need [os.path.exists] alone. *)

(** [ExcelCompiler.save_file_extensions] *)
Definition save_file_extensions : list string :=
  ["pkl"; "pickle"; "yml"; "yaml"; "json"].

(** [ExcelCompiler._filename_has_extension] *)
Definition _filename_has_extension (filename : string) : option string :=
  List.find (λ extension, endswith filename extension) save_file_extensions.

(** The [file_types] argument of [to_file]: a string or a tuple of
    strings. *)
Inductive file_types_arg : Type :=
  | FTStr (ft : string)
  | FTSeq (fts : list string).

(** Membership of a string in a tuple of strings ([ft in file_types]). *)
Definition str_in (x : string) (l : list string) : bool :=
  existsb (String.eqb x) l.

(** [x or y] for strings that may be [None] *)
Definition str_or (x : option string) (y : string) : string :=
  match x with
  | Some (String c r) => String c r
  | _ => y
  end.

(** [repr] of a tuple of strings that need no escaping (the known file
    types): [('yaml',)], [('yaml', 'json')]. *)
Definition repr_tuple (l : list string) : string :=
  let quoted := map (λ s, "'" +:+ s +:+ "'") l in
  match quoted with
  | [q] => "(" +:+ q +:+ ",)"
  | _ => "(" +:+ String.concat ", " quoted +:+ ")"
  end.

(** What [to_file] has decided when it starts to write: the name and the
    format of the text file, and, when a pickle is asked for, the name of
    the pickle file and whether the text file is removed once the pickle
    has been made from it. *)
Record to_file_plan : Type := {
  tf_text_name : string;
  tf_is_json : bool;
  tf_pickle : option (string * bool);
}.

(** [ExcelCompiler.to_file], the decisions: [self_filename] is
    [self.filename], [filename] the argument ([None] by default). *)
Definition to_file_decide (self_filename : string) (filename : option string)
           (file_types : file_types_arg) : res to_file_plan :=
  let filename := str_or filename self_filename in
  let extension := _filename_has_extension filename in
  let file_types :=
    match extension with
    | Some (String c r) => [String c r]
    | _ => match file_types with
           | FTStr ft => [ft]
           | FTSeq fts => fts
           end
    end in
  let unknown_types :=
    List.filter (λ ft, negb (str_in ft save_file_extensions)) file_types in
  match unknown_types with
  | _ :: _ =>
      Raise (ValueError ("Unknown file types: "
                         +:+ String.concat " " unknown_types))
  | [] =>
      let pickle_extension :=
        List.find (λ ft, startswith ft "p") file_types in
      let non_pickle_extension :=
        List.find (λ ft, negb (startswith ft "p")) file_types in
      let extra_extensions :=
        List.filter (λ ft, negb (str_in ft (option_list pickle_extension
                                            ++ option_list non_pickle_extension)))
                    file_types in
      match extra_extensions with
      | _ :: _ =>
          Raise (ValueError
                   ("Only allowed one pickle extension and one text extension. "
                    +:+ "Extras: " +:+ repr_tuple extra_extensions))
      | [] =>
          let is_json :=
            match non_pickle_extension with
            | Some (String c _) => Ascii.eqb c (Ascii.ascii_of_nat 106)
            | _ => false
            end in
          (* round trip through yaml/json to strip out junk *)
          let text_name :=
            if negb (endswith filename (str_or non_pickle_extension ".yml"))
            then filename +:+ "." +:+ str_or non_pickle_extension "yml"
            else filename in
          Ok {| tf_text_name := text_name;
                tf_is_json := is_json;
                tf_pickle :=
                  match pickle_extension with
                  | Some (String c r) =>
                      let pickle_extension := String c r in
                      Some (if negb (endswith filename pickle_extension)
                            then filename +:+ "." +:+ pickle_extension
                            else filename,
                            match non_pickle_extension with
                            | Some e => negb (str_in e file_types)
                            | None => true
                            end)
                  | _ => None
                  end |}
      end
  end.

(** What [from_file] loads: a pickle, or a text file in YAML or JSON. *)
Inductive from_file_plan : Type :=
  | LoadPickle (filename : string)
  | LoadText (filename : string) (is_json : bool).

(** [ExcelCompiler.from_file], the decisions; [path_exists] is
    [os.path.exists]. *)
Definition from_file_decide (path_exists : string → bool) (filename : string)
  : res from_file_plan :=
  let extension :=
    match _filename_has_extension filename with
    | Some (String c r) => Some (String c r)
    | _ => List.find (λ ext, path_exists (filename +:+ "." +:+ ext))
                     save_file_extensions
    end in
  match extension with
  | Some (String c r) =>
      let extension := String c r in
      let filename :=
        if negb (endswith filename extension)
        then filename +:+ "." +:+ extension else filename in
      if Ascii.eqb c (Ascii.ascii_of_nat 112) then Ok (LoadPickle filename)
      else Ok (LoadText filename (String.eqb extension "json"))
  | _ =>
      Raise (ValueError ("Unrecognized file type or compiled file not found"
                         +:+ ": '" +:+ filename +:+ "'"))
  end.

(** The name of the file [_from_text] opens for a given name. *)
Definition text_file_name (filename : string) (is_json : bool) : string :=
  if is_json then
    if endswith filename ".json" then filename else filename +:+ ".json"
  else
    if startswith (after_last_dot filename) "y" then filename
    else filename +:+ ".yml".

(** [ExcelCompiler.hash_matches]: [current] is the digest of the file
    named [self.filename] now ([None] when there is no such file). *)
Definition hash_matches (s : state) (current : value) : bool :=
  value_eqb (excel_file_md5_digest s) current.

(** ** More vocabulary *)

(** no node waits to be connected to its precedents *)
Definition drained (s : state) : Prop :=
  match graph_todos s with
  | Some (_ :: _) => False
  | _ => True
  end.

(** a method that, when it returns, has kept [P] *)
Definition on_ok (P : state → Prop) {A} (m : M A) : Prop :=
  ∀ s a s', m s = (Ok a, s') → P s → P s'.

(** a method that, when it returns, has established [P] *)
Definition establishes (P : state → Prop) {A} (m : M A) : Prop :=
  ∀ s a s', m s = (Ok a, s') → P s'.

(** the work queue of the builder is what it was *)
Definition same_todos (s s' : state) : Prop := graph_todos s' = graph_todos s.

(** the address map is what it was *)
Definition same_map (s s' : state) : Prop := cell_map s' = cell_map s.

(** the order of the sort keys, on addresses *)
Definition key_le `{AA : AddressAlgebra} (a b : string) : Prop :=
  sort_key_le (canon a) (canon b) = true.

(** addresses in the order of their sort keys *)
Fixpoint key_sorted `{AA : AddressAlgebra} (l : list string) : Prop :=
  match l with
  | [] => True
  | a :: l' => Forall (key_le a) l' ∧ key_sorted l'
  end.

(** ** More of the small workbook *)

Module Demo2.

(** a compiler that has lost its data source: the built demo compiler,
    pickled and loaded again *)
Definition unpickled : state :=
  __setstate__ (__getstate__ Demo.built) Demo.world0.

(** the compiler with the node of [S!C1], before the node is connected *)
Definition made_C1 : state := Demo.after (_make_cells "S!C1") Demo.fresh.

(** a compiler with the range [S!A1:A2] over the cells [S!A1 = 1] and
    [S!A2 = 2]; the range has no value yet *)
Definition with_range : state :=
  {| eval := None; excel := None; filename := "book.xlsx";
     excel_file_md5_digest := VNone; log := Some tt;
     dep_graph := {| dg_nodes := [2; 0; 1]; dg_edges := [(0, 2); (1, 2)] |};
     cell_map := [("S!A1", 0); ("S!A2", 1); ("S!A1:A2", 2)];
     graph_todos := Some []; range_todos := Some [];
     extra_data := None;
     heap := [NCell {| c_address := "S!A1"; c_value := VNum 1;
                       c_formula := None; c_id := 1 |};
              NCell {| c_address := "S!A2"; c_value := VNum 2;
                       c_formula := None; c_id := 2 |};
              NRange {| r_address := "S!A1:A2";
                        r_addresses := [["S!A1"]; ["S!A2"]];
                        r_value := VNone |}];
     ctr := 2; logged := []; runs := [] |}.

(** an address algebra in which [S!A:A] is an unbounded range *)
Definition columns_AA : AddressAlgebra := {|
  canon := id;
  is_range := contains_char Demo.colon;
  is_bounded_range a :=
    contains_char Demo.colon a && negb (String.eqb a "S!A:A");
  has_sheet := contains_char Demo.bang;
  with_sheet a sheet := sheet +:+ "!" +:+ a;
  resolve_range a :=
    if String.eqb a "S!A1:A2" then [["S!A1"]; ["S!A2"]] else [];
  sort_key_le := String.leb;
|}.

(** the records of a saved document in which the column [S!A:A] stands
    for the range [S!A1:A2] *)
Definition column_records : list (string * value) :=
  [("S!A1", VNum 1); ("S!A2", VNum 2); ("S!A:A", VStr (REF_FORMAT "S!A1:A2"))].

(** the compiler [Demo.with_G1] after the build step of
    [trim_graph(['S!A1'], ['S!C1'])] *)
Definition rebuilt_G1 : state :=
  Demo.after (_gen_graph 20 (SeedIter [SeedAddr "S!C1"]) false) Demo.with_G1.

(** the document [_to_text] writes for the built demo compiler *)
Definition saved : list (string * document_item) := (_to_text Demo.built).1.

(** and the compiler [_from_text] makes of it *)
Definition reloaded : state :=
  Demo.after (_from_text 5 "book.xlsx.yml" false saved VNone) Demo.world0.

End Demo2.

(** ** Dependants in the graph *)

(** [w] depends on [u]: an edge, or a path of edges, leads from [u] to
    [w] *)
Inductive reach (g : DiGraph) : nat → nat → Prop :=
  | reach_edge (u w : nat) : (u, w) ∈ dg_edges g → reach g u w
  | reach_path (u v w : nat) :
      (u, v) ∈ dg_edges g → reach g v w → reach g u w.

(** a node some edge leads to *)
Definition is_target (g : DiGraph) (w : nat) : Prop :=
  ∃ u, (u, w) ∈ dg_edges g.

(** the object [w] exists and its address is among [N] *)
Definition marked (hp : list node) (N : gset string) (w : nat) : Prop :=
  ∃ z, hp !! w = Some z ∧ node_address z ∈ N.

(** Of every marked node that is not being walked (not in [S]), the
    successors are marked. *)
Definition closed_marks (hp : list node) (g : DiGraph) (N : gset string)
           (S : gset nat) : Prop :=
  ∀ u, is_target g u → marked hp N u → u ∉ S →
       ∀ w, (u, w) ∈ dg_edges g → marked hp N w.

(** no two nodes that edges lead to have the same address *)
Definition targets_distinct (hp : list node) (g : DiGraph) : Prop :=
  ∀ u w x y, is_target g u → is_target g w →
             hp !! u = Some x → hp !! w = Some y →
             node_address x = node_address y → u = w.

(** the edges lead to nodes of the graph *)
Definition edges_end_at_nodes (g : DiGraph) : Prop :=
  ∀ u w, (u, w) ∈ dg_edges g → nat_mem w (dg_nodes g) = true.

(** the graph, the objects and the address map are what they were *)
Definition same_graph (s s' : state) : Prop :=
  dep_graph s' = dep_graph s ∧ heap s' = heap s ∧ cell_map s' = cell_map s.

(** * Properties *)

(** ** Values and dictionaries *)

Lemma value_eqb_refl (v : value) : value_eqb v v = true.
Proof.
  revert v. fix IH 1. intros [| z | s | l | a]; simpl.
  - reflexivity.
  - apply Z.eqb_refl.
  - apply String.eqb_refl.
  - induction l as [| x l IHl]; [reflexivity |].
    rewrite (IH x). exact IHl.
  - apply String.eqb_refl.
Qed.

Lemma value_eqb_eq (v w : value) : value_eqb v w = true → v = w.
Proof.
  revert v w. fix IH 1.
  intros [| z | s | l | a] [| z' | s' | l' | a']; simpl; try discriminate.
  - reflexivity.
  - intros H. apply Z.eqb_eq in H. congruence.
  - intros H. apply String.eqb_eq in H. congruence.
  - revert l'. induction l as [| x l IHl]; intros [| y l']; try discriminate; try reflexivity.
    intros H. apply andb_prop in H as [H1 H2].
    apply IH in H1. apply IHl in H2. congruence.
  - intros H. apply String.eqb_eq in H. congruence.
Qed.

Lemma value_eqb_neq (v w : value) : value_eqb v w = false ↔ v ≠ w.
Proof.
  split.
  - intros H ->. rewrite value_eqb_refl in H. discriminate.
  - intros H. destruct (value_eqb v w) eqn:E; [| reflexivity].
    apply value_eqb_eq in E. contradiction.
Qed.

Section DictFacts.
Context {V : Type}.
Implicit Types (d : list (string * V)) (k : string).

Lemma dict_get_set_eq d k v : dict_get (dict_set d k v) k = Some v.
Proof.
  induction d as [| [k' v'] d IH]; simpl.
  - by rewrite String.eqb_refl.
  - destruct (String.eqb k' k) eqn:E; simpl; rewrite E; auto.
Qed.

Lemma dict_get_set_ne d k k' v :
  k ≠ k' → dict_get (dict_set d k v) k' = dict_get d k'.
Proof.
  intros Hne. induction d as [| [k0 v0] d IH]; simpl.
  - destruct (String.eqb k k') eqn:E; [| done].
    apply String.eqb_eq in E. contradiction.
  - destruct (String.eqb k0 k) eqn:E; simpl.
    + apply String.eqb_eq in E. subst k0.
      destruct (String.eqb k k') eqn:E'; [| done].
      apply String.eqb_eq in E'. contradiction.
    + by rewrite IH.
Qed.

Lemma dict_get_del_ne d k k' :
  k ≠ k' → dict_get (dict_del d k) k' = dict_get d k'.
Proof.
  intros Hne. induction d as [| [k0 v0] d IH]; simpl; [done |].
  destruct (String.eqb k0 k) eqn:E; simpl.
  - apply String.eqb_eq in E. subst k0.
    destruct (String.eqb k k') eqn:E'; [| done].
    apply String.eqb_eq in E'. contradiction.
  - by rewrite IH.
Qed.

Lemma dict_mem_true d k : dict_mem d k = true ↔ is_Some (dict_get d k).
Proof.
  unfold dict_mem. destruct (dict_get d k); split; intros H; done.
Qed.

Lemma dict_mem_false d k : dict_mem d k = false ↔ dict_get d k = None.
Proof. unfold dict_mem. by destruct (dict_get d k). Qed.
End DictFacts.

(** ** The monad *)

Lemma bind_Ok {A B} (m : M A) (f : A → M B) s a s' :
  m s = (Ok a, s') → bind m f s = f a s'.
Proof. unfold bind. by intros ->. Qed.

Lemma bind_inv {A B} (m : M A) (f : A → M B) s r s'' :
  bind m f s = (r, s'') →
  (∃ a s', m s = (Ok a, s') ∧ f a s' = (r, s''))
  ∨ (∃ e, m s = (Raise e, s'') ∧ r = Raise e)
  ∨ (m s = (OutOfFuel, s'') ∧ r = OutOfFuel).
Proof.
  unfold bind. destruct (m s) as [[a | e |] s'] eqn:E; intros H.
  - left. eauto.
  - right. left. inversion H. eauto.
  - right. right. inversion H. eauto.
Qed.

Lemma bind_assoc {A B C} (m : M A) (f : A → M B) (g : B → M C) s :
  bind (bind m f) g s = bind m (λ a, bind (f a) g) s.
Proof. unfold bind. by destruct (m s) as [[a | e |] s']. Qed.

Lemma lookup_cell_map_Some (k : string) (id : nat) (s : state) :
  dict_get (cell_map s) k = Some id → lookup_cell_map k s = (Ok id, s).
Proof. unfold lookup_cell_map. by intros ->. Qed.

Lemma get_node_Some (id : nat) (x : node) (s : state) :
  heap s !! id = Some x → get_node id s = (Ok x, s).
Proof. unfold get_node. by intros ->. Qed.

Lemma log_call_Some (lvl : log_level) (msg : string) (args : list value)
      (s : state) :
  log s = Some tt →
  log_call lvl msg args s
  = (Ok tt, set_logged (logged s ++ [{| lr_level := lvl; lr_msg := msg;
                                         lr_args := args |}]) s).
Proof. unfold log_call. by intros ->. Qed.

Lemma set_node_value_Some (id : nat) (x : node) (v : value) (s : state) :
  heap s !! id = Some x →
  set_node_value id v s
  = (Ok tt, set_heap (<[id := node_set_value x v]> (heap s)) s).
Proof.
  intros H. unfold set_node_value. by rewrite (bind_Ok _ _ _ _ _ (get_node_Some _ _ _ H)).
Qed.

(** one step of a method whose first call is known *)
Ltac bind_ok H := rewrite (bind_Ok _ _ _ _ _ H); cbv beta.

(** ** Relations that every step of a method maintains *)

Section Pres.
Context (R : state → state → Prop).
Context (Rrefl : ∀ s, R s s) (Rtrans : ∀ a b c, R a b → R b c → R a c).

Lemma pres_bind {A B} (m : M A) (f : A → M B) :
  pres R m → (∀ a, pres R (f a)) → pres R (bind m f).
Proof using Rtrans.
  intros Hm Hf s. unfold bind. specialize (Hm s).
  destruct (m s) as [[a | e |] s']; simpl in *; try done.
  apply (Rtrans _ s'); [done | apply Hf].
Qed.

Lemma pres_reader {A} (m : M A) : (∀ s, (m s).2 = s) → pres R m.
Proof using Rrefl. intros H s. rewrite H. apply Rrefl. Qed.

Lemma pres_ret {A} (a : A) : pres R (ret a).
Proof using Rrefl. by apply pres_reader. Qed.

Lemma pres_raise {A} (e : exn) : pres R (@raise A e).
Proof using Rrefl. by apply pres_reader. Qed.

Lemma pres_out_of_fuel {A} : pres R (@out_of_fuel A).
Proof using Rrefl. by apply pres_reader. Qed.

Lemma pres_get_state : pres R get_state.
Proof using Rrefl. by apply pres_reader. Qed.

Lemma pres_lookup_cell_map (k : string) : pres R (lookup_cell_map k).
Proof using Rrefl.
  apply pres_reader. intros s. unfold lookup_cell_map. by destruct (dict_get _ _).
Qed.

Lemma pres_get_node (id : nat) : pres R (get_node id).
Proof using Rrefl.
  apply pres_reader. intros s. unfold get_node. by destruct (_ !! _).
Qed.

Lemma pres_bind_at {A B} (m : M A) (f : A → M B) (s : state) :
  R s (m s).2 → (∀ a, pres R (f a)) → R s (bind m f s).2.
Proof using Rtrans.
  intros Hm Hf. unfold bind.
  destruct (m s) as [[a | e |] s']; simpl in *; try done.
  apply (Rtrans _ s'); [done | apply Hf].
Qed.

Lemma pres_bind_get_node {B} (id : nat) (f : node → M B) :
  (∀ y s, heap s !! id = Some y → R s (f y s).2) →
  pres R (bind (get_node id) f).
Proof using Rrefl.
  intros Hf s. unfold bind, get_node.
  destruct (heap s !! id) as [y |] eqn:Hy; [by apply Hf | apply Rrefl].
Qed.

Lemma pres_for_each {A} (l : list A) (f : A → M unit) :
  (∀ x, pres R (f x)) → pres R (for_each l f).
Proof using Rrefl Rtrans.
  intros Hf. induction l as [| x l IH]; simpl.
  - apply pres_ret.
  - apply pres_bind; auto.
Qed.
End Pres.

Section Proofs.
Context `{AA : AddressAlgebra} `{FE : FormulaFrontEnd}.

(** ** Pickling (C9) *)

(** C9, as amended: [__getstate__] sets the data source, the evaluation
    context, the logger and both work queues to [None] and leaves the
    other attributes alone; after [__setstate__] the logger is there
    again, while the data source, the evaluation context and both work
    queues are still [None] (not empty lists), and the address map, the
    graph and the objects are those that were pickled. *)
Theorem pickle_drops_handles_and_restores_logger (s w : state) :
  let d := __getstate__ s in
  let s' := __setstate__ d w in
  (excel d = None ∧ eval d = None ∧ log d = None
   ∧ graph_todos d = None ∧ range_todos d = None)
  ∧ (cell_map d = cell_map s ∧ dep_graph d = dep_graph s
     ∧ filename d = filename s ∧ extra_data d = extra_data s
     ∧ excel_file_md5_digest d = excel_file_md5_digest s)
  ∧ log s' = Some tt
  ∧ (excel s' = None ∧ eval s' = None
     ∧ graph_todos s' = None ∧ range_todos s' = None)
  ∧ (cell_map s' = cell_map s ∧ dep_graph s' = dep_graph s
     ∧ heap s' = heap s ∧ extra_data s' = extra_data s).
Proof. cbn. repeat split. Qed.

(** ** The graph builder on a seed that has its node (C5) *)

(** C5: when the seed's address (for a seed without a sheet, the address
    on the active sheet, which the builder asks the data source for) has
    a node in the address map, [_gen_graph] returns at once and the state
    it leaves is the state it was given: the graph's nodes and edges and
    the address map are unchanged. *)
Theorem gen_graph_existing_seed_noop (n : nat) (seed : seed_t)
        (recursed : bool) (s : state) (a : string) :
  (seed = SeedAddr a ∨ ∃ str, seed = SeedStr str ∧ canon str = a) →
  (has_sheet a = true ∧ dict_mem (cell_map s) a = true)
  ∨ (has_sheet a = false
     ∧ ∃ xl sheet, excel s = Some xl ∧ get_active_sheet_name xl = Ok sheet
                   ∧ dict_mem (cell_map s) (with_sheet a sheet) = true) →
  _gen_graph (S n) seed recursed s = (Ok tt, s).
Proof.
  intros Hseed Hnode.
  assert (Hstep : _gen_graph (S n) seed recursed s =
    (seed' <- (if has_sheet a then ret a
               else xl <- get_excel ;;
                    sheet <- lift_res (get_active_sheet_name xl) ;;
                    ret (with_sheet a sheet)) ;;
     s1 <- get_state ;;
     if dict_mem (cell_map s1) seed' then ret tt
     else _make_cells seed' ;;
          if recursed then ret tt else _process_gen_graph n) s).
  { destruct Hseed as [-> | (str & -> & <-)]; reflexivity. }
  rewrite Hstep. clear Hstep.
  destruct Hnode as [[Hsheet Hin] | (Hsheet & xl & sheet & Hxl & Hact & Hin)];
    rewrite Hsheet; unfold bind, ret, get_state, get_excel, lift_res; cbn.
  - by rewrite Hin.
  - rewrite Hxl, Hact. by rewrite Hin.
Qed.
(** ** Building and evaluating only extend the state *)

Lemma node_value_set (x : node) (v : value) :
  node_value (node_set_value x v) = v.
Proof. by destruct x. Qed.

Lemma node_set_value_id (x : node) : node_set_value x (node_value x) = x.
Proof. by destruct x as [[]|[]]. Qed.

Lemma node_set_value_twice (x : node) (v w : value) :
  node_set_value (node_set_value x v) w = node_set_value x w.
Proof. by destruct x. Qed.

Lemma ext_refl (s : state) : ext s s.
Proof.
  split; auto.
  intros id x Hx. exists x. by rewrite node_set_value_id.
Qed.

Lemma ext_trans (s1 s2 s3 : state) : ext s1 s2 → ext s2 s3 → ext s1 s3.
Proof.
  intros E1 E2. split.
  - by rewrite (ex_excel _ _ E2), (ex_excel _ _ E1).
  - by rewrite (ex_log _ _ E2), (ex_log _ _ E1).
  - intros id x Hx.
    destruct (ex_heap _ _ E1 _ _ Hx) as (x2 & H2 & Hs2 & Hv2 & Hc2).
    destruct (ex_heap _ _ E2 _ _ H2) as (x3 & H3 & Hs3 & Hv3 & Hc3).
    exists x3. split; [done |]. split; [| split].
    + rewrite Hs3 at 1. rewrite Hs2. by rewrite node_set_value_twice.
    + intros Hv. rewrite (Hv2 Hv) in *. by apply Hv3.
    + intros Hr Hc. rewrite (Hc2 Hr Hc) in *. by apply Hc3.
  - etrans; [apply (ex_nodes _ _ E1) | apply (ex_nodes _ _ E2)].
  - etrans; [apply (ex_edges _ _ E1) | apply (ex_edges _ _ E2)].
  - etrans; [apply (ex_runs _ _ E1) | apply (ex_runs _ _ E2)].
  - intros Hrf k id Hk. apply (ex_map _ _ E2).
    + by rewrite (ex_excel _ _ E1).
    + by apply (ex_map _ _ E1).
Qed.

Lemma mono_mono_from {A} (m : M A) (s0 : state) : mono m → mono_from s0 m.
Proof. intros H s E. by apply (ext_trans _ s). Qed.

Lemma mono_from_here {A} (m : M A) (s0 : state) :
  mono_from s0 m → ext s0 (m s0).2.
Proof. intros H. apply H, ext_refl. Qed.

Lemma mono_from_bind {A B} (s0 : state) (m : M A) (f : A → M B) :
  mono_from s0 m → (∀ a, mono_from s0 (f a)) → mono_from s0 (bind m f).
Proof.
  intros Hm Hf s E. unfold bind. specialize (Hm s E).
  destruct (m s) as [[a | e |] s']; simpl in *; try done. by apply Hf.
Qed.

Lemma mono_bind {A B} (m : M A) (f : A → M B) :
  mono m → (∀ a, mono (f a)) → mono (bind m f).
Proof.
  intros Hm Hf s. apply mono_from_here, mono_from_bind.
  - by apply mono_mono_from.
  - intros a. by apply mono_mono_from.
Qed.

Lemma mono_ret {A} (a : A) : mono (ret a).
Proof. intros s. apply ext_refl. Qed.

Lemma mono_raise {A} (e : exn) : mono (@raise A e).
Proof. intros s. apply ext_refl. Qed.

Lemma mono_out_of_fuel {A} : mono (@out_of_fuel A).
Proof. intros s. apply ext_refl. Qed.

Lemma mono_get_state : mono get_state.
Proof. intros s. apply ext_refl. Qed.

Lemma mono_lift_res {A} (r : res A) : mono (lift_res r).
Proof. intros s. apply ext_refl. Qed.

Lemma mono_assert (b : bool) : mono (assert b).
Proof. destruct b; [apply mono_ret | apply mono_raise]. Qed.

Lemma mono_lookup_cell_map (k : string) : mono (lookup_cell_map k).
Proof. intros s. unfold lookup_cell_map. destruct (dict_get _ _); apply ext_refl. Qed.

Lemma mono_get_node (id : nat) : mono (get_node id).
Proof. intros s. unfold get_node. destruct (_ !! _); apply ext_refl. Qed.

Lemma mono_get_excel : mono get_excel.
Proof. intros s. unfold get_excel. destruct (excel s); apply ext_refl. Qed.

Lemma mono_for_each {A} (l : list A) (f : A → M unit) :
  (∀ x, mono (f x)) → mono (for_each l f).
Proof.
  intros Hf. induction l as [| x l IH]; simpl.
  - apply mono_ret.
  - apply mono_bind; auto.
Qed.

Lemma mono_map_M {A B} (l : list A) (f : A → M B) :
  (∀ x, mono (f x)) → mono (map_M l f).
Proof.
  intros Hf. induction l as [| x l IH]; simpl.
  - apply mono_ret.
  - apply mono_bind; [done |]. intros y. apply mono_bind; [done |].
    intros ys. apply mono_ret.
Qed.

Lemma mono_from_for_each {A} (s0 : state) (l : list A) (f : A → M unit) :
  (∀ x, mono_from s0 (f x)) → mono_from s0 (for_each l f).
Proof.
  intros Hf. induction l as [| x l IH]; simpl.
  - apply mono_mono_from, mono_ret.
  - apply mono_from_bind; auto.
Qed.

(** the state changes that touch neither the objects nor the address map *)
Lemma ext_same_heap_map (s s' : state) :
  excel s' = excel s → log s' = log s → heap s' = heap s →
  cell_map s' = cell_map s →
  dg_nodes (dep_graph s) ⊆ dg_nodes (dep_graph s') →
  dg_edges (dep_graph s) ⊆ dg_edges (dep_graph s') →
  runs s `prefix_of` runs s' →
  ext s s'.
Proof.
  intros He Hl Hh Hm Hn Hed Hr. split; auto.
  - intros id x Hx. exists x. rewrite Hh. by rewrite node_set_value_id.
  - intros _ k id. by rewrite Hm.
Qed.

Lemma mono_log_call (lvl : log_level) (msg : string) (args : list value) :
  mono (log_call lvl msg args).
Proof.
  intros s. unfold log_call. destruct (log s); [| apply ext_refl].
  by apply ext_same_heap_map.
Qed.

Lemma mono_modify_simple (f : state → state) :
  (∀ s, excel (f s) = excel s ∧ log (f s) = log s ∧ heap (f s) = heap s
        ∧ cell_map (f s) = cell_map s
        ∧ dg_nodes (dep_graph s) ⊆ dg_nodes (dep_graph (f s))
        ∧ dg_edges (dep_graph s) ⊆ dg_edges (dep_graph (f s))
        ∧ runs s `prefix_of` runs (f s)) →
  mono (modify f).
Proof.
  intros H s. destruct (H s) as (? & ? & ? & ? & ? & ? & ?).
  by apply ext_same_heap_map.
Qed.

Lemma add_node_nodes (g : DiGraph) (n : nat) :
  dg_nodes g ⊆ dg_nodes (add_node g n) ∧ dg_edges (add_node g n) = dg_edges g.
Proof.
  unfold add_node. destruct (nat_mem n (dg_nodes g)); simpl; split; try done.
  intros x Hx. apply elem_of_app. by left.
Qed.

Lemma add_edge_grows (g : DiGraph) (u v : nat) :
  dg_nodes g ⊆ dg_nodes (add_edge g u v)
  ∧ dg_edges g ⊆ dg_edges (add_edge g u v).
Proof.
  unfold add_edge.
  destruct (add_node_nodes g u) as [Hn1 He1].
  destruct (add_node_nodes (add_node g u) v) as [Hn2 He2].
  destruct (edge_mem _ _); simpl; split.
  - by etrans.
  - by rewrite He2, He1.
  - by etrans.
  - rewrite He2, He1. intros x Hx. apply elem_of_app. by left.
Qed.

Lemma ext_alloc (s s' : state) (new : list node) :
  excel s' = excel s → log s' = log s → heap s' = heap s ++ new →
  dg_nodes (dep_graph s) ⊆ dg_nodes (dep_graph s') →
  dg_edges (dep_graph s) ⊆ dg_edges (dep_graph s') →
  runs s `prefix_of` runs s' →
  (redirect_free (excel s) →
   ∀ k id, dict_get (cell_map s) k = Some id →
           dict_get (cell_map s') k = Some id) →
  ext s s'.
Proof.
  intros He Hl Hh Hn Hed Hr Hm. split; auto.
  intros id x Hx. exists x. rewrite Hh. split.
  - by apply lookup_app_l_Some.
  - by rewrite node_set_value_id.
Qed.

Lemma ext_bind_here {A B} (s0 : state) (m : M A) (f : A → M B) :
  ext s0 (m s0).2 → (∀ a, mono (f a)) → ext s0 (bind m f s0).2.
Proof.
  intros Hm Hf. unfold bind. destruct (m s0) as [[a | e |] s']; simpl in *;
    try done.
  apply (ext_trans _ s'); [done | apply Hf].
Qed.

Lemma mono_new_node (x : node) : mono (new_node x).
Proof. intros s. by apply (ext_alloc _ _ [x]). Qed.

Lemma mono_new_Cell (a : string) (v : value) (f : string)
      (xl : option datasource) : mono (new_Cell a v f xl).
Proof.
  unfold new_Cell. apply mono_bind; [apply mono_get_state |]. intros s0.
  apply mono_bind; [| intros _; apply mono_new_node].
  by apply mono_modify_simple.
Qed.

Lemma mono_new_CellRange (a : string) : mono (new_CellRange a).
Proof.
  unfold new_CellRange. apply mono_bind; [| intros _; apply mono_new_node].
  destruct (has_sheet a); [apply mono_ret | apply mono_raise].
Qed.

Lemma mono_add_node_to_graph (id : nat) : mono (add_node_to_graph id).
Proof.
  unfold add_node_to_graph. apply mono_bind.
  - apply mono_modify_simple. intros s. cbn.
    destruct (add_node_nodes (dep_graph s) id) as [Hn He].
    repeat split; try done. by rewrite He.
  - intros _. apply mono_bind; [apply mono_get_state |]. intros s.
    destruct (graph_todos s); [| apply mono_raise].
    by apply mono_modify_simple.
Qed.

Lemma ext_cells_refl (s : state) : ext_cells s s.
Proof. split; [apply ext_refl | done]. Qed.

Lemma ext_cells_trans (s1 s2 s3 : state) :
  ext_cells s1 s2 → ext_cells s2 s3 → ext_cells s1 s3.
Proof.
  intros [E1 K1] [E2 K2]. split; [by apply (ext_trans _ s2) |].
  intros k Hk. by rewrite K2, K1.
Qed.

(** creating a cell and giving it an address that has no node yet *)
Lemma ext_new_bound_cell (s : state) (a : string) (v : value) (f : string)
      (xl : option datasource) :
  (redirect_free (excel s) → dict_get (cell_map s) a = None) →
  ext s ((a_cell <- new_Cell a v f xl ;; cell_map_set a a_cell) s).2
  ∧ ∀ k, k ≠ a →
      dict_get (cell_map ((a_cell <- new_Cell a v f xl ;;
                           cell_map_set a a_cell) s).2) k
      = dict_get (cell_map s) k.
Proof.
  intros Hfresh. cbn. split.
  - apply (ext_alloc _ _ [NCell {| c_address := a; c_value := v;
      c_formula := if String.eqb f EmptyString then None
                   else Some (compile_formula
                                match xl with
                                | Some e => is_compiled_importer e
                                | None => true
                                end f);
      c_id := S (ctr s) |}]); try done.
    intros Hrf k id Hk. cbn. rewrite dict_get_set_ne; [done |].
    intros ->. rewrite (Hfresh Hrf) in Hk. discriminate.
  - intros k Hk. by rewrite dict_get_set_ne.
Qed.

Lemma build_range_member (ca f : string) (v : value) (s : state) :
  ext_cells s
    ((assert (negb (is_range ca)) ;;
      s <- get_state ;;
      if dict_mem (cell_map s) ca then ret []
      else if String.eqb f EmptyString && is_None v then ret []
      else a_cell <- new_Cell ca v f (excel s) ;;
           cell_map_set ca a_cell ;;
           ret [a_cell]) s).2.
Proof.
  destruct (is_range ca) eqn:Hr; [apply ext_cells_refl |].
  cbn [negb assert]. unfold bind at 1. unfold ret at 1.
  unfold bind at 1. unfold get_state at 1.
  destruct (dict_mem (cell_map s) ca) eqn:Hmem; [apply ext_cells_refl |].
  destruct (String.eqb f EmptyString && is_None v); [apply ext_cells_refl |].
  apply dict_mem_false in Hmem.
  destruct (ext_new_bound_cell s ca v f (excel s) (λ _, Hmem)) as [E K].
  cbn in E, K |- *. split; [exact E |].
  intros k Hk. apply K. intros ->. congruence.
Qed.

Lemma mono_cells_map_M {A B} (l : list A) (f : A → M B) :
  (∀ x s, ext_cells s (f x s).2) → ∀ s, ext_cells s (map_M l f s).2.
Proof.
  intros Hf. induction l as [| x l IH]; intros s; simpl.
  - apply ext_cells_refl.
  - unfold bind at 1. specialize (Hf x s).
    destruct (f x s) as [[y | e |] s1]; simpl in *; try done.
    unfold bind at 1. specialize (IH s1).
    destruct (map_M l f s1) as [[ys | e |] s2]; simpl in *;
      by apply (ext_cells_trans _ s1).
Qed.

Lemma ext_build_range (d : RangeData) (s : state) :
  (redirect_free (excel s) →
   is_range (rd_address d) = true
   ∧ dict_get (cell_map s) (rd_address d) = None) →
  ext s (build_range d s).2.
Proof.
  intros Hpre. destruct d as [a f v | a fs vs]; [apply ext_refl |].
  cbn [build_range rd_address] in *.
  unfold bind at 1. pose proof (mono_new_CellRange a s) as E1.
  destruct (new_CellRange a s) as [[a_range | e |] s1] eqn:Hnew; simpl in E1;
    try done.
  assert (Hmap1 : cell_map s1 = cell_map s).
  { unfold new_CellRange in Hnew. destruct (has_sheet a); cbn in Hnew;
      inversion Hnew; done. }
  unfold bind at 1.
  match goal with
  | |- context [map_M ?l ?g s1] =>
      pose proof (mono_cells_map_M l g) as Hloop
  end.
  match type of Hloop with
  | ?P → _ => assert (HP : P)
  end.
  { intros [ca [f v]] s'. apply build_range_member. }
  specialize (Hloop HP s1). clear HP.
  match goal with
  | |- context [map_M ?l ?g s1] => destruct (map_M l g s1) as [[added | e |] s2]
  end; simpl in Hloop; destruct Hloop as [E2 K2];
    try (by apply (ext_trans _ s1)).
  cbn. apply (ext_trans _ s1); [done |]. apply (ext_trans _ s2); [done |].
  apply (ext_alloc _ _ []); try done.
  - by rewrite app_nil_r.
  - cbn. intros Hrf k id Hk.
    assert (Hrf0 : redirect_free (excel s)).
    { by rewrite <- (ex_excel _ _ E1), <- (ex_excel _ _ E2). }
    destruct (Hpre Hrf0) as [Hr Habs].
    rewrite dict_get_set_ne; [done |]. intros ->.
    rewrite (K2 _ Hr), Hmap1, Habs in Hk. discriminate.
Qed.

Lemma mono_make_cells (address : string) : mono (_make_cells address).
Proof.
  intros s. unfold _make_cells.
  unfold bind at 1. unfold get_state at 1.
  destruct (dict_mem (cell_map s) address) eqn:Hmem; [apply ext_refl |].
  apply dict_mem_false in Hmem.
  cbn [negb assert]. unfold bind at 1. unfold ret at 1.
  unfold bind at 1. unfold get_excel at 1.
  destruct (excel s) as [xl |] eqn:Hxl; [| apply ext_refl].
  unfold bind at 1. unfold lift_res at 1.
  destruct (get_range xl address) as [d | e |] eqn:Hd; try apply ext_refl.
  apply ext_bind_here.
  2:{ intros new_nodes. apply mono_for_each. intros id.
      apply mono_bind; [apply mono_get_node |]. intros x.
      destruct (is_CellRange x || has_formula x);
        [apply mono_add_node_to_graph | apply mono_ret]. }
  destruct (is_range address) eqn:Hr.
  - (* a range *)
    assert (Href : ∃ s1,
      ((if negb (String.eqb (rd_address d) address) then
          ref <- new_Cell address VNone (REF_FORMAT (rd_address d)) None ;;
          cell_map_set address ref
        else ret tt) s) = (Ok tt, s1)
      ∧ ext s s1
      ∧ (redirect_free (excel s) → cell_map s1 = cell_map s)).
    { destruct (String.eqb (rd_address d) address) eqn:Heq; cbn [negb].
      - exists s. split; [done |]. split; [apply ext_refl | done].
      - eexists. split; [reflexivity |]. split.
        + apply (ext_new_bound_cell s address VNone
                   (REF_FORMAT (rd_address d)) None (λ _, Hmem)).
        + intros Hrf. rewrite Hxl in Hrf. cbn in Hrf.
          rewrite (Hrf _ _ Hd), String.eqb_refl in Heq. discriminate. }
    destruct Href as (s1 & Hrun1 & E1 & Hm1).
    unfold bind at 1. rewrite Hrun1.
    unfold bind at 1. unfold get_state at 1.
    destruct (range_todos s1) as [l |] eqn:Hrt;
      [| cbn; exact E1].
    unfold bind at 1. unfold modify at 1.
    set (s2 := set_range_todos _ s1).
    apply (ext_trans _ s1); [done |].
    apply (ext_trans _ s2); [by apply ext_same_heap_map |].
    apply ext_build_range. intros Hrf.
    change (excel s2) with (excel s1) in Hrf.
    rewrite (ex_excel _ _ E1) in Hrf.
    pose proof Hrf as Hrf'. rewrite Hxl in Hrf'. cbn in Hrf'.
    rewrite (Hrf' _ _ Hd). split; [done |].
    change (cell_map s2) with (cell_map s1). by rewrite (Hm1 Hrf).
  - (* a cell *)
    apply ext_bind_here; [| intros a_cell; apply mono_ret].
    destruct d as [a f v | a fs vs]; [| apply ext_refl].
    cbn. eapply ext_alloc; cbn; try done.
    intros Hrf k id Hk. rewrite Hxl in Hrf. cbn in Hrf.
    pose proof (Hrf _ _ Hd) as Ha. cbn in Ha. subst a.
    rewrite dict_get_set_ne; [done |]. intros ->. congruence.
Qed.

Lemma ext_bind_split {A B} (s0 : state) (m : M A) (f : A → M B) :
  ext s0 (m s0).2 →
  (∀ a s', m s0 = (Ok a, s') → ext s' (f a s').2) →
  ext s0 (bind m f s0).2.
Proof.
  intros Hm Hf. unfold bind. destruct (m s0) as [[a | e |] s'] eqn:E;
    simpl in *; try done.
  apply (ext_trans _ s'); [done | by apply Hf].
Qed.

(** storing a value on an object that had none when the call began *)
Lemma mono_from_write (s0 : state) (id : nat) (x : node) (v : value) :
  heap s0 !! id = Some x → is_None (node_value x) = true →
  is_CellRange x = true ∨ has_python_code x = true →
  mono_from s0 (set_node_value id v).
Proof.
  intros Hx Hv Hk s E. unfold set_node_value, bind, get_node.
  destruct (ex_heap _ _ E _ _ Hx) as (x' & Hx' & Hs & _ & _).
  rewrite Hx'. cbn. split; cbn.
  - apply (ex_excel _ _ E).
  - apply (ex_log _ _ E).
  - intros id0 x0 Hx0. destruct (decide (id0 = id)) as [-> | Hne].
    + rewrite Hx in Hx0. injection Hx0 as <-.
      exists (node_set_value x' v). split.
      * apply list_lookup_insert_eq. by apply lookup_lt_is_Some_1; eauto.
      * rewrite node_value_set. rewrite Hs at 1.
        rewrite node_set_value_twice. split; [done |]. split.
        -- intros Hv'. congruence.
        -- intros Hr Hc. destruct Hk; congruence.
    + rewrite list_lookup_insert_ne by done. apply (ex_heap _ _ E _ _ Hx0).
  - apply (ex_nodes _ _ E).
  - apply (ex_edges _ _ E).
  - apply (ex_runs _ _ E).
  - apply (ex_map _ _ E).
Qed.

Lemma mono_begin_formula (c : _Cell) (f : ExcelFormula) :
  mono (begin_formula c f).
Proof.
  unfold begin_formula.
  apply mono_bind; [apply mono_log_call |]. intros _.
  apply mono_bind; [apply mono_get_state |]. intros s.
  apply mono_bind.
  - destruct (eval s); [apply mono_ret |]. by apply mono_modify_simple.
  - intros _. apply mono_modify_simple. intros s'. cbn.
    repeat split; try done. by apply prefix_app_r.
Qed.

(** one routine step of a proof that a method only extends the state *)
Ltac mono_step :=
  first
    [ assumption
    | apply mono_ret | apply mono_raise | apply mono_out_of_fuel
    | apply mono_get_state | apply mono_lift_res | apply mono_assert
    | apply mono_lookup_cell_map | apply mono_get_node | apply mono_get_excel
    | apply mono_log_call | apply mono_make_cells
    | apply mono_add_node_to_graph | apply mono_begin_formula
    | apply mono_bind; [| intros ?]
    | apply mono_for_each; intros ?
    | apply mono_map_M; intros ?
    | match goal with
      | |- mono (if ?b then _ else _) => destruct b
      | |- mono (match ?x with _ => _ end) => destruct x
      end ].

(** The builder and the evaluator only extend the state. *)
Lemma block_mono (n : nat) :
  (∀ seed recursed, mono (_gen_graph n seed recursed))
  ∧ mono (_process_gen_graph n)
  ∧ mono (connect_dependants n)
  ∧ (∀ a, mono (_evaluate_range n a))
  ∧ (∀ a, mono (_evaluate n a))
  ∧ (∀ e, mono (eval_formula n e)).
Proof.
  induction n as [| n (IHg & IHp & IHc & IHr & IHe & IHf)].
  { repeat apply conj; intros; exact mono_out_of_fuel. }
  split; [| split; [| split; [| split; [| split]]]].
  - (* _gen_graph *)
    intros seed recursed.
    assert (Haddr : ∀ a, mono (
      seed' <- (if has_sheet a then ret a
                else xl <- get_excel ;;
                     sheet <- lift_res (get_active_sheet_name xl) ;;
                     ret (with_sheet a sheet)) ;;
      s1 <- get_state ;;
      if dict_mem (cell_map s1) seed' then ret tt
      else _make_cells seed' ;;
           if recursed then ret tt else _process_gen_graph n)).
    { intros a. repeat mono_step. }
    destruct seed as [a | str | l |]; cbn [_gen_graph].
    + apply Haddr.
    + apply Haddr.
    + repeat mono_step. apply IHg.
    + apply mono_raise.
  - (* _process_gen_graph *)
    cbn [_process_gen_graph]. repeat mono_step.
    + apply IHr.
    + by apply mono_modify_simple.
  - (* connect_dependants *)
    cbn [connect_dependants].
    apply mono_bind; [apply mono_get_state |]. intros s.
    destruct (graph_todos s) as [[| d0 l0] |]; try apply mono_ret.
    apply mono_bind; [by apply mono_modify_simple |]. intros _.
    repeat mono_step.
    + apply IHg.
    + apply mono_modify_simple. intros s'. cbn.
      match goal with
      | |- context [add_edge ?g ?u ?v] =>
          destruct (add_edge_grows g u v) as [Hn He]
      end.
      repeat split; done.
  - (* _evaluate_range *)
    intros address s0. cbn [_evaluate_range].
    unfold bind at 1. unfold get_state at 1.
    apply ext_bind_split.
    { destruct (dict_get (cell_map s0) address); [apply ext_refl |].
      revert s0. repeat mono_step. apply IHg. }
    intros cell_range sa _. clear s0.
    unfold bind at 1. unfold get_node at 1.
    destruct (heap sa !! cell_range) as [x |] eqn:Hx; [| apply ext_refl].
    apply mono_from_here. apply mono_from_bind.
    + destruct (is_None (node_value x)) eqn:Hv;
        [| apply mono_mono_from, mono_ret].
      apply mono_from_bind; [apply mono_mono_from, mono_log_call |].
      intros _. destruct x as [c | r];
        [intros s E; exact E |].
      apply mono_from_bind; [apply mono_mono_from, mono_ret |].
      intros addresses. apply mono_from_bind.
      * apply mono_mono_from. repeat mono_step. apply IHe.
      * intros data. apply (mono_from_write _ _ (NRange r)); auto.
    + intros _. apply mono_mono_from. repeat mono_step.
  - (* _evaluate *)
    intros address s0. cbn [_evaluate].
    unfold bind at 1. unfold lookup_cell_map at 1.
    destruct (dict_get (cell_map s0) address) as [cell |];
      [| apply ext_refl].
    unfold bind at 1. unfold get_node at 1.
    destruct (heap s0 !! cell) as [x |] eqn:Hx; [| apply ext_refl].
    apply mono_from_here. apply mono_from_bind.
    + destruct (is_None (node_value x)) eqn:Hv;
        [| apply mono_mono_from, mono_ret].
      destruct x as [c | r].
      * destruct (c_formula c) as [f |] eqn:Hf;
          [| apply mono_mono_from, mono_ret].
        destruct (String.eqb (python_code f) EmptyString) eqn:Hcode;
          [apply mono_mono_from, mono_ret |].
        cbn [negb].
        apply mono_from_bind; [apply mono_mono_from, mono_begin_formula |].
        intros _. apply mono_from_bind; [apply mono_mono_from, IHf |].
        intros v. apply mono_from_bind; [apply mono_mono_from, mono_log_call |].
        intros _. apply (mono_from_write _ _ (NCell c)); auto.
        right. unfold has_python_code, node_python_code. cbn.
        by rewrite Hf, Hcode.
      * apply mono_mono_from. repeat mono_step. apply IHr.
    + intros _. apply mono_mono_from.
      apply mono_bind; [apply mono_get_node |]. intros x'.
      destruct (node_value x'); try apply mono_ret. apply IHe.
  - (* eval_formula *)
    intros e. cbn [eval_formula].
    destruct e as [v | exc | a k | a k]; repeat mono_step.
    + apply IHe.
    + apply IHf.
    + apply IHr.
    + apply IHf.
Qed.

(** ** Memoization (C1) *)

Lemma _evaluate_unfold (n : nat) (a : string) :
  _evaluate (S n) a
  = (cell <- lookup_cell_map a ;;
     x <- get_node cell ;;
     evaluate_compute n cell x ;;
     evaluate_return n cell).
Proof. reflexivity. Qed.








(** ** Recalculation (C8) *)




Lemma clear_ids_cons (id : nat) (ids : list nat) (hp : list node) :
  clear_ids (id :: ids) hp
  = clear_ids ids (match hp !! id with
                   | Some x => if recalculated x
                               then <[id := node_set_value x VNone]> hp
                               else hp
                   | None => hp
                   end).
Proof. reflexivity. Qed.

Lemma clear_ids_length (ids : list nat) (hp : list node) :
  length (clear_ids ids hp) = length hp.
Proof.
  revert hp. induction ids as [| id ids IH]; intros hp; [done |].
  rewrite clear_ids_cons, IH. destruct (hp !! id) as [x |]; [| done].
  destruct (recalculated x); [| done]. by rewrite length_insert.
Qed.





(** ** Invalidation (C2) *)

Lemma cached_clear (hp : list node) (id : nat) (x : node) :
  hp !! id = Some x → is_None (node_value x) = false →
  S (cached (<[id := node_set_value x VNone]> hp)) = cached hp.
Proof.
  revert id. induction hp as [| y hp IH]; intros [| id] Hx Hv; try done.
  - simpl in Hx. injection Hx as ->. unfold cached. simpl.
    rewrite node_value_set, Hv. reflexivity.
  - simpl in Hx. unfold cached in *. simpl.
    destruct (negb (is_None (node_value y))); simpl; rewrite <- (IH id Hx Hv);
      reflexivity.
Qed.

Lemma resets_refl (s : state) : graph_ok s → resets s s.
Proof.
  intros Hg. split; auto.
  intros u w x _ Hx Hv Hu. unfold val in Hu. rewrite Hx in Hu.
  simpl in Hu. injection Hu as Hu. rewrite Hu in Hv. discriminate.
Qed.

Lemma resets_None_stays (s s' : state) (id : nat) :
  resets s s' → val s id = Some VNone → val s' id = Some VNone.
Proof.
  intros R. unfold val. destruct (heap s !! id) as [x |] eqn:Hx; [| done].
  simpl. intros [= Hv].
  destruct (rs_heap _ _ R _ _ Hx) as [-> | ->]; simpl.
  - by rewrite Hv.
  - by rewrite node_value_set.
Qed.

Lemma resets_trans (s1 s2 s3 : state) :
  resets s1 s2 → resets s2 s3 → resets s1 s3.
Proof.
  intros R1 R2. split.
  - by rewrite (rs_graph _ _ R2), (rs_graph _ _ R1).
  - by rewrite (rs_log _ _ R2), (rs_log _ _ R1).
  - by rewrite (rs_map _ _ R2), (rs_map _ _ R1).
  - by rewrite (rs_len _ _ R2), (rs_len _ _ R1).
  - intros id x Hx. destruct (rs_heap _ _ R1 _ _ Hx) as [H | H];
      destruct (rs_heap _ _ R2 _ _ H) as [H' | H']; auto.
    right. rewrite H'. by destruct x.
  - pose proof (rs_cached _ _ R1). pose proof (rs_cached _ _ R2). lia.
  - intros u w x He Hx Hv Hu.
    destruct (rs_heap _ _ R1 _ _ Hx) as [H | H].
    + apply (rs_closed _ _ R2 u w x); auto.
      by rewrite (rs_graph _ _ R1).
    + apply (resets_None_stays _ _ _ R2).
      apply (rs_closed _ _ R1 u w x); auto.
      unfold val. rewrite H. simpl. by rewrite node_value_set.
Qed.

Lemma elem_of_successors (g : DiGraph) (u w : nat) (l : list nat) :
  successors g u = Some l → (u, w) ∈ dg_edges g → w ∈ l.
Proof.
  unfold successors. destruct (nat_mem u (dg_nodes g)); [| done].
  intros [= <-] He. apply list_elem_of_fmap. exists (u, w). split; [done |].
  apply list_elem_of_filter. split; done.
Qed.

Lemma successors_are_targets (g : DiGraph) (u w : nat) (l : list nat) :
  successors g u = Some l → w ∈ l → (u, w) ∈ dg_edges g.
Proof.
  unfold successors. destruct (nat_mem u (dg_nodes g)); [| done].
  intros [= <-] Hw. apply list_elem_of_fmap in Hw as ([u' w'] & -> & Hf).
  apply list_elem_of_filter in Hf as [Hu He]. simpl in Hu. by subst u'.
Qed.

(** [_reset] on a cached node, given fuel for every cached object: it
    returns, the node is cleared, and so is everything downstream. *)
Lemma reset_spec (n : nat) :
  ∀ (s : state) (cell : nat),
    log s = Some tt → graph_ok s → cell < length (heap s) →
    cached (heap s) < n →
    ∃ s', _reset n cell s = (Ok tt, s') ∧ resets s s'
          ∧ val s' cell = Some VNone.
Proof.
  induction n as [| n IH]; intros s cell Hlog Hg Hcell Hfuel; [lia |].
  destruct (lookup_lt_is_Some_2 _ _ Hcell) as [x Hx].
  cbn [_reset]. unfold bind at 1. unfold get_node at 1. rewrite Hx.
  destruct (is_None (node_value x)) eqn:Hv.
  { exists s. split; [done |]. split; [by apply resets_refl |].
    unfold val. rewrite Hx. simpl. by destruct (node_value x). }
  unfold bind at 1. unfold log_call at 1. rewrite Hlog.
  set (s0 := set_logged _ s).
  unfold bind at 1. unfold set_node_value at 1. unfold bind at 1.
  unfold get_node at 1. change (heap s0) with (heap s). rewrite Hx.
  unfold modify at 1.
  set (s1 := set_heap _ s0).
  unfold bind at 1. unfold get_state at 1.
  assert (Hheap1 : heap s1 = <[cell := node_set_value x VNone]> (heap s))
    by reflexivity.
  assert (Hc1 : S (cached (heap s1)) = cached (heap s)).
  { rewrite Hheap1. by apply cached_clear. }
  assert (Hval1 : val s1 cell = Some VNone).
  { unfold val. rewrite Hheap1, list_lookup_insert_eq by done.
    simpl. by rewrite node_value_set. }
  assert (Hg1 : graph_ok s1).
  { intros u w He. destruct (Hg u w He) as [? ?]. split; [done |].
    rewrite Hheap1, length_insert. done. }
  (* the loop over the successors *)
  assert (Hloop : ∀ children t,
    (∀ c, c ∈ children → c < length (heap t)) →
    log t = Some tt → graph_ok t → (cached (heap t) < n)%nat →
    ∃ t', for_each children (λ child_cell,
            y <- get_node child_cell ;;
            if negb (is_None (node_value y)) then _reset n child_cell
            else ret tt) t = (Ok tt, t')
          ∧ resets t t' ∧ ∀ c, c ∈ children → val t' c = Some VNone).
  { induction children as [| c children IHc]; intros t Hvalid Hlt Hgt Hft.
    - exists t. split; [done |]. split; [by apply resets_refl |].
      intros c Hc. by apply elem_of_nil in Hc.
    - assert (Hcv : c < length (heap t)) by (apply Hvalid; by left).
      destruct (lookup_lt_is_Some_2 _ _ Hcv) as [y Hy].
      assert (Hstep : ∃ t1, (y <- get_node c ;;
                             if negb (is_None (node_value y)) then _reset n c
                             else ret tt) t = (Ok tt, t1)
                            ∧ resets t t1 ∧ val t1 c = Some VNone).
      { unfold bind at 1. unfold get_node at 1. rewrite Hy.
        destruct (is_None (node_value y)) eqn:Hyv; simpl.
        - exists t. split; [done |]. split; [by apply resets_refl |].
          unfold val. rewrite Hy. simpl. by destruct (node_value y).
        - by apply IH. }
      destruct Hstep as (t1 & Hrun & Rt1 & Hc1v).
      destruct (IHc t1) as (t' & Hrest & Rt' & Hrestv).
      { intros c' Hc'. rewrite (rs_len _ _ Rt1). apply Hvalid. by right. }
      { by rewrite (rs_log _ _ Rt1). }
      { intros u w He. rewrite (rs_graph _ _ Rt1) in *.
        destruct (Hgt u w He) as [? ?]. split; [done |].
        by rewrite (rs_len _ _ Rt1). }
      { pose proof (rs_cached _ _ Rt1). lia. }
      exists t'. split; [| split; [by apply (resets_trans _ t1) |]].
      + cbn [for_each]. unfold bind at 1. rewrite Hrun. exact Hrest.
      + intros c' Hc'. apply elem_of_cons in Hc' as [-> | Hc'].
        * by apply (resets_None_stays _ _ _ Rt').
        * by apply Hrestv. }
  assert (Hfin : ∀ s', resets s1 s' →
    (∀ w, (cell, w) ∈ dg_edges (dep_graph s) → val s' w = Some VNone) →
    resets s s' ∧ val s' cell = Some VNone).
  { intros s' Rt Hsucc. split; [| by apply (resets_None_stays _ _ _ Rt)].
    split.
    - by rewrite (rs_graph _ _ Rt).
    - by rewrite (rs_log _ _ Rt).
    - by rewrite (rs_map _ _ Rt).
    - by rewrite (rs_len _ _ Rt), Hheap1, length_insert.
    - intros id x0 Hx0. destruct (decide (id = cell)) as [-> | Hne].
      + rewrite Hx in Hx0. injection Hx0 as <-. right.
        assert (H1 : heap s1 !! cell = Some (node_set_value x VNone)).
        { rewrite Hheap1. by apply list_lookup_insert_eq. }
        destruct (rs_heap _ _ Rt _ _ H1) as [H | H]; rewrite H; [done |].
        by destruct x.
      + apply (rs_heap _ _ Rt). rewrite Hheap1.
        by rewrite list_lookup_insert_ne.
    - pose proof (rs_cached _ _ Rt). lia.
    - intros u w xu He Hxu Hxv Hu. destruct (decide (u = cell)) as [-> | Hne].
      + by apply Hsucc.
      + apply (rs_closed _ _ Rt u w xu); auto.
        rewrite Hheap1. by rewrite list_lookup_insert_ne. }
  change (dep_graph s1) with (dep_graph s).
  destruct (successors (dep_graph s) cell) as [children |] eqn:Hsucc.
  - destruct (Hloop children s1) as (s' & Hrun & Rt & Hnone).
    + intros c Hc. rewrite Hheap1, length_insert.
      apply (successors_are_targets _ _ _ _ Hsucc) in Hc.
      by destruct (Hg _ _ Hc).
    + done.
    + done.
    + lia.
    + exists s'. split; [done |]. apply Hfin; [done |].
      intros w He. apply Hnone. by apply (elem_of_successors _ _ _ _ Hsucc).
  - exists s1. split; [done |]. apply Hfin; [by apply resets_refl |].
    intros w He. destruct (Hg _ _ He) as [Hn _].
    unfold successors in Hsucc. by rewrite Hn in Hsucc.
Qed.

(** C2: in a chain A→B→C of the dependency graph whose three nodes hold a
    value, [set_value] on A's address with a scalar that differs from A's
    value (Python's [!=]) clears B and C and stores the new value on A;
    with a scalar equal to A's value it changes nothing at all.  The fuel
    only has to exceed the number of objects that hold a value. *)
Theorem set_value_invalidates_chain (n : nat) (s : state) (a : string)
        (v : value) (idA idB idC : nat) (xA xB xC : node) :
  log s = Some tt → graph_ok s →
  dict_get (cell_map s) (if dict_mem (cell_map s) a then a else canon a)
  = Some idA →
  heap s !! idA = Some xA → heap s !! idB = Some xB → heap s !! idC = Some xC →
  is_None (node_value xA) = false → is_None (node_value xB) = false →
  is_None (node_value xC) = false →
  (idA, idB) ∈ dg_edges (dep_graph s) → (idB, idC) ∈ dg_edges (dep_graph s) →
  idB ≠ idA → idC ≠ idA →
  list_like v = false → (cached (heap s) < n)%nat →
  if value_eqb (node_value xA) v
  then set_value n (AOne a) v s = (Ok tt, s)
  else ∃ s', set_value n (AOne a) v s = (Ok tt, s')
             ∧ val s' idA = Some v
             ∧ val s' idB = Some VNone ∧ val s' idC = Some VNone.
Proof.
  intros Hlog Hg Hkey HxA HxB HxC HvA HvB HvC HeAB HeBC HBA HCA Hv Hfuel.
  assert (Hset : set_value n (AOne a) v s
                 = set_value_at n (if dict_mem (cell_map s) a then a
                                   else canon a) v s).
  { unfold set_value. rewrite Hv. unfold bind at 1. unfold get_state at 1.
    destruct (dict_mem (cell_map s) a) eqn:Hmem.
    - reflexivity.
    - unfold bind at 1. unfold bind at 1.
      assert (Hc : dict_mem (cell_map s) (canon a) = true).
      { apply dict_mem_true. by rewrite Hkey. }
      rewrite Hc. reflexivity. }
  rewrite Hset. clear Hset. unfold set_value_at.
  bind_ok (lookup_cell_map_Some _ _ _ Hkey).
  bind_ok (get_node_Some _ _ _ HxA).
  destruct (value_eqb (node_value xA) v) eqn:Heq; [reflexivity |].
  cbn [negb]. rewrite HvA.
  assert (HlA : idA < length (heap s)) by (apply lookup_lt_is_Some_1; eauto).
  destruct (reset_spec n s idA Hlog Hg HlA Hfuel) as (s1 & Hrun & R & HA1).
  unfold bind at 1. unfold ret at 1. bind_ok Hrun.
  assert (HB1 : val s1 idB = Some VNone).
  { by apply (rs_closed _ _ R idA idB xA). }
  assert (HC1 : val s1 idC = Some VNone).
  { by apply (rs_closed _ _ R idB idC xB). }
  assert (HlA1 : idA < length (heap s1))
    by (rewrite (rs_len _ _ R); exact HlA).
  destruct (lookup_lt_is_Some_2 _ _ HlA1) as [x1 Hx1].
  rewrite (set_node_value_Some _ _ _ _ Hx1).
  eexists. split; [reflexivity |].
  unfold val in *. cbn [heap set_heap].
  rewrite list_lookup_insert_eq by done.
  rewrite !list_lookup_insert_ne by done.
  split; [simpl; by rewrite node_value_set | by split].
Qed.

(** ** A list in a single cell (C7) *)

(** C7: when the formula of a cell without a value, run by [_evaluate]
    after [begin_formula], yields a list-like value, [_evaluate] stores
    [VALUE_ERROR] on the cell and returns it; the list is not stored. *)
Theorem list_result_is_stored_as_VALUE_ERROR (n : nat) (s sb : state)
        (a : string) (cell : nat) (c : _Cell) (f : ExcelFormula) (v : value) :
  dict_get (cell_map s) a = Some cell →
  heap s !! cell = Some (NCell c) →
  c_value c = VNone → c_formula c = Some f →
  String.eqb (python_code f) EmptyString = false →
  (begin_formula c f ;; eval_formula n (body f)) s = (Ok v, sb) →
  list_like v = true →
  ∃ s', _evaluate (S n) a s = (Ok VALUE_ERROR, s')
        ∧ val s' cell = Some VALUE_ERROR.
Proof.
  intros Hkey Hx Hv Hf Hcode Hrun Hlist.
  apply bind_inv in Hrun as [([] & sa & Hbegin & Heval) | [(e & Hr & ?) | [Hr ?]]];
    try done.
  assert (Ea : ext s sa).
  { pose proof (mono_begin_formula c f s) as E. by rewrite Hbegin in E. }
  assert (Eb : ext sa sb).
  { destruct (block_mono n) as (_ & _ & _ & _ & _ & IHf).
    pose proof (IHf (body f) sa) as E. by rewrite Heval in E. }
  assert (Hlog : log sb = Some tt).
  { rewrite (ex_log _ _ Eb), (ex_log _ _ Ea).
    unfold begin_formula, bind, log_call in Hbegin.
    destruct (log s) as [[] |]; [done | discriminate]. }
  destruct (ex_heap _ _ (ext_trans _ _ _ Ea Eb) _ _ Hx) as (x' & Hx' & _).
  cbn [_evaluate].
  bind_ok (lookup_cell_map_Some _ _ _ Hkey).
  bind_ok (get_node_Some _ _ _ Hx).
  cbn [node_value]. rewrite Hv. cbn [is_None]. rewrite Hf, Hcode. cbn [negb].
  rewrite bind_assoc. bind_ok Hbegin. rewrite bind_assoc.
  bind_ok Heval. rewrite bind_assoc.
  erewrite (bind_Ok (log_call _ _ _)) by (apply log_call_Some; exact Hlog).
  cbv beta.
  rewrite Hlist.
  match goal with
  | |- context [bind (set_node_value cell VALUE_ERROR) ?k ?t] =>
      rewrite (bind_Ok _ k _ _ _ (set_node_value_Some cell x' VALUE_ERROR t Hx'))
  end.
  assert (Hlt : cell < length (heap sb))
    by (apply lookup_lt_is_Some_1; eauto).
  eexists. unfold bind at 1. unfold get_node at 1.
  cbn [heap set_heap set_logged].
  rewrite list_lookup_insert_eq by done.
  rewrite node_value_set. cbn. split; [reflexivity |].
  unfold val. cbn. rewrite list_lookup_insert_eq by done.
  cbn. by rewrite node_value_set.
Qed.

(** ** What trimming keeps (C10) *)

Lemma node_clear_formula_twice (x : node) :
  node_clear_formula (node_clear_formula x) = node_clear_formula x.
Proof. by destruct x. Qed.

Lemma trims_refl (s : state) : trims s s.
Proof. split; auto. Qed.

Lemma trims_trans (s1 s2 s3 : state) : trims s1 s2 → trims s2 s3 → trims s1 s3.
Proof.
  intros T1 T2. split.
  - by rewrite (tr_graph _ _ T2), (tr_graph _ _ T1).
  - by rewrite (tr_len _ _ T2), (tr_len _ _ T1).
  - intros id x Hx. destruct (tr_heap _ _ T1 _ _ Hx) as [H | H];
      destruct (tr_heap _ _ T2 _ _ H) as [H' | H']; auto.
    right. by rewrite H', node_clear_formula_twice.
Qed.

Lemma trims_same_heap (s s' : state) :
  dep_graph s' = dep_graph s → heap s' = heap s → trims s s'.
Proof. intros Hg Hh. split; auto; rewrite Hh; auto. Qed.

Lemma trims_log_call (lvl : log_level) (msg : string) (args : list value) :
  pres trims (log_call lvl msg args).
Proof.
  intros s. unfold log_call. destruct (log s); [| apply trims_refl].
  by apply trims_same_heap.
Qed.

Lemma trims_walk_inputs (n : nat) (ins : list string) (nc : gset string) :
  pres trims (walk_inputs n ins nc).
Proof.
  revert nc. induction ins as [| addr rest IH]; intros nc; cbn [walk_inputs].
  - apply pres_ret, trims_refl.
  - apply pres_bind; [apply trims_trans | apply pres_get_state, trims_refl |].
    intros s. destruct (dict_get (cell_map s) addr) as [cell |].
    + destruct (walk_dependents n (dep_graph s) (heap s) nc cell)
        as [[[] | [] |] nc']; try apply IH;
        first [apply pres_ret, trims_refl | apply pres_raise, trims_refl
              | apply pres_out_of_fuel, trims_refl].
    + apply pres_bind; [apply trims_trans | apply trims_log_call |].
      intros _. apply IH.
Qed.

Lemma trims_find_needed_cells (n : nat) (ins outs : list string) :
  pres trims (find_needed_cells n ins outs).
Proof.
  unfold find_needed_cells.
  apply pres_bind; [apply trims_trans | apply trims_walk_inputs |].
  intros [nc [[addr exc] |]].
  - apply pres_bind; [apply trims_trans | | intros _; apply pres_ret, trims_refl].
    destruct (negb _); [apply pres_raise | apply pres_ret]; apply trims_refl.
  - apply pres_bind; [apply trims_trans | | intros _]; apply pres_ret, trims_refl.
Qed.

Lemma trims_walk_precedents (n : nat) :
  ∀ cell sets, pres trims (walk_precedents n cell sets).
Proof.
  induction n as [| n IH]; intros cell sets; cbn [walk_precedents].
  - apply pres_out_of_fuel, trims_refl.
  - apply pres_bind; [apply trims_trans | apply pres_get_node, trims_refl |].
    intros x. generalize (node_needed_addresses x). intros children.
    revert sets. induction children as [| child rest IHc]; intros sets.
    + apply pres_ret, trims_refl.
    + destruct sets as [needed processed].
      destruct (bool_decide (child ∈ processed)); [apply IHc |].
      apply pres_bind;
        [apply trims_trans | apply pres_lookup_cell_map, trims_refl |].
      intros child_cell.
      destruct (bool_decide (child ∈ needed) || contains_char _ child).
      * apply pres_bind; [apply trims_trans | apply IH |]. intros sets'.
        apply IHc.
      * apply pres_bind_get_node; [apply trims_refl |]. intros y s Hy.
        apply pres_bind_at; [apply trims_trans | |].
        -- cbn. split; cbn; [done | by rewrite length_insert |].
           intros id x0 Hx0. destruct (decide (id = child_cell)) as [-> | Hne].
           ++ right. rewrite Hy in Hx0. injection Hx0 as <-.
              apply list_lookup_insert_eq. by apply lookup_lt_is_Some_1; eauto.
           ++ left. by rewrite list_lookup_insert_ne.
        -- intros _. apply pres_bind; [apply trims_trans | apply trims_log_call |].
           intros _. apply IHc.
Qed.

Lemma trims_walk_outputs (n : nat) (outs : list string) :
  ∀ sets, pres trims (walk_outputs n outs sets).
Proof.
  induction outs as [| addr rest IH]; intros sets; cbn [walk_outputs].
  - apply pres_ret, trims_refl.
  - apply pres_bind;
      [apply trims_trans | apply pres_lookup_cell_map, trims_refl |].
    intros cell.
    apply pres_bind; [apply trims_trans | apply trims_walk_precedents |].
    intros sets'. apply IH.
Qed.

Lemma trim_graph_unfold (n : nat) (ins outs : list string) :
  trim_graph n ins outs
  = (_gen_graph n (SeedIter (map SeedAddr (map canon outs))) false ;;
     trim_after_build n (map canon ins) (map canon outs)).
Proof. reflexivity. Qed.

Lemma trims_trim_after_build (n : nat) (ins outs : list string) :
  pres trims (trim_after_build n ins outs).
Proof.
  unfold trim_after_build.
  apply pres_bind; [apply trims_trans | apply trims_find_needed_cells |].
  intros needed.
  apply pres_bind; [apply trims_trans | apply trims_walk_outputs |].
  intros sets.
  apply pres_bind; [apply trims_trans | |].
  - apply pres_for_each; [apply trims_refl | apply trims_trans |].
    intros addr.
    apply pres_bind; [apply trims_trans | apply pres_get_state, trims_refl |].
    intros s. destruct (dict_get (cell_map s) addr) as [cell |];
      [| apply pres_ret, trims_refl].
    apply pres_bind; [apply trims_trans | apply pres_get_node, trims_refl |].
    intros x. destruct (has_formula x);
      [apply trims_log_call | apply pres_ret, trims_refl].
  - intros _.
    apply pres_bind; [apply trims_trans | apply pres_get_state, trims_refl |].
    intros s. apply pres_for_each; [apply trims_refl | apply trims_trans |].
    intros addr s'. by apply trims_same_heap.
Qed.

(** C10: whatever the outcome of [trim_graph], every node and every edge
    the dependency graph had is still in it, and the objects are still
    there, under the addresses they had; and once the build step for the
    outputs has returned, the remaining steps, which delete the unneeded
    entries of the address map, leave the dependency graph exactly as the
    build step left it. *)
Theorem trim_graph_keeps_dep_graph (n : nat) (ins outs : list string)
        (s : state) :
  let s' := (trim_graph n ins outs s).2 in
  dg_nodes (dep_graph s) ⊆ dg_nodes (dep_graph s')
  ∧ dg_edges (dep_graph s) ⊆ dg_edges (dep_graph s')
  ∧ (∀ id x, heap s !! id = Some x →
             ∃ x', heap s' !! id = Some x'
                   ∧ node_address x' = node_address x)
  ∧ (∀ s1, _gen_graph n (SeedIter (map SeedAddr (map canon outs))) false s
           = (Ok tt, s1) →
           dep_graph s' = dep_graph s1).
Proof.
  cbn zeta. rewrite trim_graph_unfold.
  destruct (block_mono n) as (IHg & _).
  pose proof (IHg (SeedIter (map SeedAddr (map canon outs))) false s) as E.
  unfold bind.
  destruct (_gen_graph n (SeedIter (map SeedAddr (map canon outs))) false s)
    as [[[] | e |] s1] eqn:Hgen; simpl in E.
  - pose proof (trims_trim_after_build n (map canon ins) (map canon outs) s1)
      as T.
    set (s' := (trim_after_build n (map canon ins) (map canon outs) s1).2) in *.
    rewrite (tr_graph _ _ T).
    split; [apply (ex_nodes _ _ E) |]. split; [apply (ex_edges _ _ E) |].
    split.
    + intros id x Hx.
      destruct (ex_heap _ _ E _ _ Hx) as (x1 & Hx1 & Hs & _).
      destruct (tr_heap _ _ T _ _ Hx1) as [H | H]; eexists; (split; [exact H |]);
        rewrite Hs; by destruct x.
    + intros s2 [= <-]. done.
  - simpl. split; [apply (ex_nodes _ _ E) |]. split; [apply (ex_edges _ _ E) |].
    split; [| done].
    intros id x Hx. destruct (ex_heap _ _ E _ _ Hx) as (x1 & Hx1 & Hs & _).
    exists x1. split; [done |]. rewrite Hs. by destruct x.
  - simpl. split; [apply (ex_nodes _ _ E) |]. split; [apply (ex_edges _ _ E) |].
    split; [| done].
    intros id x Hx. destruct (ex_heap _ _ E _ _ Hx) as (x1 & Hx1 & Hs & _).
    exists x1. split; [done |]. rewrite Hs. by destruct x.
Qed.

(** ** Evaluation sees only the part of the graph it reads *)

Section Within.
Context (K : list string) (I : list nat).

Lemma sim_run_reader {A} (a : A) (s t : state) :
  same_within K I s t → sim_run K I (ret a) s t.
Proof. by split. Qed.

Lemma sim_run_bind {A B} (m : M A) (f : A → M B) (s t : state) :
  sim_run K I m s t →
  (∀ a s' t', m s = (Ok a, s') → m t = (Ok a, t') → same_within K I s' t' →
              sim_run K I (f a) s' t') →
  sim_run K I (bind m f) s t.
Proof.
  intros [Hr Hs] Hf. unfold sim_run, bind in *.
  destruct (m s) as [[a | e |] s'] eqn:Es;
    destruct (m t) as [[a' | e' |] t'] eqn:Et; simpl in *;
    try discriminate; try (by split).
  - injection Hr as <-. by apply Hf.
  - injection Hr as <-. by split.
Qed.

Lemma sim_run_log_call (lvl : log_level) (msg : string) (args : list value)
      (s t : state) :
  same_within K I s t → sim_run K I (log_call lvl msg args) s t.
Proof.
  intros S. unfold sim_run, log_call. rewrite <- (sw_log _ _ _ _ S).
  destruct (log s); [| by split]. split; [done |].
  split; try apply S.
Qed.

Lemma node_within_set_value (x : node) (v : value) :
  node_within K x → value_within K v → node_within K (node_set_value x v).
Proof. intros [_ H] Hv. split; [by rewrite node_value_set | by destruct x]. Qed.

Lemma sim_run_set_node_value (id : nat) (v : value) (s t : state) :
  value_within K v → same_within K I s t →
  sim_run K I (set_node_value id v) s t.
Proof.
  intros Hv S. unfold sim_run, set_node_value, bind, get_node.
  rewrite <- (sw_heap _ _ _ _ S).
  destruct (heap s !! id) as [x |] eqn:Hx; [| by split].
  cbn. split; [done |]. split; cbn; try apply S.
  - by rewrite (sw_heap _ _ _ _ S).
  - intros id' Hid'. destruct (sw_objs _ _ _ _ S id' Hid') as (x' & Hx' & Hw).
    destruct (decide (id' = id)) as [-> | Hne].
    + rewrite Hx in Hx'. injection Hx' as <-.
      exists (node_set_value x v). split.
      * apply list_lookup_insert_eq. by apply lookup_lt_is_Some_1; eauto.
      * by apply node_within_set_value.
    + exists x'. by rewrite list_lookup_insert_ne.
Qed.

Lemma sim_run_begin_formula (c : _Cell) (f : ExcelFormula) (s t : state) :
  same_within K I s t → sim_run K I (begin_formula c f) s t.
Proof.
  intros S. unfold sim_run, begin_formula, bind, log_call, get_state, modify.
  rewrite <- (sw_log _ _ _ _ S). destruct (log s); [| by split].
  cbn. rewrite <- (sw_eval _ _ _ _ S).
  destruct (eval s); cbn; (split; [done |]); split; cbn; try apply S;
    try done; by rewrite (sw_runs _ _ _ _ S).
Qed.

Lemma sim_run_map_M {A B} (l : list A) (f : A → M B) :
  (∀ x, x ∈ l → ∀ s t, same_within K I s t → sim_run K I (f x) s t) →
  ∀ s t, same_within K I s t → sim_run K I (map_M l f) s t.
Proof.
  induction l as [| x l IH]; intros Hf s t S; cbn [map_M].
  - by apply sim_run_reader.
  - apply sim_run_bind; [apply Hf; [by left | done] |].
    intros y s' t' _ _ S'. apply sim_run_bind.
    + apply IH; [| done]. intros x' Hx'. apply Hf. by right.
    + intros ys s'' t'' _ _ S''. by apply sim_run_reader.
Qed.

Lemma eval_formula_within (n : nat) :
  ∀ e s v s', reads_within K e → eval_formula n e s = (Ok v, s') →
              value_within K v.
Proof.
  induction n as [| n IH]; intros e s v s' He Hrun; [done |].
  cbn [eval_formula] in Hrun. destruct He as [w Hw | exc | a k Ha Hk | a k Ha Hk].
  - by injection Hrun as <- _.
  - done.
  - apply bind_inv in Hrun as [(w & s1 & _ & H) | [(e & _ & ?) | [_ ?]]];
      try done. by apply (IH _ _ _ _ (Hk w) H).
  - apply bind_inv in Hrun as [(w & s1 & _ & H) | [(e & _ & ?) | [_ ?]]];
      try done. by apply (IH _ _ _ _ (Hk w) H).
Qed.

Lemma _evaluate_range_known (n : nat) (a : string) (id : nat) (s : state) :
  dict_get (cell_map s) a = Some id →
  _evaluate_range (S n) a s = evaluate_range_known n id s.
Proof.
  intros Hk. cbn [_evaluate_range]. unfold bind at 1. unfold get_state at 1.
  rewrite Hk. unfold bind at 1. unfold ret at 1. reflexivity.
Qed.

(** On two states that agree inside [K], evaluating an address of [K] (or a
    body that reads within [K]) has the same outcome, and the states still
    agree. *)
Lemma eval_sim (n : nat) :
  (∀ a, a ∈ K → ∀ s t, same_within K I s t → sim_run K I (_evaluate n a) s t)
  ∧ (∀ a, a ∈ K → ∀ s t, same_within K I s t →
          sim_run K I (_evaluate_range n a) s t)
  ∧ (∀ e, reads_within K e → ∀ s t, same_within K I s t →
          sim_run K I (eval_formula n e) s t).
Proof.
  induction n as [| n (IHe & IHr & IHf)].
  { repeat apply conj; intros; by split. }
  split; [| split].
  - (* _evaluate *)
    intros a Ha s t S. rewrite _evaluate_unfold.
    destruct (sw_map _ _ _ _ S a Ha) as (id & Hid & Hks & Hkt).
    destruct (sw_objs _ _ _ _ S id Hid) as (x & Hx & Hw).
    assert (Hxt : heap t !! id = Some x) by (by rewrite <- (sw_heap _ _ _ _ S)).
    unfold sim_run.
    rewrite !(bind_Ok _ _ _ _ _ (lookup_cell_map_Some _ _ _ Hks)).
    rewrite !(bind_Ok _ _ _ _ _ (lookup_cell_map_Some _ _ _ Hkt)).
    rewrite !(bind_Ok _ _ _ _ _ (get_node_Some _ _ _ Hx)).
    rewrite !(bind_Ok _ _ _ _ _ (get_node_Some _ _ _ Hxt)).
    apply sim_run_bind.
    + (* evaluate_compute *)
      unfold evaluate_compute.
      destruct (is_None (node_value x)); [| by apply sim_run_reader].
      destruct x as [c | r].
      * destruct Hw as [_ Hw]. cbn in Hw.
        destruct (c_formula c) as [f |]; [| by apply sim_run_reader].
        destruct (negb _); [| by apply sim_run_reader].
        apply sim_run_bind; [by apply sim_run_begin_formula |].
        intros _ s1 t1 _ _ S1.
        apply sim_run_bind; [by apply IHf |].
        intros v s2 t2 Hv _ S2.
        apply sim_run_bind; [by apply sim_run_log_call |].
        intros _ s3 t3 _ _ S3.
        apply sim_run_set_node_value; [| done].
        apply (eval_formula_within _ _ _ _ _ Hw) in Hv.
        destruct (list_like v); [by intros r | done].
      * destruct Hw as [_ [Hw _]].
        apply sim_run_bind; [by apply IHr |].
        intros _ s1 t1 _ _ S1. by apply sim_run_reader.
    + (* evaluate_return *)
      intros _ s1 t1 _ _ S1. unfold evaluate_return.
      destruct (sw_objs _ _ _ _ S1 id Hid) as (x1 & Hx1 & [Hv1 _]).
      assert (Hx1t : heap t1 !! id = Some x1)
        by (by rewrite <- (sw_heap _ _ _ _ S1)).
      unfold sim_run.
      rewrite (bind_Ok _ _ _ _ _ (get_node_Some _ _ _ Hx1)).
      rewrite (bind_Ok _ _ _ _ _ (get_node_Some _ _ _ Hx1t)).
      destruct (node_value x1) eqn:Hnv; try by apply sim_run_reader.
      apply IHe; [| done]. by apply Hv1.
  - (* _evaluate_range *)
    intros a Ha s t S.
    destruct (sw_map _ _ _ _ S a Ha) as (id & Hid & Hks & Hkt).
    destruct (sw_objs _ _ _ _ S id Hid) as (x & Hx & Hw).
    assert (Hxt : heap t !! id = Some x) by (by rewrite <- (sw_heap _ _ _ _ S)).
    unfold sim_run.
    rewrite (_evaluate_range_known n a id s Hks).
    rewrite (_evaluate_range_known n a id t Hkt).
    unfold evaluate_range_known.
    rewrite !(bind_Ok _ _ _ _ _ (get_node_Some _ _ _ Hx)).
    rewrite !(bind_Ok _ _ _ _ _ (get_node_Some _ _ _ Hxt)).
    apply sim_run_bind.
    + destruct (is_None (node_value x)); [| by apply sim_run_reader].
      apply sim_run_bind; [by apply sim_run_log_call |].
      intros _ s1 t1 _ _ S1.
      destruct x as [c | r]; [by split |].
      destruct Hw as [_ [_ Hmem]].
      apply sim_run_bind; [by apply sim_run_reader |].
      intros addresses s2 t2 [= <-] _ S2.
      apply sim_run_bind.
      * apply sim_run_map_M; [| done]. intros row Hrow s3 t3 S3.
        apply sim_run_bind.
        -- apply sim_run_map_M; [| done]. intros addr Haddr s4 t4 S4.
           apply IHe; [| done]. apply Hmem.
           apply list_elem_of_In, in_concat. exists row.
           split; by apply list_elem_of_In.
        -- intros vs s4 t4 _ _ S4. by apply sim_run_reader.
      * intros data s3 t3 _ _ S3. by apply sim_run_set_node_value.
    + intros _ s1 t1 _ _ S1.
      destruct (sw_objs _ _ _ _ S1 id Hid) as (x1 & Hx1 & _).
      assert (Hx1t : heap t1 !! id = Some x1)
        by (by rewrite <- (sw_heap _ _ _ _ S1)).
      unfold sim_run.
      rewrite (bind_Ok _ _ _ _ _ (get_node_Some _ _ _ Hx1)).
      rewrite (bind_Ok _ _ _ _ _ (get_node_Some _ _ _ Hx1t)).
      by apply sim_run_reader.
  - (* eval_formula *)
    intros e He s t S. cbn [eval_formula].
    destruct He as [w Hw | exc | a k Ha Hk | a k Ha Hk].
    + by apply sim_run_reader.
    + by split.
    + apply sim_run_bind; [by apply IHe |].
      intros v s1 t1 _ _ S1. by apply IHf.
    + apply sim_run_bind; [by apply IHr |].
      intros v s1 t1 _ _ S1. by apply IHf.
Qed.

Lemma evaluate_known (n : nat) (a : string) (s : state) :
  dict_mem (cell_map s) a = true →
  evaluate (S n) (AOne a) s = _evaluate n a s.
Proof.
  intros H. cbn [evaluate]. unfold bind at 1. unfold get_state at 1.
  by rewrite H.
Qed.

(** the same for the public [evaluate] on one address of [K] *)
Lemma evaluate_sim (n : nat) (a : string) (s t : state) :
  a ∈ K → same_within K I s t → sim_run K I (evaluate n (AOne a)) s t.
Proof.
  intros Ha S. destruct n as [| n]; [by split |].
  destruct (sw_map _ _ _ _ S a Ha) as (id & Hid & Hks & Hkt).
  assert (Hs : dict_mem (cell_map s) a = true)
    by (apply dict_mem_true; by rewrite Hks).
  assert (Ht : dict_mem (cell_map t) a = true)
    by (apply dict_mem_true; by rewrite Hkt).
  unfold sim_run. rewrite (evaluate_known n a s Hs), (evaluate_known n a t Ht).
  by apply (eval_sim n).
Qed.
End Within.

(** ** The trimming scenario (C3) *)

Lemma value_within_mono (K K' : list string) (v : value) :
  K ⊆ K' → value_within K v → value_within K' v.
Proof. intros HK Hv r Hr. by apply HK, Hv. Qed.

Lemma reads_within_mono (K K' : list string) (e : fexpr) :
  K ⊆ K' → reads_within K e → reads_within K' e.
Proof.
  intros HK. induction 1 as [v Hv | exc | a k Ha Hk IH | a k Ha Hk IH].
  - apply rw_ret. by apply (value_within_mono K).
  - apply rw_throw.
  - apply rw_cell; [by apply HK | done].
  - apply rw_range; [by apply HK | done].
Qed.

Lemma scenario_trim (n : nat) (base : state) (vA vB vC vD : value)
      (pB pC : string) (bB bC : fexpr) (fD : ExcelFormula) :
  canon Scenario.A1 = Scenario.A1 → canon Scenario.C1 = Scenario.C1 →
  has_sheet Scenario.C1 = true →
  let hp := Scenario.cells vA vB vC vD (Scenario.formula_B pB bB)
              (Scenario.formula_C pC bC) fD in
  trim_graph (S (S (S (S n)))) [Scenario.A1] [Scenario.C1]
             (Scenario.sheet base hp)
  = (Ok tt, Scenario.trimmed base hp)
  ∧ trim_graph (S (S (S (S n)))) [] [Scenario.C1] (Scenario.sheet base hp)
    = (Ok tt, Scenario.frozen base vA vB vC vD (Scenario.formula_B pB bB)
                (Scenario.formula_C pC bC) fD).
Proof.
  intros HA HC Hsheet hp. split.
  - rewrite trim_graph_unfold. cbn [map]. rewrite HA, HC.
    cbn [_gen_graph for_each]. rewrite Hsheet.
    vm_compute. reflexivity.
  - rewrite trim_graph_unfold. cbn [map]. rewrite HC.
    cbn [_gen_graph for_each]. rewrite Hsheet.
    vm_compute. reflexivity.
Qed.

(** C3: in the scenario (the output [C1] reads [B1], [B1] reads the input
    [A1], [D1] is unrelated), [trim_graph([A1], [C1])] returns, removes
    [D1] from the address map and keeps [A1], [B1] and [C1] with their
    objects untouched, and [evaluate(C1)] has the same outcome after
    trimming as before.  With no inputs, [B1] is needed only for its
    value: its formula is stripped and its value kept.  In general the
    steps of [trim_graph] after the build leave every object as it was or
    without its formula, with its value. *)
Theorem trim_scenario_keeps_chain_and_value (n : nat) (base : state)
        (vA vB vC vD : value) (pB pC : string) (bB bC : fexpr)
        (fD : ExcelFormula) :
  canon Scenario.A1 = Scenario.A1 → canon Scenario.C1 = Scenario.C1 →
  has_sheet Scenario.C1 = true →
  reads_within [Scenario.A1] bB → reads_within [Scenario.B1] bC →
  value_within [Scenario.A1; Scenario.B1; Scenario.C1] vA →
  value_within [Scenario.A1; Scenario.B1; Scenario.C1] vB →
  value_within [Scenario.A1; Scenario.B1; Scenario.C1] vC →
  let fB := Scenario.formula_B pB bB in
  let fC := Scenario.formula_C pC bC in
  let s := Scenario.sheet base (Scenario.cells vA vB vC vD fB fC fD) in
  (∃ s', trim_graph (S (S (S (S n)))) [Scenario.A1] [Scenario.C1] s
         = (Ok tt, s')
         ∧ cell_map s' = [(Scenario.C1, 2); (Scenario.B1, 1); (Scenario.A1, 0)]
         ∧ heap s' = heap s
         ∧ ∀ m, (evaluate m (AOne Scenario.C1) s').1
                = (evaluate m (AOne Scenario.C1) s).1)
  ∧ (∃ s', trim_graph (S (S (S (S n)))) [] [Scenario.C1] s = (Ok tt, s')
           ∧ cell_map s' = [(Scenario.C1, 2); (Scenario.B1, 1)]
           ∧ heap s' !! 1
             = Some (NCell {| c_address := Scenario.B1; c_value := vB;
                              c_formula := None; c_id := 2 |}))
  ∧ (∀ k ins outs t id x,
       heap t !! id = Some x →
       heap (trim_after_build k ins outs t).2 !! id = Some x
       ∨ heap (trim_after_build k ins outs t).2 !! id
         = Some (node_clear_formula x)).
Proof.
  intros HA HC Hsheet HbB HbC HvA HvB HvC fB fC s.
  destruct (scenario_trim n base vA vB vC vD pB pC bB bC fD HA HC Hsheet)
    as [Htrim Hfrozen].
  split; [| split].
  - eexists. split; [exact Htrim |]. split; [reflexivity |].
    split; [reflexivity |]. intros m.
    set (K := [Scenario.A1; Scenario.B1; Scenario.C1]).
    assert (HKA : [Scenario.A1] ⊆ K).
    { intros x Hx. apply list_elem_of_singleton in Hx as ->. by left. }
    assert (HKB : [Scenario.B1] ⊆ K).
    { intros x Hx. apply list_elem_of_singleton in Hx as ->.
      right. by left. }
    apply (evaluate_sim K [0; 1; 2]).
    { right. right. by left. }
    split; try reflexivity.
    + intros k Hk.
      apply elem_of_cons in Hk as [-> | Hk];
        [exists 0; split; [by left | by split] |].
      apply elem_of_cons in Hk as [-> | Hk];
        [exists 1; split; [right; by left | by split] |].
      apply elem_of_cons in Hk as [-> | Hk];
        [exists 2; split; [right; right; by left | by split] |].
      by apply elem_of_nil in Hk.
    + intros id Hid.
      apply elem_of_cons in Hid as [-> | Hid];
        [eexists; split; [reflexivity | by split] |].
      apply elem_of_cons in Hid as [-> | Hid];
        [eexists; split; [reflexivity |];
         split; [done | by apply (reads_within_mono [Scenario.A1])] |].
      apply elem_of_cons in Hid as [-> | Hid];
        [eexists; split; [reflexivity |];
         split; [done | by apply (reads_within_mono [Scenario.B1])] |].
      by apply elem_of_nil in Hid.
  - eexists. split; [exact Hfrozen |]. by split.
  - intros k ins outs t id x Hx.
    apply (tr_heap _ _ (trims_trim_after_build k ins outs t) _ _ Hx).
Qed.

(** ** Saving, loading and saving again (C4) *)

Section DictMore.
Context {V : Type}.
Implicit Types (d : list (string * V)) (k : string).

Lemma dict_get_None_keys d k : dict_get d k = None ↔ k ∉ dict_keys d.
Proof.
  unfold dict_keys. induction d as [| [k' v'] d IH]; simpl.
  - split; [intros _; apply not_elem_of_nil | done].
  - destruct (String.eqb k' k) eqn:E.
    + apply String.eqb_eq in E. subst. split; [done |].
      intros H. exfalso. apply H. by left.
    + apply String.eqb_neq in E. rewrite IH, not_elem_of_cons. naive_solver.
Qed.

Lemma dict_set_fresh d k (v : V) :
  dict_get d k = None → dict_set d k v = d ++ [(k, v)].
Proof.
  induction d as [| [k' v'] d IH]; simpl; [done |].
  destruct (String.eqb k' k); [done |]. intros H. by rewrite IH.
Qed.

Lemma dict_get_elem d k (v : V) :
  NoDup (dict_keys d) → (k, v) ∈ d → dict_get d k = Some v.
Proof.
  unfold dict_keys. induction d as [| [k' v'] d IH]; simpl; intros Hnd Hin.
  - by apply elem_of_nil in Hin.
  - apply NoDup_cons in Hnd as [Hk' Hnd].
    apply elem_of_cons in Hin as [[= <- <-] | Hin].
    + by rewrite String.eqb_refl.
    + destruct (String.eqb k' k) eqn:E; [| by apply IH].
      apply String.eqb_eq in E. subst. exfalso. apply Hk'.
      apply list_elem_of_fmap. by exists (k, v).
Qed.

Lemma dict_get_Some_elem d k (v : V) : dict_get d k = Some v → (k, v) ∈ d.
Proof.
  induction d as [| [k' v'] d IH]; simpl; [done |].
  destruct (String.eqb k' k) eqn:E.
  - apply String.eqb_eq in E. subst. intros [= ->]. by left.
  - intros H. right. by apply IH.
Qed.

Lemma dict_del_fresh d k : dict_get d k = None → dict_del d k = d.
Proof.
  induction d as [| [k' v'] d IH]; simpl; [done |].
  destruct (String.eqb k' k); [done |]. intros H. by rewrite IH.
Qed.

Lemma dict_del_app_last d k (v : V) :
  dict_get d k = None → dict_del (d ++ [(k, v)]) k = d.
Proof.
  induction d as [| [k' v'] d IH]; simpl.
  - by rewrite String.eqb_refl.
  - destruct (String.eqb k' k); [done |]. intros H. by rewrite IH.
Qed.

Lemma dict_get_app d d' k :
  dict_get (d ++ d') k
  = match dict_get d k with Some v => Some v | None => dict_get d' k end.
Proof.
  induction d as [| [k' v'] d IH]; simpl; [done |].
  by destruct (String.eqb k' k).
Qed.
End DictMore.

Lemma dict_of_pairs_NoDup (l : list (string * value)) :
  NoDup (dict_keys l) → dict_of_pairs l = l.
Proof.
  unfold dict_of_pairs.
  assert (H : ∀ acc, NoDup (dict_keys (acc ++ l)) →
                     foldl (λ d kv, dict_set d kv.1 kv.2) acc l = acc ++ l).
  { induction l as [| [k v] l IH]; intros acc Hnd; simpl.
    - by rewrite app_nil_r.
    - rewrite dict_set_fresh.
      + rewrite IH; rewrite <- app_assoc; done.
      + apply dict_get_None_keys. unfold dict_keys in *.
        rewrite fmap_app in Hnd. apply NoDup_app in Hnd as (_ & Hd & _).
        intros Hk. apply (Hd k Hk). by left. }
  intros Hnd. by apply (H []).
Qed.

Lemma startswith_nonempty (t : string) :
  startswith t "=" = true → String.eqb t EmptyString = false.
Proof. by destruct t. Qed.

(** what the importer answers for the address of a record *)
Lemma get_cell_record (recs : list (string * value)) (k : string) (v : value) :
  dict_get recs k = Some v →
  ∃ f0 v0, _get_cell recs k = CellData k f0 v0
           ∧ v0 = record_value v
           ∧ (if String.eqb f0 EmptyString then None
              else Some (compile_formula true f0)) = record_formula v.
Proof.
  intros Hk. unfold _get_cell, record_value, record_formula. rewrite Hk.
  destruct v as [| z | t | l | a]; try by (eexists _, _).
  destruct (startswith t "=") eqn:Ht.
  - exists t, VNone. by rewrite (startswith_nonempty _ Ht).
  - by exists EmptyString, (VStr t).
Qed.

Lemma importer_get_range_cell (n : nat) (recs : list (string * value))
      (k : string) :
  is_bounded_range k = false → is_range k = false →
  importer_get_range n recs k = Ok (_get_cell recs k).
Proof. intros Hb Hr. destruct n; cbn; by rewrite Hb, Hr. Qed.

(** ** Inputs of the trimmer that are not in the graph (C6) *)



End Proofs.

(** C9, the claim as stated fails: after unpickling the work queues are
    [None], not empty lists. *)
Lemma unpickled_queues_are_not_empty_lists :
  ¬ (graph_todos (__setstate__ (__getstate__ Demo.built) Demo.world0) = Some []
     ∧ range_todos (__setstate__ (__getstate__ Demo.built) Demo.world0)
       = Some []).
Proof. cbn. intros [H _]. discriminate. Qed.

(** C5 at work: the node of [S!B1] exists in the built demo graph. *)
Lemma gen_graph_existing_seed_noop_witness :
  ((SeedAddr "S!B1" = SeedAddr "S!B1"
    ∨ ∃ str, SeedAddr "S!B1" = SeedStr str ∧ canon str = "S!B1")
   ∧ ((has_sheet "S!B1" = true ∧ dict_mem (cell_map Demo.built) "S!B1" = true)
      ∨ (has_sheet "S!B1" = false
         ∧ ∃ xl sheet, excel Demo.built = Some xl
                       ∧ get_active_sheet_name xl = Ok sheet
                       ∧ dict_mem (cell_map Demo.built)
                                  (with_sheet "S!B1" sheet) = true)))
  ∧ _gen_graph 1 (SeedAddr "S!B1") false Demo.built = (Ok tt, Demo.built).
Proof.
  assert (H1 : SeedAddr "S!B1" = SeedAddr "S!B1"
               ∨ ∃ str, SeedAddr "S!B1" = SeedStr str ∧ canon str = "S!B1")
    by (left; reflexivity).
  assert (H2 : (has_sheet "S!B1" = true
                ∧ dict_mem (cell_map Demo.built) "S!B1" = true)
               ∨ (has_sheet "S!B1" = false
                  ∧ ∃ xl sheet, excel Demo.built = Some xl
                                ∧ get_active_sheet_name xl = Ok sheet
                                ∧ dict_mem (cell_map Demo.built)
                                           (with_sheet "S!B1" sheet) = true))
    by (left; split; vm_compute; reflexivity).
  split; [split; assumption |].
  exact (gen_graph_existing_seed_noop 0 (SeedAddr "S!B1") false Demo.built
           "S!B1" H1 H2).
Defined.




Lemma demo_built_graph_ok : graph_ok Demo.built.
Proof.
  intros u w H. vm_compute in H.
  repeat (apply elem_of_cons in H as [H | H];
          [injection H as -> ->; split; [reflexivity | vm_compute; lia] |]).
  by apply elem_of_nil in H.
Qed.

(** C2 at work on the built demo graph: [S!A1 → S!B1 → S!C1], all three
    cached, and [S!A1] set to 5. *)
Lemma set_value_invalidates_chain_witness :
  ∃ s', set_value 4 (AOne "S!A1") (VNum 5) Demo.built = (Ok tt, s')
        ∧ val s' 2 = Some (VNum 5)
        ∧ val s' 1 = Some VNone ∧ val s' 0 = Some VNone.
Proof.
  refine (set_value_invalidates_chain 4 Demo.built "S!A1" (VNum 5) 2 1 0
            (NCell {| c_address := "S!A1"; c_value := VNum 2;
                      c_formula := None; c_id := 3 |})
            (NCell {| c_address := "S!B1"; c_value := VNum 6;
                      c_formula := Some Demo.times3; c_id := 2 |})
            (NCell {| c_address := "S!C1"; c_value := VNum 7;
                      c_formula := Some Demo.plus1; c_id := 1 |})
            eq_refl demo_built_graph_ok eq_refl eq_refl eq_refl eq_refl
            eq_refl eq_refl eq_refl _ _ _ _ eq_refl _).
  - vm_compute. apply list_elem_of_further, list_elem_of_here.
  - vm_compute. apply list_elem_of_here.
  - lia.
  - lia.
  - vm_compute. lia.
Defined.


(** C7 at work: [S!F1] holds a formula that yields a list. *)
Lemma list_result_is_stored_as_VALUE_ERROR_witness :
  ∃ s', _evaluate 2 "S!F1" Demo.with_F1 = (Ok VALUE_ERROR, s')
        ∧ val s' 0 = Some VALUE_ERROR.
Proof.
  eapply (list_result_is_stored_as_VALUE_ERROR 1 Demo.with_F1 _ "S!F1" 0
            {| c_address := "S!F1"; c_value := VNone;
               c_formula := Some Demo.spill; c_id := 1 |}
            Demo.spill (VSeq [VNum 1; VNum 2])); reflexivity.
Defined.




Lemma on_num_reads_within (K : list string) (g : Z → Z) (v : value) :
  reads_within K (Demo.on_num g v).
Proof. destruct v; apply rw_ret; by intros r [=]. Qed.

(** C3 at work: the scenario with [A1 = 2], [B1 = A1 * 3], [C1 = B1 + 1]. *)
Lemma trim_scenario_keeps_chain_and_value_witness :
  ∃ s', trim_graph 4 [Scenario.A1] [Scenario.C1] Scenario.example = (Ok tt, s')
        ∧ cell_map s'
          = [(Scenario.C1, 2); (Scenario.B1, 1); (Scenario.A1, 0)]
        ∧ heap s' = heap Scenario.example
        ∧ ∀ m, (evaluate m (AOne Scenario.C1) s').1
               = (evaluate m (AOne Scenario.C1) Scenario.example).1.
Proof.
  refine (proj1 (trim_scenario_keeps_chain_and_value 0 Demo.world0
                   (VNum 2) VNone VNone VNone "_C_(A1) * 3" "_C_(B1) + 1"
                   Scenario.body_B Scenario.body_C Demo.spill
                   eq_refl eq_refl eq_refl _ _ _ _ _)).
  - apply rw_cell; [by left | apply on_num_reads_within].
  - apply rw_cell; [by left | apply on_num_reads_within].
  - by intros r [=].
  - by intros r [=].
  - by intros r [=].
Defined.

(** * Further properties of the engine *)

(** ** Strings: prefixes and suffixes *)

Lemma append_cons (c : Ascii.ascii) (a b : string) :
  String c a +:+ b = String c (a +:+ b).
Proof. reflexivity. Qed.

Lemma append_assoc (a b c : string) : (a +:+ b) +:+ c = a +:+ (b +:+ c).
Proof. induction a as [| x a IH]; [done |]. by rewrite !append_cons, IH. Qed.

Lemma append_nil_r (a : string) : a +:+ EmptyString = a.
Proof. induction a as [| x a IH]; [done |]. by rewrite append_cons, IH. Qed.

Lemma rev_app_append (a b : string) :
  String.rev_app a b = String.rev_app a EmptyString +:+ b.
Proof.
  revert b. induction a as [| c a IH]; intros b; [done |].
  cbn [String.rev_app]. rewrite (IH (String c b)), (IH (String c EmptyString)).
  by rewrite append_assoc.
Qed.

Lemma rev_append (a b : string) :
  String.rev (a +:+ b) = String.rev b +:+ String.rev a.
Proof.
  unfold String.rev. revert b. induction a as [| c a IH]; intros b.
  - by rewrite append_nil_r.
  - rewrite append_cons. cbn [String.rev_app].
    rewrite (rev_app_append (a +:+ b)), IH, (rev_app_append a (String c _)).
    by rewrite append_assoc.
Qed.

Lemma prefix_append (p r : string) : String.prefix p (p +:+ r) = true.
Proof.
  induction p as [| c p IH]; [by destruct r |].
  rewrite append_cons. cbn. by destruct (Ascii.ascii_dec c c).
Qed.

Lemma prefix_inv (p s : string) :
  String.prefix p s = true → ∃ r, s = p +:+ r.
Proof.
  revert s. induction p as [| c p IH]; intros s H.
  - by exists s.
  - destruct s as [| d s]; [done |]. cbn in H.
    destruct (Ascii.ascii_dec c d) as [<- |]; [| done].
    destruct (IH _ H) as [r ->]. by exists r.
Qed.

(** [(b + e).endswith(e)] *)
Lemma endswith_append (b e : string) : endswith (b +:+ e) e = true.
Proof. unfold endswith. rewrite rev_append. apply prefix_append. Qed.

(** a string that ends with [e] has its reverse start with the reverse
    of [e] *)
Lemma endswith_inv (s e : string) :
  endswith s e = true → ∃ r, String.rev s = String.rev e +:+ r.
Proof. apply prefix_inv. Qed.

Lemma endswith_empty (e : string) :
  e ≠ EmptyString → endswith EmptyString e = false.
Proof.
  intros He. unfold endswith. destruct (String.rev e) as [| c r] eqn:Hr; [| done].
  destruct e as [| c e]; [done |]. unfold String.rev in Hr. cbn in Hr.
  rewrite rev_app_append in Hr. by destruct (String.rev_app e EmptyString).
Qed.

(** ** File names and file types of [to_file] and [from_file] *)

Lemma str_in_elem_of (x : string) (l : list string) :
  str_in x l = true ↔ x ∈ l.
Proof.
  unfold str_in. rewrite existsb_exists, list_elem_of_In. split.
  - intros (y & Hy & Heq). apply String.eqb_eq in Heq. by subst.
  - intros Hx. exists x. split; [done |]. apply String.eqb_refl.
Qed.

Lemma list_filter_nil {A} (f : A → bool) (l : list A) :
  List.filter f l = [] ↔ ∀ x, x ∈ l → f x = false.
Proof.
  induction l as [| y l IH]; cbn.
  - split; [| done]. intros _ x Hx. by apply elem_of_nil in Hx.
  - destruct (f y) eqn:Hy.
    + split; [done |]. intros H. specialize (H y (list_elem_of_here _ _)).
      congruence.
    + rewrite IH. split.
      * intros H x Hx. apply elem_of_cons in Hx as [-> | Hx]; auto.
      * intros H x Hx. apply H. by right.
Qed.

Lemma list_find_Some {A} (f : A → bool) (l : list A) (x : A) :
  List.find f l = Some x → x ∈ l ∧ f x = true.
Proof. intros H. apply find_some in H as [? ?]. by rewrite list_elem_of_In. Qed.

Lemma list_find_None {A} (f : A → bool) (l : list A) :
  List.find f l = None → ∀ x, x ∈ l → f x = false.
Proof.
  intros H x Hx. apply (find_none _ _ H). by apply list_elem_of_In.
Qed.


Lemma has_extension_None (fn : string) :
  _filename_has_extension fn = None →
  ∀ e, e ∈ save_file_extensions → endswith fn e = false.
Proof. apply list_find_None. Qed.

(** a name that ends with [e] does not end with [e'] when the reverses
    of the two clash *)
Lemma endswith_clash (fn e e' : string) :
  endswith fn e = true →
  (∀ r, String.prefix (String.rev e') (String.rev e +:+ r) = false) →
  endswith fn e' = false.
Proof.
  intros He Hclash. destruct (endswith_inv _ _ He) as [r Hr].
  unfold endswith. rewrite Hr. apply Hclash.
Qed.

Lemma str_or_Some_ends (fn e sf : string) :
  e ≠ EmptyString → endswith fn e = true → str_or (Some fn) sf = fn.
Proof.
  intros He H. destruct fn as [| c fn]; [| done].
  by rewrite endswith_empty in H.
Qed.


Lemma list_filter_elem_of {A} (f : A → bool) (l : list A) (x : A) :
  x ∈ List.filter f l ↔ x ∈ l ∧ f x = true.
Proof. by rewrite !list_elem_of_In, filter_In. Qed.

(** the first element of a kind is the only one when no two differ *)
Lemma find_first_of_kind (f : string → bool) (l : list string) (x : string) :
  (∀ a b, a ∈ l → b ∈ l → f a = f b → a = b) →
  x ∈ l → f x = true → List.find f l = Some x.
Proof.
  intros Huniq Hx Hfx. destruct (List.find f l) as [y |] eqn:Hfind.
  - destruct (list_find_Some _ _ _ Hfind) as [Hy Hfy].
    f_equal. apply Huniq; congruence.
  - pose proof (list_find_None _ _ Hfind x Hx). congruence.
Qed.

(** X2.  For a file name without a known extension, [to_file] accepts a
    tuple of file types exactly when every type is a known one and no two
    different pickle types and no two different text types are among
    them; otherwise it raises [ValueError]. *)
Theorem to_file_accepts (sf : string) (ofn : option string) (l : list string) :
  _filename_has_extension (str_or ofn sf) = None →
  (∃ p, to_file_decide sf ofn (FTSeq l) = Ok p)
  ↔ (∀ ft, ft ∈ l → ft ∈ save_file_extensions)
    ∧ (∀ ft ft', ft ∈ l → ft' ∈ l →
                 startswith ft "p" = startswith ft' "p" → ft = ft').
Proof.
  intros Hnone. unfold to_file_decide. rewrite Hnone.
  destruct (List.filter (λ ft, negb (str_in ft save_file_extensions)) l)
    as [| u us] eqn:Hunk.
  2:{ split; [by intros [p Hp] |]. intros [Hknown _]. exfalso.
      assert (Hu : u ∈ List.filter
                     (λ ft, negb (str_in ft save_file_extensions)) l)
        by (rewrite Hunk; left).
      apply list_filter_elem_of in Hu as [Hu Hno].
      apply negb_true_iff in Hno.
      apply Hknown, str_in_elem_of in Hu. congruence. }
  assert (Hknown : ∀ ft, ft ∈ l → ft ∈ save_file_extensions).
  { intros ft Hft. apply str_in_elem_of.
    pose proof (proj1 (list_filter_nil _ _) Hunk ft Hft) as H.
    by apply negb_false_iff in H. }
  set (pe := List.find (λ ft, startswith ft "p") l).
  set (npe := List.find (λ ft, negb (startswith ft "p")) l).
  destruct (List.filter
              (λ ft, negb (str_in ft (option_list pe ++ option_list npe))) l)
    as [| x xs] eqn:Hex.
  - split; [intros _ | by eexists]. split; [done |].
    assert (Hin : ∀ ft, ft ∈ l → ft ∈ option_list pe ++ option_list npe).
    { intros ft Hft. apply str_in_elem_of.
      pose proof (proj1 (list_filter_nil _ _) Hex ft Hft) as H.
      by apply negb_false_iff in H. }
    assert (Hkind : ∀ ft, ft ∈ l →
      if startswith ft "p" then pe = Some ft else npe = Some ft).
    { intros ft Hft. specialize (Hin ft Hft).
      apply elem_of_app in Hin as [Hin | Hin].
      - destruct pe as [p |] eqn:Hpe; [| by apply elem_of_nil in Hin].
        apply list_elem_of_singleton in Hin as ->.
        destruct (list_find_Some _ _ _ Hpe) as [_ Hp]. by rewrite Hp.
      - destruct npe as [p |] eqn:Hnpe; [| by apply elem_of_nil in Hin].
        apply list_elem_of_singleton in Hin as ->.
        destruct (list_find_Some _ _ _ Hnpe) as [_ Hp].
        apply negb_true_iff in Hp. by rewrite Hp. }
    intros ft ft' Hft Hft' Hsame.
    pose proof (Hkind ft Hft) as H1. pose proof (Hkind ft' Hft') as H2.
    rewrite <- Hsame in H2.
    destruct (startswith ft "p"); congruence.
  - split; [by intros [p Hp] |]. intros [_ Huniq]. exfalso.
    assert (Hx : x ∈ List.filter
      (λ ft, negb (str_in ft (option_list pe ++ option_list npe))) l)
      by (rewrite Hex; left).
    apply list_filter_elem_of in Hx as [Hx Hno].
    apply negb_true_iff in Hno.
    assert (Hyes : str_in x (option_list pe ++ option_list npe) = true);
      [| congruence].
    apply str_in_elem_of, elem_of_app.
    destruct (startswith x "p") eqn:Hp.
    + left. unfold pe.
      rewrite (find_first_of_kind (λ ft, startswith ft "p") l x); auto.
      by left.
    + right. unfold npe.
      rewrite (find_first_of_kind (λ ft, negb (startswith ft "p")) l x).
      * by left.
      * intros a b Ha Hb Hab. apply Huniq; auto.
        by destruct (startswith a "p"), (startswith b "p").
      * done.
      * by rewrite Hp.
Qed.


Lemma length_append (a b : string) :
  String.length (a +:+ b) = String.length a + String.length b.
Proof. induction a as [| c a IH]; [done |]. rewrite append_cons. cbn. by rewrite IH. Qed.

Lemma substring_all (b : string) : String.substring 0 (String.length b) b = b.
Proof. induction b as [| c b IH]; [done |]. cbn. by rewrite IH. Qed.

Lemma substring_append (a b : string) (n : nat) :
  String.substring (String.length a) n (a +:+ b) = String.substring 0 n b.
Proof. induction a as [| c a IH]; [done |]. rewrite append_cons. by cbn. Qed.

(** [(base + '.' + e).rsplit('.', maxsplit=1)[0]] and [.split('.')[-1]]
    for an [e] without a dot *)
Lemma rsplit_dot_append (base e : string) :
  rsplit_dot e = None → rsplit_dot (base +:+ "." +:+ e) = Some base.
Proof.
  intros He. induction base as [| c base IH].
  - change (EmptyString +:+ "." +:+ e) with (String (Ascii.ascii_of_nat 46) e).
    cbn [rsplit_dot]. by rewrite He.
  - rewrite append_cons. cbn [rsplit_dot]. by rewrite IH.
Qed.

Lemma after_last_dot_append (base e : string) :
  rsplit_dot e = None → after_last_dot (base +:+ "." +:+ e) = e.
Proof.
  intros He. unfold after_last_dot. rewrite (rsplit_dot_append _ _ He).
  assert (Hs : base +:+ "." +:+ e = (base +:+ ".") +:+ e).
  { by rewrite append_assoc. }
  rewrite Hs.
  replace (S (String.length base)) with (String.length (base +:+ "."))
    by (rewrite length_append; cbn; lia).
  rewrite substring_append.
  replace (_ - _) with (String.length e)
    by (rewrite length_append; lia).
  apply substring_all.
Qed.

(** X4.  A file name that ends with [.yml], [.yaml] or [.json] is used as
    it is from saving to loading: [to_file] writes the text file under
    that very name (in JSON exactly for [.json]) and no pickle, whatever
    file types are asked for; [from_file] hands that name, with the same
    format, to [_from_text]; and [_from_text] opens that name. *)
Theorem text_file_written_is_file_read (sf base e : string)
        (fts : file_types_arg) (path_exists : string → bool) :
  e ∈ ["yml"; "yaml"; "json"] →
  let fn := base +:+ "." +:+ e in
  let is_json := String.eqb e "json" in
  to_file_decide sf (Some fn) fts
  = Ok {| tf_text_name := fn; tf_is_json := is_json; tf_pickle := None |}
  ∧ from_file_decide path_exists fn = Ok (LoadText fn is_json)
  ∧ text_file_name fn is_json = fn.
Proof.
  intros He fn is_json.
  assert (Hext : _filename_has_extension fn = Some e
                 ∧ endswith fn e = true ∧ text_file_name fn is_json = fn).
  { unfold _filename_has_extension, save_file_extensions, text_file_name,
      is_json, fn.
    repeat (apply elem_of_cons in He as [-> | He]);
      [| | | by apply elem_of_nil in He].
    - rewrite after_last_dot_append by done.
      cbn [List.find]. unfold endswith. rewrite !rev_append.
      split; [reflexivity | split; reflexivity].
    - rewrite after_last_dot_append by done.
      cbn [List.find]. unfold endswith. rewrite !rev_append.
      split; [reflexivity | split; reflexivity].
    - split; [| split].
      + cbn [List.find]. unfold endswith. rewrite !rev_append. reflexivity.
      + unfold endswith. rewrite !rev_append. reflexivity.
      + change (String.eqb "json" "json") with true. cbv iota.
        change (base +:+ "." +:+ "json") with (base +:+ ".json").
        by rewrite (endswith_append base ".json"). }
  destruct Hext as (Hext & Hend & Hname).
  assert (Hor : ∀ d, str_or (Some fn) d = fn).
  { intros d. unfold fn. destruct base; done. }
  split; [| split; [| done]].
  - unfold to_file_decide. rewrite Hor, Hext. clear Hext Hname Hor.
    revert Hend. unfold is_json. generalize fn. intros f.
    repeat (apply elem_of_cons in He as [-> | He]);
      [| | | by apply elem_of_nil in He]; intros Hend; cbn -[endswith];
      by rewrite Hend.
  - unfold from_file_decide. rewrite Hext. clear Hext Hname Hor.
    revert Hend. unfold is_json. generalize fn. intros f.
    repeat (apply elem_of_cons in He as [-> | He]);
      [| | | by apply elem_of_nil in He]; intros Hend; cbn -[endswith];
      by rewrite Hend.
Qed.

(** X5.  A file name that ends with [json] without the dot before it is
    taken for a JSON file name by [to_file] and by [from_file], but not by
    [_from_text]: [to_file] writes the JSON text under the name as given,
    and [from_file] makes [_from_text] open the name with [.json]
    appended. *)
Theorem undotted_json_name_is_not_read_back (sf fn : string)
        (fts : file_types_arg) (path_exists : string → bool) :
  endswith fn "json" = true → endswith fn ".json" = false →
  to_file_decide sf (Some fn) fts
  = Ok {| tf_text_name := fn; tf_is_json := true; tf_pickle := None |}
  ∧ from_file_decide path_exists fn = Ok (LoadText fn true)
  ∧ text_file_name fn true = fn +:+ ".json".
Proof.
  intros Hend Hdot.
  assert (Hext : _filename_has_extension fn = Some "json").
  { unfold _filename_has_extension, save_file_extensions. cbn [List.find].
    rewrite (endswith_clash fn "json" "pkl" Hend) by (intros; reflexivity).
    rewrite (endswith_clash fn "json" "pickle" Hend) by (intros; reflexivity).
    rewrite (endswith_clash fn "json" "yml" Hend) by (intros; reflexivity).
    rewrite (endswith_clash fn "json" "yaml" Hend) by (intros; reflexivity).
    by rewrite Hend. }
  assert (Hor : str_or (Some fn) sf = fn)
    by (by apply (str_or_Some_ends fn "json")).
  split; [| split].
  - unfold to_file_decide. rewrite Hor, Hext. cbn -[endswith].
    by rewrite Hend.
  - unfold from_file_decide. rewrite Hext. by rewrite Hend.
  - unfold text_file_name. by rewrite Hdot.
Qed.

(** ** What a method has kept or established when it returns *)

Section OnOk.
Context (P : state → Prop).

Lemma on_ok_bind {A B} (m : M A) (f : A → M B) :
  on_ok P m → (∀ a, on_ok P (f a)) → on_ok P (bind m f).
Proof.
  intros Hm Hf s b s' H HP.
  apply bind_inv in H as [(a & s1 & H1 & H2) | [(e & _ & ?) | [_ ?]]];
    try done.
  eapply Hf; [exact H2 |]. eapply Hm; [exact H1 | exact HP].
Qed.

Lemma establishes_on_ok {A} (m : M A) : establishes P m → on_ok P m.
Proof. intros H s a s' Hrun _. by eapply H. Qed.

Lemma establishes_bind {A B} (m : M A) (f : A → M B) :
  (∀ a, establishes P (f a)) → establishes P (bind m f).
Proof.
  intros Hf s b s' H.
  apply bind_inv in H as [(a & s1 & H1 & H2) | [(e & _ & ?) | [_ ?]]];
    try done.
  eapply Hf; exact H2.
Qed.

Lemma establishes_after {A B} (m : M A) (f : A → M B) :
  establishes P m → (∀ a, on_ok P (f a)) → establishes P (bind m f).
Proof.
  intros Hm Hf s b s' H.
  apply bind_inv in H as [(a & s1 & H1 & H2) | [(e & _ & ?) | [_ ?]]];
    try done.
  eapply Hf; [exact H2 |]. eapply Hm; exact H1.
Qed.

Lemma on_ok_ret {A} (a : A) : on_ok P (ret a).
Proof. intros s b s' [= _ <-]. done. Qed.

Lemma on_ok_raise {A} (e : exn) : on_ok P (@raise A e).
Proof. by intros s b s' H. Qed.

Lemma on_ok_out_of_fuel {A} : on_ok P (@out_of_fuel A).
Proof. by intros s b s' H. Qed.

Lemma establishes_raise {A} (e : exn) : establishes P (@raise A e).
Proof. by intros s b s' H. Qed.

Lemma establishes_out_of_fuel {A} : establishes P (@out_of_fuel A).
Proof. by intros s b s' H. Qed.

Lemma on_ok_for_each {A} (l : list A) (f : A → M unit) :
  (∀ x, on_ok P (f x)) → on_ok P (for_each l f).
Proof.
  intros Hf. induction l as [| x l IH]; cbn [for_each].
  - apply on_ok_ret.
  - apply on_ok_bind; auto.
Qed.

Lemma on_ok_map_M {A B} (l : list A) (f : A → M B) :
  (∀ x, on_ok P (f x)) → on_ok P (map_M l f).
Proof.
  intros Hf. induction l as [| x l IH]; cbn [map_M].
  - apply on_ok_ret.
  - apply on_ok_bind; [apply Hf |]. intros y.
    apply on_ok_bind; [apply IH |]. intros ys. apply on_ok_ret.
Qed.

(** a method that leaves alone what [P] depends on *)
Lemma on_ok_pres {A} (R : state → state → Prop) (m : M A) :
  (∀ s s', R s s' → P s → P s') → pres R m → on_ok P m.
Proof. intros HR Hm s a s' Hrun. specialize (Hm s). rewrite Hrun in Hm. by apply HR. Qed.
End OnOk.

(** ** The work queue of the builder *)

Lemma same_todos_refl (s : state) : same_todos s s.
Proof. done. Qed.

Lemma same_todos_trans (a b c : state) :
  same_todos a b → same_todos b c → same_todos a c.
Proof. unfold same_todos. congruence. Qed.

Lemma drained_same_todos (s s' : state) :
  same_todos s s' → drained s → drained s'.
Proof. unfold same_todos, drained. by intros ->. Qed.

Lemma same_todos_log_call (lvl : log_level) (msg : string) (args : list value) :
  pres same_todos (log_call lvl msg args).
Proof. intros s. unfold log_call. by destruct (log s). Qed.

Lemma same_todos_set_node_value (id : nat) (v : value) :
  pres same_todos (set_node_value id v).
Proof.
  intros s. unfold set_node_value, bind, get_node.
  by destruct (heap s !! id).
Qed.

Lemma on_ok_drained_reader {A} (m : M A) :
  pres same_todos m → on_ok drained m.
Proof. apply on_ok_pres. apply drained_same_todos. Qed.

Section More.
Context `{AA : AddressAlgebra} `{FE : FormulaFrontEnd}.

Lemma same_todos_begin_formula (c : _Cell) (f : ExcelFormula) :
  pres same_todos (begin_formula c f).
Proof.
  intros s. unfold begin_formula, bind, log_call, get_state, modify, ret.
  destruct (log s); [| done]. cbn. by destruct (eval s).
Qed.

(** When the builder or the evaluator returns, no node is left waiting in
    the work queue that was not waiting before. *)
Lemma block_drained (n : nat) :
  (∀ seed, on_ok drained (_gen_graph n seed false))
  ∧ establishes drained (_process_gen_graph n)
  ∧ establishes drained (connect_dependants n)
  ∧ (∀ a, on_ok drained (_evaluate_range n a))
  ∧ (∀ a, on_ok drained (_evaluate n a))
  ∧ (∀ e, on_ok drained (eval_formula n e)).
Proof.
  induction n as [| n (IHg & IHp & IHc & IHr & IHe & IHf)].
  { repeat apply conj; intros; first [apply on_ok_out_of_fuel
                                     | apply establishes_out_of_fuel]. }
  assert (Hlog : ∀ lvl msg args, on_ok drained (log_call lvl msg args)).
  { intros. apply on_ok_drained_reader, same_todos_log_call. }
  assert (Hget : ∀ id, on_ok drained (get_node id)).
  { intros. apply on_ok_drained_reader, pres_get_node, same_todos_refl. }
  assert (Hst : on_ok drained get_state).
  { apply on_ok_drained_reader, pres_get_state, same_todos_refl. }
  assert (Hlook : ∀ k, on_ok drained (lookup_cell_map k)).
  { intros. apply on_ok_drained_reader, pres_lookup_cell_map, same_todos_refl. }
  assert (Hset : ∀ id v, on_ok drained (set_node_value id v)).
  { intros. apply on_ok_drained_reader, same_todos_set_node_value. }
  split; [| split; [| split; [| split; [| split]]]].
  - (* _gen_graph *)
    intros seed.
    assert (Haddr : ∀ a, on_ok drained (
      seed' <- (if has_sheet a then ret a
                else xl <- get_excel ;;
                     sheet <- lift_res (get_active_sheet_name xl) ;;
                     ret (with_sheet a sheet)) ;;
      s1 <- get_state ;;
      if dict_mem (cell_map s1) seed' then ret tt
      else _make_cells seed' ;; _process_gen_graph n)).
    { intros a. apply on_ok_bind.
      - apply on_ok_drained_reader. intros s.
        destruct (has_sheet a); [done |].
        unfold bind, get_excel, lift_res. destruct (excel s); [| done].
        by destruct (get_active_sheet_name _).
      - intros seed'. apply on_ok_bind; [exact Hst |]. intros s1.
        destruct (dict_mem _ _); [apply on_ok_ret |].
        apply establishes_on_ok, establishes_bind. intros _. exact IHp. }
    destruct seed as [a | str | l |]; cbn [_gen_graph].
    + apply Haddr.
    + apply Haddr.
    + apply establishes_on_ok, establishes_bind. intros _. exact IHp.
    + apply on_ok_raise.
  - (* _process_gen_graph *)
    cbn [_process_gen_graph].
    apply establishes_after; [exact IHc |]. intros _.
    apply on_ok_bind; [exact Hst |]. intros s.
    apply on_ok_bind.
    { destruct (range_todos s); [apply on_ok_ret | apply on_ok_raise]. }
    intros todos. apply on_ok_bind.
    { apply on_ok_for_each. intros a.
      apply on_ok_bind; [apply IHr | intros; apply on_ok_ret]. }
    intros _. apply on_ok_bind.
    { by apply on_ok_drained_reader. }
    intros _. apply on_ok_bind; [exact Hst |]. intros s'. apply Hlog.
  - (* connect_dependants *)
    cbn [connect_dependants]. intros s a s' H.
    unfold bind at 1 in H. unfold get_state at 1 in H.
    destruct (graph_todos s) as [[| d0 l0] |] eqn:Hgt.
    + injection H as _ <-. unfold drained. by rewrite Hgt.
    + revert H. apply establishes_bind. intros _.
      apply establishes_bind. intros x.
      apply establishes_bind. intros _.
      apply establishes_bind. intros _. exact IHc.
    + injection H as _ <-. unfold drained. by rewrite Hgt.
  - (* _evaluate_range *)
    intros a. cbn [_evaluate_range].
    apply on_ok_bind; [exact Hst |]. intros s.
    apply on_ok_bind.
    { destruct (dict_get _ _); [apply on_ok_ret |].
      apply on_ok_bind.
      { apply on_ok_drained_reader. intros s0. by destruct (contains_char _ _). }
      intros _. apply on_ok_bind; [apply IHg | intros _; apply Hlook]. }
    intros cell_range. apply on_ok_bind; [apply Hget |]. intros x.
    apply on_ok_bind.
    { destruct (is_None _); [| apply on_ok_ret].
      apply on_ok_bind; [apply Hlog |]. intros _.
      apply on_ok_bind.
      { destruct x; [apply on_ok_raise | apply on_ok_ret]. }
      intros addresses. apply on_ok_bind; [| intros; apply Hset].
      apply on_ok_map_M. intros row.
      apply on_ok_bind; [| intros; apply on_ok_ret].
      apply on_ok_map_M. intros addr. apply IHe. }
    intros _. apply on_ok_bind; [apply Hget | intros; apply on_ok_ret].
  - (* _evaluate *)
    intros a. cbn [_evaluate].
    apply on_ok_bind; [apply Hlook |]. intros cell.
    apply on_ok_bind; [apply Hget |]. intros x.
    apply on_ok_bind.
    { destruct (is_None _); [| apply on_ok_ret].
      destruct x as [c | r].
      - destruct (c_formula c) as [f |]; [| apply on_ok_ret].
        destruct (negb _); [| apply on_ok_ret].
        apply on_ok_bind.
        { apply on_ok_drained_reader, same_todos_begin_formula. }
        intros _. apply on_ok_bind; [apply IHf |]. intros v.
        apply on_ok_bind; [apply Hlog | intros; apply Hset].
      - apply on_ok_bind; [apply IHr | intros; apply on_ok_ret]. }
    intros _. apply on_ok_bind; [apply Hget |]. intros x1.
    destruct (node_value x1); first [apply on_ok_ret | apply IHe].
  - (* eval_formula *)
    intros e. cbn [eval_formula].
    destruct e as [v | exc | a k | a k].
    + apply on_ok_ret.
    + apply on_ok_raise.
    + apply on_ok_bind; [apply IHe | intros; apply IHf].
    + apply on_ok_bind; [apply IHr | intros; apply IHf].
Qed.

(** X6.  When [_process_gen_graph] returns, both work queues are empty:
    no node waits to be connected to its precedents and no range waits to
    be evaluated, also when evaluating the ranges made the builder run
    again. *)
Theorem process_gen_graph_empties_the_queues (n : nat) (s s' : state) :
  _process_gen_graph n s = (Ok tt, s') →
  drained s' ∧ range_todos s' = Some [].
Proof.
  intros H. split.
  { destruct (block_drained n) as (_ & Hp & _). by eapply Hp. }
  destruct n as [| n]; [done |]. cbn [_process_gen_graph] in H.
  apply bind_inv in H as [([] & s1 & _ & H) | [(e & _ & ?) | [_ ?]]];
    try done.
  apply bind_inv in H as [(s1' & s2 & _ & H) | [(e & _ & ?) | [_ ?]]];
    try done.
  apply bind_inv in H as [(todos & s3 & _ & H) | [(e & _ & ?) | [_ ?]]];
    try done.
  apply bind_inv in H as [([] & s4 & _ & H) | [(e & _ & ?) | [_ ?]]];
    try done.
  apply bind_inv in H as [([] & s5 & H5 & H) | [(e & _ & ?) | [_ ?]]];
    try done.
  injection H5 as <-.
  apply bind_inv in H as [(s6 & s7 & H6 & H) | [(e & _ & ?) | [_ ?]]];
    try done.
  injection H6 as _ <-.
  unfold log_call in H. cbn in H. destruct (log s4); [| done].
  by injection H as <-.
Qed.

(** ** A compiler without its data source *)

(** X7.  A compiler that has lost its data source (one loaded from a text
    file or from a pickle) cannot build nodes: [evaluate] on an address
    that has no node, under the name given or under its canonical form,
    raises [AttributeError] and leaves the compiler as it was. *)
Theorem evaluate_unknown_address_without_source (n : nat) (a : string)
        (s : state) :
  excel s = None →
  canon (canon a) = canon a →
  dict_get (cell_map s) a = None →
  dict_get (cell_map s) (canon a) = None →
  evaluate (S (S n)) (AOne a) s = (Raise (AttributeError "excel"), s).
Proof.
  intros Hxl Hcanon Ha Hca. cbn [evaluate].
  unfold bind at 1. unfold get_state at 1.
  rewrite (proj2 (dict_mem_false _ _) Ha).
  unfold bind at 1. destruct (has_sheet (canon a)) eqn:Hsheet.
  - unfold ret at 1. unfold bind at 1. unfold get_state at 1.
    rewrite (proj2 (dict_mem_false _ _) Hca).
    unfold bind at 1. cbn [_gen_graph]. rewrite Hcanon, Hsheet.
    unfold bind at 1. unfold ret at 1. unfold bind at 1. unfold get_state at 1.
    rewrite (proj2 (dict_mem_false _ _) Hca).
    unfold bind at 1. unfold _make_cells.
    unfold bind at 1. unfold get_state at 1.
    unfold bind at 1. rewrite (proj2 (dict_mem_false _ _) Hca).
    cbn [negb assert]. unfold ret at 1.
    unfold bind at 1. unfold get_excel at 1. by rewrite Hxl.
  - unfold bind at 1. unfold get_excel at 1. by rewrite Hxl.
Qed.

(** ** [evaluate] *)

(** X8.  Whatever its outcome, [evaluate] only extends the compiler: the
    objects stay and keep their address and formula, a value that was
    there is not replaced, a cell without Python code is not touched at
    all, the dependency graph only grows, and (with a data source that
    answers under the address it is asked for) every address keeps its
    node. *)
Theorem evaluate_only_extends (n : nat) :
  ∀ (a : addr_arg) (s : state), ext s (evaluate n a s).2.
Proof.
  induction n as [| n IH]; intros a; cbn [evaluate].
  { apply mono_out_of_fuel. }
  destruct (block_mono n) as (IHg & _ & _ & _ & IHe & _).
  destruct a as [a | l].
  - apply mono_bind; [apply mono_get_state |]. intros s.
    destruct (dict_mem _ _); [apply IHe |].
    apply mono_bind.
    { destruct (has_sheet _); [apply mono_ret |].
      apply mono_bind; [apply mono_get_excel |]. intros xl.
      apply mono_bind; [apply mono_lift_res | intros; apply mono_ret]. }
    intros address. apply mono_bind; [apply mono_get_state |]. intros s1.
    apply mono_bind; [| intros; apply IHe].
    destruct (dict_mem _ _); [apply mono_ret | apply IHg].
  - apply mono_bind; [| intros; apply mono_ret].
    apply mono_map_M. intros c. exact (IH c).
Qed.



(** ** [set_value] and then [evaluate] *)

Lemma cached_insert_le (hp : list node) (id : nat) (y : node) :
  (cached (<[id := y]> hp) ≤ S (cached hp))%nat.
Proof.
  unfold cached. revert id.
  induction hp as [| x hp IH]; intros [| id]; simpl; try lia.
  - destruct (negb (is_None (node_value y))), (negb (is_None (node_value x)));
      simpl; lia.
  - specialize (IH id). destruct (negb (is_None (node_value x))); simpl; lia.
Qed.

(** [evaluate] on a node that holds a value returns it and changes
    nothing *)
Lemma evaluate_cached (m : nat) (s : state) (a : string) (id : nat)
      (x : node) :
  dict_get (cell_map s) a = Some id → heap s !! id = Some x →
  node_value x ≠ VNone → (∀ r, node_value x ≠ VRef r) →
  evaluate (S (S m)) (AOne a) s = (Ok (node_value x), s).
Proof.
  intros Hk Hx Hv Hr. cbn [evaluate].
  unfold bind at 1. unfold get_state at 1.
  assert (Hmem : dict_mem (cell_map s) a = true).
  { apply dict_mem_true. by rewrite Hk. }
  rewrite Hmem, _evaluate_unfold.
  bind_ok (lookup_cell_map_Some _ _ _ Hk).
  bind_ok (get_node_Some _ _ _ Hx).
  unfold evaluate_compute.
  assert (HN : is_None (node_value x) = false) by (by destruct (node_value x)).
  rewrite HN. unfold bind at 1. unfold ret at 1. unfold evaluate_return.
  bind_ok (get_node_Some _ _ _ Hx).
  destruct (node_value x) eqn:E; try done. by destruct (Hr a0).
Qed.

(** X10.  What [set_value] stores is what [evaluate] returns: after
    [set_value(a, v)], for a scalar [v] other than [None], the node of
    [a] holds [v], and [evaluate(a)] returns [v] and changes nothing
    (also when the node has a formula, which is not run). *)
Theorem set_value_then_evaluate (n m : nat) (s : state) (a : string)
        (id : nat) (v : value) :
  log s = Some tt → graph_ok s →
  dict_get (cell_map s) a = Some id → (id < length (heap s))%nat →
  list_like v = false → v ≠ VNone → (∀ r, v ≠ VRef r) →
  (S (cached (heap s)) < n)%nat →
  ∃ s', set_value n (AOne a) v s = (Ok tt, s')
        ∧ val s' id = Some v
        ∧ evaluate (S (S m)) (AOne a) s' = (Ok v, s').
Proof.
  intros Hlog Hg Hk Hid Hlist Hv Hr Hfuel.
  destruct (lookup_lt_is_Some_2 _ _ Hid) as [x Hx].
  assert (Hmem : dict_mem (cell_map s) a = true).
  { apply dict_mem_true. by rewrite Hk. }
  assert (Hset : set_value n (AOne a) v s = set_value_at n a v s).
  { unfold set_value. rewrite Hlist. unfold bind at 1. unfold get_state at 1.
    by rewrite Hmem. }
  rewrite Hset. clear Hset. unfold set_value_at.
  bind_ok (lookup_cell_map_Some _ _ _ Hk).
  bind_ok (get_node_Some _ _ _ Hx).
  destruct (value_eqb (node_value x) v) eqn:Heq; cbn [negb].
  { apply value_eqb_eq in Heq. subst v. exists s. split; [done |].
    split; [unfold val; by rewrite Hx |]. by apply (evaluate_cached m s a id x). }
  assert (Hfirst : ∃ s0, (if is_None (node_value x) then set_node_value id v
                          else ret tt) s = (Ok tt, s0)
                         ∧ log s0 = Some tt ∧ graph_ok s0
                         ∧ cell_map s0 = cell_map s
                         ∧ length (heap s0) = length (heap s)
                         ∧ (cached (heap s0) ≤ S (cached (heap s)))%nat).
  { destruct (is_None (node_value x)).
    - rewrite (set_node_value_Some _ _ _ _ Hx). eexists. split; [done |].
      cbn. split; [done |]. split.
      { intros u w He. destruct (Hg u w He) as [? ?]. split; [done |].
        cbn [heap set_heap]. by rewrite length_insert. }
      split; [done |]. cbn [heap set_heap].
      split; [by rewrite length_insert |].
      apply cached_insert_le.
    - exists s. split; [done |]. split; [done |]. split; [done |].
      split; [done |]. split; [done | lia]. }
  destruct Hfirst as (s0 & Hrun0 & Hlog0 & Hg0 & Hmap0 & Hlen0 & Hc0).
  bind_ok Hrun0.
  destruct (reset_spec n s0 id Hlog0 Hg0) as (s1 & Hrun1 & R & _);
    [by rewrite Hlen0 | lia |].
  bind_ok Hrun1.
  assert (Hid1 : id < length (heap s1))
    by (by rewrite (rs_len _ _ R), Hlen0).
  destruct (lookup_lt_is_Some_2 _ _ Hid1) as [x1 Hx1].
  rewrite (set_node_value_Some _ _ _ _ Hx1).
  eexists. split; [reflexivity |].
  set (s' := set_heap _ s1).
  assert (Hx' : heap s' !! id = Some (node_set_value x1 v)).
  { unfold s'. cbn. by apply list_lookup_insert_eq. }
  split; [unfold val; rewrite Hx'; cbn; by rewrite node_value_set |].
  replace (Ok v) with (Ok (node_value (node_set_value x1 v)))
    by (by rewrite node_value_set).
  apply (evaluate_cached m s' a id).
  - unfold s'. cbn. by rewrite (rs_map _ _ R), Hmap0.
  - exact Hx'.
  - by rewrite node_value_set.
  - intros r. rewrite node_value_set. apply Hr.
Qed.

(** ** What [trim_graph] keeps in the address map *)

Section Walks.
Context (R : state → state → Prop).
Context (Rrefl : ∀ s, R s s) (Rtrans : ∀ a b c, R a b → R b c → R a c).
Context (Rlog : ∀ lvl msg args, pres R (log_call lvl msg args)).
Context (Rheap : ∀ s hp, R s (set_heap hp s)).

Lemma walks_walk_inputs (n : nat) (ins : list string) (nc : gset string) :
  pres R (walk_inputs n ins nc).
Proof using Rrefl Rtrans Rlog.
  revert nc. induction ins as [| addr rest IH]; intros nc; cbn [walk_inputs].
  - by apply pres_ret.
  - apply pres_bind; [done | by apply pres_get_state |].
    intros s. destruct (dict_get (cell_map s) addr) as [cell |].
    + destruct (walk_dependents n (dep_graph s) (heap s) nc cell)
        as [[[] | [] |] nc']; try apply IH;
        first [by apply pres_ret | by apply pres_raise
              | by apply pres_out_of_fuel].
    + apply pres_bind; [done | apply Rlog |]. intros _. apply IH.
Qed.

Lemma walks_find_needed_cells (n : nat) (ins outs : list string) :
  pres R (find_needed_cells n ins outs).
Proof using Rrefl Rtrans Rlog.
  unfold find_needed_cells.
  apply pres_bind; [done | apply walks_walk_inputs |].
  intros [nc [[addr exc] |]].
  - apply pres_bind; [done | | intros _; by apply pres_ret].
    destruct (negb _); [by apply pres_raise | by apply pres_ret].
  - apply pres_bind; [done | | intros _]; by apply pres_ret.
Qed.

Lemma walks_walk_precedents (n : nat) :
  ∀ cell sets, pres R (walk_precedents n cell sets).
Proof using Rrefl Rtrans Rlog Rheap.
  induction n as [| n IH]; intros cell sets; cbn [walk_precedents].
  - by apply pres_out_of_fuel.
  - apply pres_bind; [done | by apply pres_get_node |].
    intros x. generalize (node_needed_addresses x). intros children.
    revert sets. induction children as [| child rest IHc]; intros sets.
    + by apply pres_ret.
    + destruct sets as [needed processed].
      destruct (bool_decide (child ∈ processed)); [apply IHc |].
      apply pres_bind; [done | by apply pres_lookup_cell_map |].
      intros child_cell.
      destruct (bool_decide (child ∈ needed) || contains_char _ child).
      * apply pres_bind; [done | apply IH |]. intros sets'. apply IHc.
      * apply pres_bind; [done | by apply pres_get_node |]. intros y.
        apply pres_bind; [done | intros s; apply Rheap |]. intros _.
        apply pres_bind; [done | apply Rlog |]. intros _. apply IHc.
Qed.

Lemma walks_walk_outputs (n : nat) (outs : list string) :
  ∀ sets, pres R (walk_outputs n outs sets).
Proof using Rrefl Rtrans Rlog Rheap.
  induction outs as [| addr rest IH]; intros sets; cbn [walk_outputs].
  - by apply pres_ret.
  - apply pres_bind; [done | by apply pres_lookup_cell_map |].
    intros cell.
    apply pres_bind; [done | apply walks_walk_precedents |].
    intros sets'. apply IH.
Qed.

(** step 4 of [trim_graph] *)
Lemma walks_buried_inputs (ins : list string) :
  pres R (for_each ins (λ addr,
    s <- get_state ;;
    match dict_get (cell_map s) addr with
    | Some cell =>
        x <- get_node cell ;;
        if has_formula x
        then log_call INFO (addr +:+ " is not a leaf node") []
        else ret tt
    | None => ret tt
    end)).
Proof using Rrefl Rtrans Rlog.
  apply pres_for_each; [done | done |]. intros addr.
  apply pres_bind; [done | by apply pres_get_state |].
  intros s. destruct (dict_get (cell_map s) addr) as [cell |];
    [| by apply pres_ret].
  apply pres_bind; [done | by apply pres_get_node |].
  intros x. destruct (has_formula x); [apply Rlog | by apply pres_ret].
Qed.
End Walks.

Lemma same_map_refl (s : state) : same_map s s.
Proof. done. Qed.

Lemma same_map_trans (a b c : state) :
  same_map a b → same_map b c → same_map a c.
Proof. unfold same_map. congruence. Qed.

Lemma same_map_log_call (lvl : log_level) (msg : string) (args : list value) :
  pres same_map (log_call lvl msg args).
Proof. intros s. unfold log_call. by destruct (log s). Qed.

Lemma same_map_set_heap (s : state) (hp : list node) :
  same_map s (set_heap hp s).
Proof. done. Qed.

(** the needed cells only grow while the precedents are walked *)
Lemma walk_precedents_grows (n : nat) :
  ∀ cell sets s sets' s',
    walk_precedents n cell sets s = (Ok sets', s') → sets.1 ⊆ sets'.1.
Proof.
  induction n as [| n IH]; intros cell sets s sets' s' H; [done |].
  cbn [walk_precedents] in H.
  apply bind_inv in H as [(x & s0 & _ & H) | [(e & _ & ?) | [_ ?]]];
    try done.
  revert sets s0 H. generalize (node_needed_addresses x). intros children.
  induction children as [| child rest IHc]; intros sets s0 H.
  - by injection H as <- _.
  - destruct sets as [needed processed].
    destruct (bool_decide (child ∈ processed)); [by apply (IHc _ _ H) |].
    apply bind_inv in H as [(cc & s1 & _ & H) | [(e & _ & ?) | [_ ?]]];
      try done.
    destruct (bool_decide (child ∈ needed) || contains_char _ child).
    + apply bind_inv in H as [(sets1 & s2 & H1 & H) | [(e & _ & ?) | [_ ?]]];
        try done.
      apply IH in H1. apply IHc in H. cbn in *. set_solver.
    + apply bind_inv in H as [(y & s2 & _ & H) | [(e & _ & ?) | [_ ?]]];
        try done.
      apply bind_inv in H as [([] & s3 & _ & H) | [(e & _ & ?) | [_ ?]]];
        try done.
      apply bind_inv in H as [([] & s4 & _ & H) | [(e & _ & ?) | [_ ?]]];
        try done.
      apply IHc in H. cbn in *. set_solver.
Qed.

(** when the walk from the outputs returns, every output had its node,
    and the needed cells have only grown *)
Lemma walk_outputs_inv (n : nat) (outs : list string) :
  ∀ sets s sets' s',
    walk_outputs n outs sets s = (Ok sets', s') →
    sets.1 ⊆ sets'.1
    ∧ ∀ o, o ∈ outs → is_Some (dict_get (cell_map s) o).
Proof.
  induction outs as [| addr rest IH]; intros sets s sets' s' H;
    cbn [walk_outputs] in H.
  - injection H as <- _. split; [done |]. intros o Ho.
    by apply elem_of_nil in Ho.
  - apply bind_inv in H as [(cell & s0 & Hl & H) | [(e & _ & ?) | [_ ?]]];
      try done.
    unfold lookup_cell_map in Hl.
    destruct (dict_get (cell_map s) addr) as [cell' |] eqn:Hk; [| done].
    injection Hl as -> <-.
    apply bind_inv in H as [(sets1 & s1 & H1 & H) | [(e & _ & ?) | [_ ?]]];
      try done.
    pose proof (walks_walk_precedents same_map same_map_refl same_map_trans
                  same_map_log_call same_map_set_heap n cell sets s) as Hm.
    rewrite H1 in Hm. unfold same_map in Hm. cbn in Hm.
    apply walk_precedents_grows in H1.
    destruct (IH _ _ _ _ H) as [Hsub Hin]. split; [set_solver |].
    intros o Ho. apply elem_of_cons in Ho as [-> | Ho].
    + by rewrite Hk.
    + rewrite <- Hm. by apply Hin.
Qed.

Lemma foldl_union_grows (outs : list string) (nc : gset string) :
  nc ⊆ foldl (λ nc addr, {[addr]} ∪ nc) nc outs
  ∧ ∀ o, o ∈ outs → o ∈ foldl (λ nc addr, {[addr]} ∪ nc) nc outs.
Proof.
  revert nc. induction outs as [| a outs IH]; intros nc; cbn [foldl].
  - split; [done |]. intros o Ho. by apply elem_of_nil in Ho.
  - destruct (IH ({[a]} ∪ nc)) as [Hsub Hin]. split; [set_solver |].
    intros o Ho. apply elem_of_cons in Ho as [-> | Ho]; [set_solver | auto].
Qed.

(** the outputs are among the needed cells that [find_needed_cells]
    returns *)
Lemma find_needed_cells_outputs (n : nat) (ins outs : list string)
      (s s' : state) (needed : gset string) :
  find_needed_cells n ins outs s = (Ok needed, s') →
  ∀ o, o ∈ outs → o ∈ needed.
Proof.
  unfold find_needed_cells. intros H.
  apply bind_inv in H as [([nc caught] & s0 & _ & H) | [(e & _ & ?) | [_ ?]]];
    try done.
  apply bind_inv in H as [([] & s1 & _ & H) | [(e & _ & ?) | [_ ?]]];
    try done.
  injection H as <- _. apply foldl_union_grows.
Qed.

(** step 5 of [trim_graph] leaves the entries of the needed cells *)
Lemma remove_unneeded_keeps (needed : gset string) (l : list string)
      (k : string) :
  k ∈ needed → (∀ a, a ∈ l → a ∉ needed) →
  ∀ s, ∃ s', for_each l (λ addr,
               modify (λ s, set_cell_map (dict_del (cell_map s) addr) s)) s
             = (Ok tt, s')
             ∧ dict_get (cell_map s') k = dict_get (cell_map s) k.
Proof.
  intros Hk. induction l as [| a l IH]; intros Hl s.
  - by exists s.
  - cbn [for_each]. unfold bind at 1. unfold modify at 1.
    destruct (IH (λ b Hb, Hl b (list_elem_of_further _ _ _ Hb))
                 (set_cell_map (dict_del (cell_map s) a) s)) as (s' & Hrun & Hget).
    exists s'. split; [done |]. rewrite Hget. cbn.
    apply dict_get_del_ne. intros ->. apply (Hl k); [by left | done].
Qed.

(** X11.  When [trim_graph] returns, every output address still has the
    node that the build step gave it: the outputs are needed even when
    nothing connects them to the inputs, and only entries of cells that
    are not needed are deleted from the address map. *)
Theorem trim_graph_keeps_the_outputs (n : nat) (ins outs : list string)
        (s s' : state) :
  trim_graph n ins outs s = (Ok tt, s') →
  ∃ s1, _gen_graph n (SeedIter (map SeedAddr (map canon outs))) false s
        = (Ok tt, s1)
        ∧ ∀ o, o ∈ outs →
               ∃ id, dict_get (cell_map s1) (canon o) = Some id
                     ∧ dict_get (cell_map s') (canon o) = Some id.
Proof.
  rewrite trim_graph_unfold. intros H.
  apply bind_inv in H as [([] & s1 & Hgen & H) | [(e & _ & ?) | [_ ?]]];
    try done.
  exists s1. split; [done |]. intros o Ho.
  assert (Hco : canon o ∈ map canon outs).
  { apply list_elem_of_fmap. by exists o. }
  unfold trim_after_build in H.
  apply bind_inv in H as [(needed & s2 & Hfind & H) | [(e & _ & ?) | [_ ?]]];
    try done.
  apply bind_inv in H as [(sets & s3 & Hwalk & H) | [(e & _ & ?) | [_ ?]]];
    try done.
  apply bind_inv in H as [([] & s4 & Hfour & H) | [(e & _ & ?) | [_ ?]]];
    try done.
  apply bind_inv in H as [(s4' & s5 & Hst & H) | [(e & _ & ?) | [_ ?]]];
    try done.
  injection Hst as -> ->.
  pose proof (walks_find_needed_cells same_map same_map_refl same_map_trans
                same_map_log_call n (map canon ins) (map canon outs) s1) as M12.
  rewrite Hfind in M12.
  pose proof (walks_walk_outputs same_map same_map_refl same_map_trans
                same_map_log_call same_map_set_heap n (map canon outs)
                (needed, ∅) s2) as M23.
  rewrite Hwalk in M23.
  pose proof (walks_buried_inputs same_map same_map_refl same_map_trans
                same_map_log_call (map canon ins) s3) as M34.
  rewrite Hfour in M34. unfold same_map in *. cbn in M12, M23, M34.
  destruct (walk_outputs_inv _ _ _ _ _ _ Hwalk) as [Hsub Hin].
  pose proof (find_needed_cells_outputs _ _ _ _ _ _ Hfind _ Hco) as Hneeded.
  destruct (Hin _ Hco) as [id Hid].
  exists id. split; [by rewrite <- M12 |].
  destruct (remove_unneeded_keeps sets.1
              (filter (λ addr, addr ∉ sets.1) (dict_keys (cell_map s5)))
              (canon o)) with (s := s5) as (s6 & Hrun & Hget).
  { cbn in Hsub. set_solver. }
  { intros a Ha. by apply list_elem_of_filter in Ha as [? _]. }
  rewrite Hrun in H. injection H as <-.
  by rewrite Hget, M34, M23.
Qed.

(** ** The records of a saved document *)

Lemma elem_of_dict_set {V} (d : list (string * V)) (k : string) (v : V)
      (x : string * V) :
  x ∈ dict_set d k v → x ∈ d ∨ x = (k, v).
Proof.
  induction d as [| [k' v'] d IH]; cbn [dict_set].
  - intros H. apply list_elem_of_singleton in H. by right.
  - destruct (String.eqb k' k) eqn:E.
    + apply String.eqb_eq in E as ->. intros H.
      apply elem_of_cons in H as [-> | H]; [by right | left; by right].
    + intros H. apply elem_of_cons in H as [-> | H]; [left; by left |].
      destruct (IH H) as [? | ?]; [left; by right | by right].
Qed.

Lemma dict_keys_dict_set {V} (d : list (string * V)) (k : string) (v : V)
      (k' : string) :
  k' ∈ dict_keys (dict_set d k v) ↔ k' = k ∨ k' ∈ dict_keys d.
Proof.
  unfold dict_keys. induction d as [| [k0 v0] d IH]; cbn [dict_set fmap list_fmap].
  - rewrite list_elem_of_singleton. cbn. split; [by left | intros [? | H]; [done |]].
    by apply elem_of_nil in H.
  - destruct (String.eqb k0 k) eqn:E.
    + apply String.eqb_eq in E as ->. cbn. rewrite !elem_of_cons. tauto.
    + cbn. rewrite !elem_of_cons, IH. tauto.
Qed.

Lemma elem_of_dict_of_pairs (l : list (string * value)) (x : string * value) :
  x ∈ dict_of_pairs l → x ∈ l.
Proof.
  unfold dict_of_pairs.
  assert (H : ∀ acc, x ∈ foldl (λ d kv, dict_set d kv.1 kv.2) acc l →
                     x ∈ acc ∨ x ∈ l).
  { induction l as [| [k v] l IH]; intros acc; cbn [foldl]; [by left |].
    intros Hx. destruct (IH _ Hx) as [Hx' | Hx']; [| right; by right].
    apply elem_of_dict_set in Hx' as [? | ->]; [by left | right; by left]. }
  intros Hx. destruct (H [] Hx) as [Hn | ?]; [| done].
  by apply elem_of_nil in Hn.
Qed.

Lemma dict_keys_dict_of_pairs (l : list (string * value)) (k : string) :
  k ∈ dict_keys (dict_of_pairs l) ↔ k ∈ dict_keys l.
Proof.
  unfold dict_of_pairs.
  assert (H : ∀ acc, k ∈ dict_keys (foldl (λ d kv, dict_set d kv.1 kv.2) acc l)
                     ↔ k ∈ dict_keys acc ∨ k ∈ dict_keys l).
  { induction l as [| [k0 v0] l IH]; intros acc; cbn [foldl].
    - unfold dict_keys at 3. cbn. rewrite elem_of_nil. tauto.
    - rewrite IH, dict_keys_dict_set. unfold dict_keys at 4. cbn.
      rewrite elem_of_cons. fold (dict_keys l). tauto. }
  rewrite H. unfold dict_keys at 1. cbn. rewrite elem_of_nil. tauto.
Qed.

Lemma elem_of_sorted_insert (x y : string * value) (l : list (string * value)) :
  y ∈ sorted_insert x l ↔ y = x ∨ y ∈ l.
Proof.
  induction l as [| z l IH]; cbn [sorted_insert].
  - rewrite list_elem_of_singleton, elem_of_nil. tauto.
  - destruct (sort_key_le _ _); rewrite !elem_of_cons; [rewrite IH |]; tauto.
Qed.

Lemma elem_of_sorted (y : string * value) (l : list (string * value)) :
  y ∈ sorted l ↔ y ∈ l.
Proof.
  unfold sorted.
  assert (H : ∀ acc, y ∈ foldl (λ acc x, sorted_insert x acc) acc l
                     ↔ y ∈ acc ∨ y ∈ l).
  { induction l as [| x l IH]; intros acc; cbn [foldl].
    - rewrite elem_of_nil. tauto.
    - rewrite IH, elem_of_sorted_insert, elem_of_cons. tauto. }
  rewrite H, elem_of_nil. tauto.
Qed.

(** X12.  The records [_to_text] writes are the cells of the address
    map: there is a record under an address exactly when the address has
    a node that is a cell (a range is never written), and the record of
    a cell whose formula has Python code is that code behind an [=] sign
    (its value is not written), that of any other cell is its value. *)
Theorem text_records_are_the_cells (s : state) :
  (∀ k, k ∈ dict_keys (text_cell_map s)
        ↔ ∃ id c, (k, id) ∈ cell_map s ∧ heap s !! id = Some (NCell c))
  ∧ (∀ k v, (k, v) ∈ text_cell_map s →
            ∃ id c, (k, id) ∈ cell_map s ∧ heap s !! id = Some (NCell c)
                    ∧ v = if has_python_code (NCell c)
                          then VStr ("=" +:+ default EmptyString
                                               (node_python_code (NCell c)))
                          else c_value c).
Proof.
  unfold text_cell_map.
  set (f := λ '(addr, cell),
         match heap s !! cell with
         | Some x => if serialize x then Some (addr, cell_value x) else None
         | None => None
         end).
  assert (Hf : ∀ k v, (k, v) ∈ omap f (cell_map s)
     ↔ ∃ id c, (k, id) ∈ cell_map s ∧ heap s !! id = Some (NCell c)
               ∧ v = cell_value (NCell c)).
  { intros k v. rewrite list_elem_of_omap. split.
    - intros ([k' id] & Hin & Hfx). unfold f in Hfx.
      destruct (heap s !! id) as [[c | r] |] eqn:Hx; try done.
      cbn in Hfx. injection Hfx as -> <-. by exists id, c.
    - intros (id & c & Hin & Hx & ->). exists (k, id). split; [done |].
      unfold f. by rewrite Hx. }
  split.
  - intros k. rewrite dict_keys_dict_of_pairs. unfold dict_keys.
    rewrite list_elem_of_fmap. split.
    + intros ([k' v] & -> & Hin). apply elem_of_sorted, Hf in Hin
        as (id & c & Hin & Hx & _). by exists id, c.
    + intros (id & c & Hin & Hx). exists (k, cell_value (NCell c)).
      split; [done |]. apply elem_of_sorted, Hf. by exists id, c.
  - intros k v Hin. apply elem_of_dict_of_pairs, elem_of_sorted, Hf in Hin
      as (id & c & Hin & Hx & ->).
    exists id, c. split; [done |]. split; [done |].
    unfold cell_value, has_python_code, node_python_code. cbn.
    destruct (c_formula c) as [fm |]; [| done]. cbn.
    by destruct (negb (String.eqb (python_code fm) EmptyString)).
Qed.

(** ** Making the node of a cell *)

Lemma get_state_run (s : state) : get_state s = (Ok s, s).
Proof. done. Qed.

(** [_make_cells] on the address of a cell that has no node yet: one
    cell is made of what the data source answers, under the address of
    the answer; a cell with a formula becomes a node of the graph and
    joins the work queue. *)
Lemma make_cells_cell (k a' f0 : string) (v0 : value) (xl : datasource)
      (st : state) :
  dict_get (cell_map st) k = None → excel st = Some xl →
  get_range xl k = Ok (CellData a' f0 v0) → is_range k = false →
  let id := length (heap st) in
  let fm := if String.eqb f0 EmptyString then None
            else Some (compile_formula (is_compiled_importer xl) f0) in
  let x := NCell {| c_address := a'; c_value := v0; c_formula := fm;
                    c_id := S (ctr st) |} in
  let st1 := set_cell_map (dict_set (cell_map st) a' id)
               (set_heap (heap st ++ [x]) (set_ctr (S (ctr st)) st)) in
  _make_cells k st
  = match fm with
    | None => (Ok tt, st1)
    | Some _ =>
        let st2 := set_dep_graph (add_node (dep_graph st) id) st1 in
        match graph_todos st with
        | Some l => (Ok tt, set_graph_todos (Some (l ++ [id])) st2)
        | None => (Raise (AttributeError "append"), st2)
        end
    end.
Proof.
  intros Hnone Hxl Hget Hr id fm x st1. unfold _make_cells.
  unfold bind at 1. rewrite get_state_run.
  unfold bind at 1. rewrite (proj2 (dict_mem_false _ _) Hnone).
  cbn [negb assert]. unfold ret at 1.
  unfold bind at 1. unfold get_excel at 1. rewrite Hxl.
  unfold bind at 1. unfold lift_res at 1. rewrite Hget, Hr.
  cbn [build_cell].
  assert (Hb : (a_cell <- (s <- get_state ;;
                           a_cell <- new_Cell a' v0 f0 (excel s) ;;
                           cell_map_set a' a_cell ;; ret a_cell) ;;
                ret [a_cell]) st = (Ok [id], st1)).
  { unfold bind, get_state, new_Cell, cell_map_set, modify, new_node, ret.
    cbn. rewrite Hxl. reflexivity. }
  bind_ok Hb. cbn [for_each].
  assert (Hx : heap st1 !! id = Some x).
  { unfold st1, id. cbn. by rewrite lookup_app_r, Nat.sub_diag. }
  unfold bind at 1. bind_ok (get_node_Some _ _ _ Hx).
  unfold x at 1. unfold has_formula. cbn [is_CellRange node_formula c_formula orb].
  destruct fm as [f |]; [| done].
  unfold add_node_to_graph, bind, modify, get_state, ret. cbn.
  by destruct (graph_todos st).
Qed.

(** ** Loading a saved document *)

Lemma loading_keys (imp : datasource) (done : list (string * value))
      (st : state) :
  loading imp done st → dict_keys (cell_map st) = dict_keys done.
Proof.
  intros L. pose proof (ld_entries _ _ _ L) as H. clear L. unfold dict_keys.
  induction H as [| rec e done' cm [He _] _ IH]; [done |].
  cbn. by rewrite He, IH.
Qed.

(** [_from_text] makes the cell of one more record *)
Lemma load_step (fname : string) (recs done : list (string * value))
      (k : string) (v : value) (st : state) :
  loading (_CompiledImporter fname recs) done st →
  dict_get recs k = Some v → k ∉ dict_keys done →
  is_range k = false → is_bounded_range k = false →
  ∃ st', (_make_cells k ;; add_line_numbers k) st = (Ok tt, st')
         ∧ loading (_CompiledImporter fname recs) (done ++ [(k, v)]) st'
         ∧ ∀ gt, graph_todos st = Some gt →
                 ∃ gt', graph_todos st' = Some gt'
                        ∧ (length gt' ≤ S (length gt))%nat.
Proof.
  intros L Hk Hfresh Hr Hb.
  pose proof (loading_keys _ _ _ L) as Hkeys.
  destruct L as [Hxl Hlog Hrt Hent [gt [Hgt Hgtall]]].
  assert (Hnone : dict_get (cell_map st) k = None).
  { apply dict_get_None_keys. by rewrite Hkeys. }
  destruct (get_cell_record recs k v Hk) as (f0 & v0 & Hcell & Hv0 & Hf0).
  assert (Hget : get_range (_CompiledImporter fname recs) k
                 = Ok (CellData k f0 v0)).
  { cbn [get_range _CompiledImporter].
    by rewrite (importer_get_range_cell _ _ _ Hb Hr), Hcell. }
  pose proof (make_cells_cell k k f0 v0 _ st Hnone Hxl Hget Hr) as Hmk.
  cbn zeta in Hmk. cbn [is_compiled_importer _CompiledImporter] in Hmk.
  rewrite Hf0, Hgt in Hmk. subst v0.
  set (id := length (heap st)) in *.
  set (x := NCell {| c_address := k; c_value := record_value v;
                     c_formula := record_formula v; c_id := S (ctr st) |}) in *.
  set (st1 := set_cell_map (dict_set (cell_map st) k id)
                (set_heap (heap st ++ [x]) (set_ctr (S (ctr st)) st))) in *.
  assert (Hload : loaded_as (k, v) x) by (by exists (S (ctr st))).
  assert (Hold : ∀ i y, heap st !! i = Some y → (heap st ++ [x]) !! i = Some y).
  { intros i y Hy. by apply lookup_app_l_Some. }
  assert (Hnew : (heap st ++ [x]) !! id = Some x).
  { unfold id. by rewrite lookup_app_r, Nat.sub_diag. }
  assert (Hent' : Forall2
            (λ rec e, e.1 = rec.1
                      ∧ ∃ y, (heap st ++ [x]) !! e.2 = Some y ∧ loaded_as rec y)
            (done ++ [(k, v)]) (dict_set (cell_map st) k id)).
  { rewrite (dict_set_fresh _ _ _ Hnone). apply Forall2_app.
    - eapply Forall2_impl; [exact Hent |]. intros rec e [He (y & Hy & Hl)].
      split; [done |]. exists y. split; [by apply Hold | done].
    - constructor; [| constructor]. split; [done |]. by exists x. }
  assert (Hall' : Forall
            (λ i, ∃ rec y, rec ∈ done ++ [(k, v)]
                           ∧ (heap st ++ [x]) !! i = Some y ∧ loaded_as rec y) gt).
  { eapply Forall_impl; [exact Hgtall |]. intros i (rec & y & Hin & Hy & Hl).
    exists rec, y. split; [set_solver |]. split; [by apply Hold | done]. }
  assert (Hline : ∀ s', cell_map s' = dict_set (cell_map st) k id →
                        heap s' = heap st ++ [x] →
                        add_line_numbers k s' = (Ok tt, s')).
  { intros s' Hm Hh. unfold add_line_numbers.
    assert (Hl : dict_get (cell_map s') k = Some id)
      by (rewrite Hm; apply dict_get_set_eq).
    bind_ok (lookup_cell_map_Some _ _ _ Hl).
    assert (Hx' : heap s' !! id = Some x) by (by rewrite Hh).
    by bind_ok (get_node_Some _ _ _ Hx'). }
  destruct (record_formula v) as [f |] eqn:Hf.
  - eexists. split.
    { bind_ok Hmk. by apply Hline. }
    split.
    + split; cbn; try done.
      exists (gt ++ [id]). split; [done |]. apply Forall_app. split; [done |].
      constructor; [| constructor]. exists (k, v), x. split; [set_solver |].
      done.
    + intros gt0 Hgt0. rewrite Hgt in Hgt0. injection Hgt0 as <-.
      exists (gt ++ [id]). split; [done |]. rewrite length_app. cbn. lia.
  - eexists. split.
    { bind_ok Hmk. by apply Hline. }
    split.
    + split; cbn; try done. by exists gt.
    + intros gt0 Hgt0. rewrite Hgt in Hgt0. injection Hgt0 as <-.
      exists gt. split; [done | lia].
Qed.

(** ** Sorting the records *)

Lemma key_sorted_app (l1 l2 : list string) :
  key_sorted (l1 ++ l2)
  ↔ key_sorted l1 ∧ key_sorted l2 ∧ ∀ a b, a ∈ l1 → b ∈ l2 → key_le a b.
Proof.
  induction l1 as [| x l1 IH]; cbn [key_sorted app].
  - split; [intros H | tauto]. split; [done |]. split; [done |].
    intros a b Ha. by apply elem_of_nil in Ha.
  - rewrite IH, Forall_app, !Forall_forall. split.
    + intros [[H1 H2] (H3 & H4 & H5)]. repeat split; try done.
      intros a b Ha Hb. apply elem_of_cons in Ha as [-> | Ha]; auto.
    + intros ([H1 H2] & H3 & H4). repeat split; try done.
      * intros b Hb. apply H4; [by left | done].
      * intros a b Ha Hb. apply H4; [by right | done].
Qed.

Lemma dict_keys_sorted_insert (x : string * value) (l : list (string * value))
      (k : string) :
  k ∈ dict_keys (sorted_insert x l) ↔ k = x.1 ∨ k ∈ dict_keys l.
Proof.
  unfold dict_keys. rewrite !list_elem_of_fmap. split.
  - intros (y & -> & Hy). apply elem_of_sorted_insert in Hy as [-> | Hy];
      [by left | right; by exists y].
  - intros [-> | (y & -> & Hy)].
    + exists x. split; [done |]. apply elem_of_sorted_insert. by left.
    + exists y. split; [done |]. apply elem_of_sorted_insert. by right.
Qed.

Section Order.
Context (Htotal : ∀ a b, sort_key_le a b = true ∨ sort_key_le b a = true).
Context (Htrans : ∀ a b c, sort_key_le a b = true → sort_key_le b c = true →
                           sort_key_le a c = true).

Lemma sorted_insert_sorted (x : string * value) (l : list (string * value)) :
  key_sorted (dict_keys l) → key_sorted (dict_keys (sorted_insert x l)).
Proof using Htotal Htrans.
  induction l as [| y l IH]; [done |]. cbn [sorted_insert].
  intros [Hy Hl]. fold (dict_keys l) in *.
  destruct (sort_key_le (canon y.1) (canon x.1)) eqn:Hle.
  - split; [| by apply IH]. fold (dict_keys (sorted_insert x l)).
    apply Forall_forall. intros k Hk.
    apply dict_keys_sorted_insert in Hk as [-> | Hk]; [done |].
    by apply (proj1 (Forall_forall _ _) Hy).
  - assert (Hxy : key_le x.1 y.1).
    { unfold key_le. destruct (Htotal (canon x.1) (canon y.1)); congruence. }
    split; [| by split]. constructor; [done |].
    apply Forall_forall. intros k Hk. unfold key_le in *.
    apply (Htrans _ (canon y.1)); [done |].
    by apply (proj1 (Forall_forall _ _) Hy).
Qed.

Lemma sorted_is_sorted (l : list (string * value)) :
  key_sorted (dict_keys (sorted l)).
Proof using Htotal Htrans.
  unfold sorted.
  assert (H : ∀ acc, key_sorted (dict_keys acc) →
    key_sorted (dict_keys (foldl (λ acc x, sorted_insert x acc) acc l))).
  { induction l as [| x l IH]; intros acc Hacc; [done |]. cbn [foldl].
    by apply IH, sorted_insert_sorted. }
  by apply H.
Qed.
End Order.

Lemma sorted_insert_last (x : string * value) (l : list (string * value)) :
  (∀ k, k ∈ dict_keys l → key_le k x.1) → sorted_insert x l = l ++ [x].
Proof.
  induction l as [| y l IH]; [done |]. intros H. cbn [sorted_insert].
  assert (Hy : sort_key_le (canon y.1) (canon x.1) = true).
  { apply H. unfold dict_keys. cbn. by left. }
  rewrite Hy, IH; [done |]. intros k Hk. apply H. unfold dict_keys in *.
  cbn. by right.
Qed.

(** sorting what is sorted changes nothing *)
Lemma sorted_of_sorted (l : list (string * value)) :
  key_sorted (dict_keys l) → sorted l = l.
Proof.
  unfold sorted.
  assert (H : ∀ acc, key_sorted (dict_keys (acc ++ l)) →
    foldl (λ acc x, sorted_insert x acc) acc l = acc ++ l).
  { induction l as [| x l IH]; intros acc Hs; cbn [foldl].
    - by rewrite app_nil_r.
    - assert (Hs' : key_sorted (dict_keys ((acc ++ [x]) ++ l)))
        by (by rewrite <- app_assoc).
      rewrite sorted_insert_last, (IH _ Hs'), <- app_assoc; [done |].
      intros k Hk. unfold dict_keys in Hs. rewrite fmap_app in Hs.
      apply key_sorted_app in Hs as (_ & _ & Hs). apply Hs; [done |].
      cbn. by left. }
  intros Hs. by apply (H []).
Qed.

Lemma dict_keys_dict_set_eq {V} (d : list (string * V)) (k : string) (v : V) :
  dict_keys (dict_set d k v)
  = if bool_decide (k ∈ dict_keys d) then dict_keys d else dict_keys d ++ [k].
Proof.
  unfold dict_keys. induction d as [| [k0 v0] d IH]; cbn [dict_set].
  - rewrite bool_decide_eq_false_2; [done |]. cbn. apply not_elem_of_nil.
  - destruct (String.eqb k0 k) eqn:E.
    + apply String.eqb_eq in E as ->. cbn.
      rewrite bool_decide_eq_true_2; [done | by left].
    + apply String.eqb_neq in E. cbn. rewrite IH.
      destruct (bool_decide (k ∈ d.*1)) eqn:Hin.
      * apply bool_decide_eq_true_1 in Hin.
        rewrite bool_decide_eq_true_2; [done | by right].
      * apply bool_decide_eq_false_1 in Hin.
        rewrite bool_decide_eq_false_2; [done |].
        rewrite not_elem_of_cons. split; [congruence | done].
Qed.

(** the keys of a dictionary made of pairs are distinct, and in the
    order of the pairs *)
Lemma dict_of_pairs_keys (l : list (string * value)) :
  NoDup (dict_keys (dict_of_pairs l))
  ∧ (key_sorted (dict_keys l) → key_sorted (dict_keys (dict_of_pairs l))).
Proof.
  unfold dict_of_pairs.
  assert (H : ∀ acc, NoDup (dict_keys acc) →
    NoDup (dict_keys (foldl (λ d kv, dict_set d kv.1 kv.2) acc l))
    ∧ (key_sorted (dict_keys acc ++ dict_keys l) →
       key_sorted (dict_keys (foldl (λ d kv, dict_set d kv.1 kv.2) acc l)))).
  { induction l as [| [k v] l IH]; intros acc Hnd; cbn [foldl].
    - split; [done |]. unfold dict_keys at 2. cbn. by rewrite app_nil_r.
    - cbn [fst snd].
      assert (Hnd' : NoDup (dict_keys (dict_set acc k v))).
      { rewrite dict_keys_dict_set_eq.
        destruct (bool_decide (k ∈ dict_keys acc)) eqn:Hin; [done |].
        apply bool_decide_eq_false_1 in Hin.
        apply NoDup_app. split; [done |]. split.
        - intros a Ha Hk. apply list_elem_of_singleton in Hk. by subst.
        - apply NoDup_singleton. }
      destruct (IH _ Hnd') as [H1 H2]. split; [done |]. intros Hs. apply H2.
      rewrite dict_keys_dict_set_eq.
      change (dict_keys ((k, v) :: l)) with (k :: dict_keys l) in Hs.
      destruct (bool_decide (k ∈ dict_keys acc)).
      + apply key_sorted_app in Hs as (Ha & [_ Hl] & Hal).
        apply key_sorted_app. split; [done |]. split; [done |].
        intros a b Ha' Hb. apply Hal; [done | by right].
      + by rewrite <- app_assoc. }
  destruct (H []) as [H1 H2]; [apply NoDup_nil_2 |]. split; [done |].
  intros Hs. by apply H2.
Qed.

(** the first loop of [_from_text] over records that are cells *)
Lemma load_loop (fname : string) (recs : list (string * value)) :
  ∀ (todo done : list (string * value)) (st : state) (gt : list nat),
    loading (_CompiledImporter fname recs) done st →
    graph_todos st = Some gt →
    (∀ rec, rec ∈ todo → dict_get recs rec.1 = Some rec.2
                         ∧ is_range rec.1 = false
                         ∧ is_bounded_range rec.1 = false) →
    NoDup (dict_keys (done ++ todo)) →
    ∃ st' gt',
      for_each (dict_keys todo) (λ a, _make_cells a ;; add_line_numbers a) st
      = (Ok tt, st')
      ∧ loading (_CompiledImporter fname recs) (done ++ todo) st'
      ∧ graph_todos st' = Some gt'
      ∧ (length gt' ≤ length todo + length gt)%nat.
Proof.
  induction todo as [| [k v] todo IH]; intros done st gt L Hgt Hrecs Hnd.
  - exists st, gt. rewrite app_nil_r. split; [done |]. split; [done |].
    split; [done | cbn; lia].
  - destruct (Hrecs (k, v)) as (Hk & Hr & Hb); [by left |].
    cbn [fst snd] in *.
    assert (Hfresh : k ∉ dict_keys done).
    { unfold dict_keys in *. rewrite fmap_app in Hnd.
      apply NoDup_app in Hnd as (_ & Hd & _). intros Hin.
      apply (Hd k Hin). cbn. by left. }
    destruct (load_step fname recs done k v st L Hk Hfresh Hr Hb)
      as (st1 & Hrun1 & L1 & Hgt1).
    destruct (Hgt1 gt Hgt) as (gt1 & Hgt1' & Hlen1).
    destruct (IH (done ++ [(k, v)]) st1 gt1 L1 Hgt1') as (st' & gt' & Hrun & L' & Hgt' & Hlen).
    { intros rec Hin. apply Hrecs. by right. }
    { by rewrite <- app_assoc. }
    exists st', gt'. split.
    { change (dict_keys ((k, v) :: todo)) with (k :: dict_keys todo).
      cbn [for_each]. unfold bind at 1. rewrite Hrun1. exact Hrun. }
    split; [by rewrite <- app_assoc in L' |]. split; [done |]. cbn. lia.
Qed.

(** a state that differs from a loaded one in the graph, the log records
    and the work queue is a loaded one *)
Lemma loading_same (imp : datasource) (recs : list (string * value))
      (st st' : state) (gt gt' : list nat) :
  loading imp recs st → graph_todos st = Some gt →
  excel st' = excel st → log st' = log st → range_todos st' = range_todos st →
  cell_map st' = cell_map st → heap st' = heap st →
  graph_todos st' = Some gt' → gt' ⊆ gt →
  loading imp recs st'.
Proof.
  intros [Hxl Hlog Hrt Hent (gt0 & Hgt0 & Hall)] Hgt E1 E2 E3 E4 E5 Hgt' Hsub.
  rewrite Hgt in Hgt0. injection Hgt0 as <-.
  split; [congruence | congruence | congruence | by rewrite E4, E5 |].
  exists gt'. split; [done |]. rewrite E5.
  apply Forall_forall. intros i Hi.
  by apply (proj1 (Forall_forall _ _) Hall), Hsub.
Qed.

(** connecting a cell whose precedents all have their nodes only adds
    edges *)
Lemma connect_known_precedents (dependant : nat) (ps : list string) :
  ∀ st, (∀ p, p ∈ ps → is_Some (dict_get (cell_map st) p)) →
    ∀ n, ∃ g,
      for_each ps (λ precedent_address,
        s <- get_state ;;
        (if dict_mem (cell_map s) precedent_address then ret tt
         else _gen_graph n (SeedAddr precedent_address) true) ;;
        precedent <- lookup_cell_map precedent_address ;;
        modify (λ s, set_dep_graph
                       (add_edge (dep_graph s) precedent dependant) s)) st
      = (Ok tt, set_dep_graph g st).
Proof.
  induction ps as [| p ps IH]; intros st Hps n.
  - exists (dep_graph st). by destruct st.
  - destruct (Hps p) as [id Hid]; [by left |].
    cbn [for_each]. unfold bind at 1. unfold bind at 1. rewrite get_state_run.
    assert (Hmem : dict_mem (cell_map st) p = true).
    { apply dict_mem_true. by rewrite Hid. }
    rewrite Hmem. unfold bind at 1. unfold ret at 1.
    bind_ok (lookup_cell_map_Some _ _ _ Hid). unfold modify at 1.
    destruct (IH (set_dep_graph (add_edge (dep_graph st) id dependant) st))
      with (n := n) as [g Hg].
    { intros q Hq. apply Hps. by right. }
    exists g. rewrite Hg. done.
Qed.

Lemma elem_of_removelast {A} (l : list A) (x : A) :
  x ∈ removelast l → x ∈ l.
Proof.
  induction l as [| y l IH]; [done |]. cbn.
  destruct l as [| z l]; [intros H; by apply elem_of_nil in H |].
  intros H. apply elem_of_cons in H as [-> | H]; [by left |].
  right. by apply IH.
Qed.

Lemma last_elem_of {A} (l : list A) (d : A) : List.last l d ∈ d :: l.
Proof.
  assert (H : ∀ l : list A, l ≠ [] → List.last l d ∈ l).
  { clear l. induction l as [| y l IH]; [done |]. intros _.
    destruct l as [| z l]; [by left |].
    right. by apply IH. }
  destruct l as [| y l]; [by left |]. right. by apply H.
Qed.

Lemma length_removelast {A} (l : list A) (d : A) :
  length (removelast (d :: l)) = length l.
Proof.
  revert d. induction l as [| y l IH]; intros d; [done |].
  cbn [removelast length] in *. by rewrite IH.
Qed.

(** [connect_dependants] on the cells of a loaded document whose formulas
    need addresses of the document only *)
Lemma connect_loaded (fname : string) (recs : list (string * value)) :
  (∀ rec, rec ∈ recs → round_trips (dict_keys recs) rec) →
  ∀ (n : nat) (st : state) (gt : list nat),
    loading (_CompiledImporter fname recs) recs st →
    graph_todos st = Some gt → (length gt < n)%nat →
    ∃ st', connect_dependants n st = (Ok tt, st')
           ∧ loading (_CompiledImporter fname recs) recs st'
           ∧ cell_map st' = cell_map st ∧ heap st' = heap st.
Proof.
  intros Hrt. induction n as [| n IH]; intros st gt L Hgt Hlen; [lia |].
  cbn [connect_dependants]. unfold bind at 1. rewrite get_state_run, Hgt.
  destruct gt as [| d0 l0]; [by exists st |].
  set (dependant := List.last l0 d0).
  unfold bind at 1. unfold modify at 1.
  set (st0 := set_graph_todos _ st).
  pose proof (ld_todos _ _ _ L) as (gt0 & Hgt0 & Hall).
  rewrite Hgt in Hgt0. injection Hgt0 as <-.
  destruct (proj1 (Forall_forall _ _) Hall dependant (last_elem_of _ _))
    as (rec & x & Hrec & Hx & Hload).
  assert (Hx0 : heap st0 !! dependant = Some x) by done.
  bind_ok (get_node_Some _ _ _ Hx0).
  assert (Hlog0 : log st0 = Some tt) by apply (ld_log _ _ _ L).
  bind_ok (log_call_Some DEBUG ("Handling " +:+ node_address x) [] _ Hlog0).
  set (st1 := set_logged _ st0).
  assert (Hps : ∀ p, p ∈ node_needed_addresses x →
                     is_Some (dict_get (cell_map st1) p)).
  { intros p Hp. destruct Hload as [i ->]. cbn in Hp.
    destruct (record_formula rec.2) as [f |] eqn:Hf;
      [| by apply elem_of_nil in Hp].
    destruct (Hrt rec Hrec) as (_ & _ & _ & Hform).
    destruct (Hform f Hf) as (_ & _ & Hneeded).
    specialize (Hneeded p Hp). rewrite <- (loading_keys _ _ _ L) in Hneeded.
    change (cell_map st1) with (cell_map st).
    destruct (dict_get (cell_map st) p) eqn:E; [done |].
    by apply dict_get_None_keys in E. }
  destruct (connect_known_precedents dependant _ st1 Hps n) as [g Hg].
  bind_ok Hg.
  set (st2 := set_dep_graph g st1).
  assert (L2 : loading (_CompiledImporter fname recs) recs st2).
  { apply (loading_same _ _ st st2 (d0 :: l0) (removelast (d0 :: l0)) L);
      try done.
    intros i Hi. by apply elem_of_removelast. }
  destruct (IH st2 (removelast (d0 :: l0)) L2) as (st' & Hrun & L' & Hm & Hh);
    [done | rewrite length_removelast; cbn in Hlen; lia |].
  exists st'. split; [exact Hrun |]. split; [exact L' |].
  split; [exact Hm | exact Hh].
Qed.

(** ** Saving, loading and saving again *)

Lemma dict_set_app_last {V} (d : list (string * V)) (k : string) (v h : V) :
  dict_get d k = None → dict_set (d ++ [(k, v)]) k h = d ++ [(k, h)].
Proof.
  induction d as [| [k' v'] d IH]; cbn [dict_set dict_get app].
  - by rewrite String.eqb_refl.
  - destruct (String.eqb k' k); [done |]. intros H. by rewrite IH.
Qed.

(** The document [_to_text] writes when the instance's [extra_data] has
    no [cell_map] entry and has its [excel_hash] entry, if any, last: the
    other entries, then [excel_hash], then [cell_map]. *)
Lemma doc_layout (d : list (string * document_item)) :
  dict_get d "cell_map" = None →
  dict_get (removelast d) "excel_hash" = None →
  ∃ d', dict_get d' "excel_hash" = None ∧ dict_get d' "cell_map" = None
        ∧ ∀ h c, dict_set (dict_set d "excel_hash" h) "cell_map" c
                 = d' ++ [("excel_hash", h); ("cell_map", c)].
Proof.
  intros Hcm Hrl.
  assert (Hfresh : ∀ (d' : list (string * document_item)) h c,
    dict_get d' "excel_hash" = None → dict_get d' "cell_map" = None →
    dict_set (d' ++ [("excel_hash", h)]) "cell_map" c
    = d' ++ [("excel_hash", h); ("cell_map", c)]).
  { intros d' h c H1 H2. rewrite dict_set_fresh.
    - by rewrite <- app_assoc.
    - rewrite dict_get_app, H2. done. }
  destruct (dict_get d "excel_hash") as [v |] eqn:E.
  - assert (Hne : d ≠ []) by (by destruct d).
    pose proof (app_removelast_last (EmptyString, DValue VNone) Hne) as Hd.
    destruct (List.last d (EmptyString, DValue VNone)) as [k1 v1].
    set (d1 := removelast d) in *.
    assert (Hk1 : k1 = "excel_hash").
    { rewrite Hd, dict_get_app, Hrl in E. cbn in E.
      destruct (String.eqb k1 "excel_hash") eqn:Ek; [| done].
      by apply String.eqb_eq in Ek. }
    subst k1. exists d1.
    assert (Hcm1 : dict_get d1 "cell_map" = None).
    { rewrite Hd, dict_get_app in Hcm. by destruct (dict_get d1 "cell_map"). }
    split; [done |]. split; [done |]. intros h c.
    rewrite Hd, (dict_set_app_last _ _ _ _ Hrl). by apply Hfresh.
  - exists d. split; [done |]. split; [done |]. intros h c.
    rewrite (dict_set_fresh _ _ _ E). by apply Hfresh.
Qed.

(** the cells made of the records are written back as the records *)
Lemma records_of_loaded (K : list string) (hp : list node)
      (recs : list (string * value)) (cm : list (string * nat)) :
  Forall2 (λ rec e, e.1 = rec.1 ∧ ∃ x, hp !! e.2 = Some x ∧ loaded_as rec x)
          recs cm →
  (∀ rec, rec ∈ recs → round_trips K rec) →
  omap (λ '(addr, cell),
          match hp !! cell with
          | Some x => if serialize x then Some (addr, cell_value x) else None
          | None => None
          end) cm = recs.
Proof.
  induction 1 as [| [k v] [k' id] recs cm [Hk (x & Hx & [i ->])] _ IH];
    intros Hrt; [done |].
  cbn [fst snd] in *. subst k'. cbn [omap list_omap]. rewrite Hx.
  cbn [serialize is_CellRange negb].
  rewrite IH by (intros rec Hrec; apply Hrt; by right).
  f_equal. f_equal.
  destruct (Hrt (k, v)) as (_ & _ & _ & Hform); [by left |].
  unfold cell_value, record_value. cbn [node_formula c_formula node_value c_value].
  cbn [snd] in Hform.
  destruct (record_formula v) as [f |] eqn:Hf; [| done].
  destruct (Hform f eq_refl) as (-> & Hcode & _). by rewrite Hcode.
Qed.

Lemma list_filter_all {A} (f : A → bool) (l : list A) :
  (∀ x, x ∈ l → f x = true) → List.filter f l = l.
Proof.
  intros H. induction l as [| x l IH]; [done |]. cbn.
  rewrite (H x) by (by left). f_equal. apply IH. intros y Hy. apply H. by right.
Qed.

(** [_process_gen_graph] on the cells of a loaded document *)
Lemma process_loaded (fname : string) (recs : list (string * value)) :
  (∀ rec, rec ∈ recs → round_trips (dict_keys recs) rec) →
  ∀ (n : nat) (st : state) (gt : list nat),
    loading (_CompiledImporter fname recs) recs st →
    graph_todos st = Some gt → (S (length gt) < n)%nat →
    ∃ st', _process_gen_graph n st = (Ok tt, st')
           ∧ cell_map st' = cell_map st ∧ heap st' = heap st.
Proof.
  intros Hrt n st gt L Hgt Hlen. destruct n as [| n]; [lia |].
  destruct (connect_loaded _ recs Hrt n st gt L Hgt)
    as (st2 & Hrun2 & L2 & Hm2 & Hh2); [lia |].
  cbn [_process_gen_graph]. bind_ok Hrun2.
  unfold bind at 1. rewrite get_state_run. rewrite (ld_range_todos _ _ _ L2).
  unfold bind at 1. unfold ret at 1. cbn [rev for_each].
  unfold bind at 1. unfold ret at 1.
  unfold bind at 1. unfold modify at 1.
  unfold bind at 1. rewrite get_state_run.
  unfold log_call. cbn [log set_range_todos]. rewrite (ld_log _ _ _ L2).
  eexists. split; [reflexivity |]. by split.
Qed.

(** X13.  Saving, loading and saving again gives the document that was
    saved first, entry for entry and in the same order, for a compiler
    whose saved records are records of cells (no range address among
    them) with canonical addresses, whose formulas come back from the
    front end with the Python code they were saved with and need only
    addresses that have a record themselves; the sort keys have to be
    totally ordered, and the instance's [extra_data], if it has one, must
    not have a [cell_map] entry nor an [excel_hash] entry before its last
    one.  The reloaded compiler has one cell per record. *)
Theorem saved_text_is_a_fixed_point (n : nat) (s w : state) (fname : string)
        (is_json : bool) (digest : value) :
  (∀ a b, sort_key_le a b = true ∨ sort_key_le b a = true) →
  (∀ a b c, sort_key_le a b = true → sort_key_le b c = true →
            sort_key_le a c = true) →
  (∀ rec, rec ∈ text_cell_map s →
          round_trips (dict_keys (text_cell_map s)) rec) →
  (∀ d, extra_data s = Some d →
        dict_get d "cell_map" = None
        ∧ dict_get (removelast d) "excel_hash" = None) →
  (length (text_cell_map s) + 2 ≤ n)%nat →
  ∃ s2, _from_text n fname is_json (_to_text s).1 digest w = (Ok tt, s2)
        ∧ (_to_text s2).1 = (_to_text s).1
        ∧ dict_keys (cell_map s2) = dict_keys (text_cell_map s).
Proof.
  intros Htotal Htrans Hrt Hed Hfuel.
  set (recs := text_cell_map s) in *.
  set (h := DValue (excel_file_md5_digest s)).
  (* the saved document *)
  assert (Hdoc : ∃ d', dict_get d' "excel_hash" = None
                       ∧ dict_get d' "cell_map" = None
                       ∧ (_to_text s).1
                         = d' ++ [("excel_hash", h); ("cell_map", DMap recs)]).
  { unfold _to_text. cbn [fst].
    destruct (extra_data s) as [d |] eqn:Hd.
    - destruct (Hed d eq_refl) as [H1 H2].
      destruct (doc_layout d H1 H2) as (d' & ? & ? & Hl). exists d'.
      by rewrite Hl.
    - by exists []. }
  destruct Hdoc as (d' & Hd1 & Hd2 & Hdata). rewrite Hdata.
  set (data := d' ++ [("excel_hash", h); ("cell_map", DMap recs)]).
  assert (Hgcm : dict_get data "cell_map" = Some (DMap recs)).
  { unfold data. rewrite dict_get_app, Hd2. done. }
  assert (Hgeh : dict_get data "excel_hash" = Some h).
  { unfold data. rewrite dict_get_app, Hd1. done. }
  assert (Hdel : dict_del (dict_del data "cell_map") "excel_hash" = d').
  { unfold data.
    change (d' ++ [("excel_hash", h); ("cell_map", DMap recs)])
      with (d' ++ [("excel_hash", h)] ++ [("cell_map", DMap recs)]).
    rewrite app_assoc, dict_del_app_last.
    - by apply dict_del_app_last.
    - rewrite dict_get_app, Hd2. done. }
  (* the records *)
  destruct (dict_of_pairs_keys
              (sorted (omap (λ '(addr, cell),
                 match heap s !! cell with
                 | Some x => if serialize x then Some (addr, cell_value x)
                             else None
                 | None => None
                 end) (cell_map s)))) as [Hnd Hks].
  fold (text_cell_map s) in Hnd, Hks. fold recs in Hnd, Hks.
  specialize (Hks (sorted_is_sorted Htotal Htrans _)).
  assert (Hget : ∀ rec, rec ∈ recs → dict_get recs rec.1 = Some rec.2
                                    ∧ is_range rec.1 = false
                                    ∧ is_bounded_range rec.1 = false).
  { intros [k v] Hin. destruct (Hrt _ Hin) as (_ & Hr & Hb & _).
    split; [by apply dict_get_elem | done]. }
  assert (Haddr : map (λ kv : string * value, canon kv.1) recs = dict_keys recs).
  { unfold dict_keys. apply list_eq_Forall2, Forall2_fmap.
    apply Forall2_same_length_lookup. split; [done |].
    intros i x y Hx Hy. rewrite Hx in Hy. injection Hy as <-.
    apply list_elem_of_lookup_2 in Hx. by destruct (Hrt _ Hx) as [? _]. }
  assert (Hnr : ∀ a, a ∈ dict_keys recs → is_range a = false).
  { intros a Ha. unfold dict_keys in Ha. apply list_elem_of_fmap in Ha
      as (rec & -> & Hin). by destruct (Hget _ Hin) as (_ & ? & _). }
  (* the run *)
  unfold _from_text. rewrite Hgcm, Hgeh.
  cbv zeta. unfold bind at 1. unfold ret at 1.
  match goal with
  | |- context [_CompiledImporter ?f recs] =>
      set (imp := _CompiledImporter f recs)
  end.
  unfold bind at 1. unfold modify at 1.
  set (st0 := __init__ imp digest w).
  assert (L0 : loading imp [] st0).
  { split; [done | done | done | apply Forall2_nil_2 | by exists []]. }
  rewrite Haddr.
  rewrite (list_filter_all (λ a, negb (is_range a)) (dict_keys recs))
    by (intros a Ha; by rewrite (Hnr a Ha)).
  assert (Hnone : List.filter is_range (dict_keys recs) = []).
  { apply list_filter_nil. exact Hnr. }
  rewrite Hnone.
  destruct (load_loop _ recs recs [] st0 [] L0 eq_refl Hget Hnd)
    as (st1 & gt1 & Hrun1 & L1 & Hgt1 & Hlen1).
  cbn [app] in L1. cbn [length] in Hlen1.
  bind_ok Hrun1. cbn [for_each]. unfold bind at 1. unfold ret at 1.
  destruct (process_loaded _ recs Hrt n st1 gt1 L1 Hgt1)
    as (st2 & Hrun2 & Hm2 & Hh2); [lia |].
  bind_ok Hrun2.
  unfold bind, ret, modify. cbn [fst snd].
  eexists. split; [reflexivity |].
  unfold _to_text. cbn [fst extra_data set_excel set_extra_data
                        excel_file_md5_digest set_excel_file_md5_digest].
  rewrite Hdel.
  assert (Hrecs2 : ∀ s', cell_map s' = cell_map st2 → heap s' = heap st2 →
                         text_cell_map s' = recs).
  { intros s' Hm Hh. unfold text_cell_map. rewrite Hm, Hh, Hm2, Hh2.
    rewrite (records_of_loaded (dict_keys recs) _ recs); [| | exact Hrt].
    - rewrite sorted_of_sorted by done. by apply dict_of_pairs_NoDup.
    - apply (ld_entries _ _ _ L1). }
  rewrite Hrecs2 by done.
  split.
  - rewrite (dict_set_fresh _ _ _ Hd1), dict_set_fresh.
    + by rewrite <- app_assoc.
    + rewrite dict_get_app, Hd2. done.
  - cbn [cell_map set_excel set_extra_data set_excel_file_md5_digest].
    rewrite Hm2. apply (loading_keys _ _ _ L1).
Qed.

(** ** The shape of what the evaluator returns *)

Lemma map_M_inv {A B} (l : list A) (f : A → M B) :
  ∀ s ys s', map_M l f s = (Ok ys, s') →
    Forall2 (λ x y, ∃ s1 s2, f x s1 = (Ok y, s2)) l ys.
Proof.
  induction l as [| x l IH]; intros s ys s' H; cbn [map_M] in H.
  - injection H as <- _. constructor.
  - apply bind_inv in H as [(y & s1 & H1 & H) | [(e & _ & ?) | [_ ?]]];
      try done.
    apply bind_inv in H as [(ys' & s2 & H2 & H) | [(e & _ & ?) | [_ ?]]];
      try done.
    injection H as <- _. constructor; [by exists s, s1 | by eapply IH].
Qed.

(** X14.  The value of a range is a tuple of tuples in the shape of the
    range: when [_evaluate_range] returns for a range without a value,
    it returns one row per row of member addresses, each with one value
    per member, and that value is now the value of the range's node. *)
Theorem evaluate_range_shape (n : nat) (a : string) (id : nat)
        (r : _CellRange) (s s' : state) (v : value) :
  dict_get (cell_map s) a = Some id → heap s !! id = Some (NRange r) →
  r_value r = VNone →
  _evaluate_range (S n) a s = (Ok v, s') →
  ∃ rows, v = VSeq (VSeq <$> rows)
          ∧ Forall2 (λ row addrs, length row = length addrs)
                    rows (r_addresses r)
          ∧ val s' id = Some v.
Proof.
  intros Hk Hx Hv H. cbn [_evaluate_range] in H.
  unfold bind at 1 in H. rewrite get_state_run, Hk in H.
  unfold bind at 1 in H. unfold ret at 1 in H.
  rewrite (bind_Ok _ _ _ _ _ (get_node_Some _ _ _ Hx)) in H.
  cbn [node_value] in H. rewrite Hv in H. cbn [is_None] in H.
  apply bind_inv in H as [([] & s4 & H & Hret) | [(e & _ & ?) | [_ ?]]];
    try done.
  apply bind_inv in H as [([] & s1 & _ & H) | [(e & _ & ?) | [_ ?]]];
    try done.
  unfold bind at 1 in H. unfold ret at 1 in H.
  apply bind_inv in H as [(data & s3 & Hdata & H) | [(e & _ & ?) | [_ ?]]];
    try done.
  unfold set_node_value in H.
  apply bind_inv in H as [(x3 & s3' & H3 & H) | [(e & _ & ?) | [_ ?]]];
    try done.
  unfold get_node in H3. destruct (heap s3 !! id) as [x3' |] eqn:Hx3; [| done].
  injection H3 as -> <-. injection H as <-.
  assert (Hx4 : heap (set_heap (<[id := node_set_value x3 (VSeq data)]> (heap s3)) s3)
                !! id = Some (node_set_value x3 (VSeq data))).
  { cbn. apply list_lookup_insert_eq. by apply lookup_lt_is_Some_1. }
  rewrite (bind_Ok _ _ _ _ _ (get_node_Some _ _ _ Hx4)) in Hret.
  injection Hret as <- <-. rewrite node_value_set.
  assert (Hrows : ∃ rows, data = VSeq <$> rows
    ∧ Forall2 (λ row addrs, length row = length addrs) rows (r_addresses r)).
  { apply map_M_inv in Hdata. clear -Hdata.
    induction Hdata as [| addrs d l ds (s1 & s2 & Hd) _ IH].
    - by exists [].
    - destruct IH as (rows & -> & Hrows).
      apply bind_inv in Hd as [(vs & s3 & Hvs & Hd) | [(e & _ & ?) | [_ ?]]];
        try done.
      injection Hd as <- _. exists (vs :: rows). split; [done |].
      constructor; [| done]. apply map_M_inv in Hvs.
      symmetry. by eapply Forall2_length. }
  destruct Hrows as (rows & -> & Hrows). exists rows.
  split; [done |]. split; [done |].
  unfold val. rewrite Hx4. cbn. by rewrite node_value_set.
Qed.


(** ** The reference cell of an unbounded range *)

Lemma substring_prefix (a b : string) :
  String.substring 0 (String.length a) (a +:+ b) = a.
Proof.
  induction a as [| c a IH]; [by destruct b |].
  rewrite append_cons. cbn. by rewrite IH.
Qed.

(** X16.  The reference [_make_cells] writes for an unbounded range is
    the one [_CompiledImporter] reads: asked for an address that is an
    unbounded range and whose record is [REF_FORMAT] of an address, the
    importer answers what it answers for that address. *)
Theorem importer_follows_reference (n : nat) (recs : list (string * value))
        (k a : string) :
  is_bounded_range k = false → is_range k = true →
  dict_get recs k = Some (VStr (REF_FORMAT a)) →
  importer_get_range (S n) recs k = importer_get_range n recs (canon a).
Proof.
  intros Hb Hr Hk.
  assert (Hcell : cd_formulas (_get_cell recs k) = REF_FORMAT a).
  { unfold _get_cell. rewrite Hk. reflexivity. }
  assert (Hstart : startswith (REF_FORMAT a) REF_START = true).
  { unfold startswith, REF_FORMAT. apply prefix_append. }
  assert (Hend : endswith (REF_FORMAT a) REF_END = true).
  { unfold REF_FORMAT. rewrite <- append_assoc. apply endswith_append. }
  assert (Hsub : String.substring (String.length REF_START)
            (String.length (REF_FORMAT a) - String.length REF_START
             - String.length REF_END) (REF_FORMAT a) = a).
  { unfold REF_FORMAT. rewrite substring_append, !length_append.
    replace (_ - _ - _) with (String.length a) by lia.
    apply substring_prefix. }
  destruct n as [| n]; cbn [importer_get_range];
    by rewrite Hb, Hr, Hcell, Hstart, Hend, Hsub.
Qed.

(** ** What [_from_text] and [_make_cells] leave *)

(** X17.  When [_from_text] returns, the compiler it leaves has no data
    source, its spreadsheet digest is the [excel_hash] entry of the
    document, which is what [hash_matches] compares the current digest
    of the spreadsheet file with, and its [extra_data] is the document
    without the [cell_map] and [excel_hash] entries. *)
Theorem from_text_leaves (n : nat) (fname : string) (is_json : bool)
        (data : list (string * document_item)) (digest : value)
        (w s2 : state) :
  _from_text n fname is_json data digest w = (Ok tt, s2) →
  excel s2 = None
  ∧ (∃ recs, dict_get data "cell_map" = Some (DMap recs))
  ∧ dict_get data "excel_hash" = Some (DValue (excel_file_md5_digest s2))
  ∧ extra_data s2
    = Some (dict_del (dict_del data "cell_map") "excel_hash")
  ∧ ∀ h current, dict_get data "excel_hash" = Some (DValue h) →
                 hash_matches s2 current = value_eqb h current.
Proof.
  unfold _from_text. intros H.
  apply bind_inv in H as [(recs & s0 & Hrecs & H) | [(e & _ & ?) | [_ ?]]];
    try done.
  assert (Hcm : dict_get data "cell_map" = Some (DMap recs)).
  { destruct (dict_get data "cell_map") as [[?|?] |]; try done.
    by injection Hrecs as -> _. }
  apply bind_inv in H as [([] & s1 & _ & H) | [(e & _ & ?) | [_ ?]]];
    try done.
  apply bind_inv in H as [([] & s3 & _ & H) | [(e & _ & ?) | [_ ?]]];
    try done.
  apply bind_inv in H as [([] & s4 & _ & H) | [(e & _ & ?) | [_ ?]]];
    try done.
  apply bind_inv in H as [([] & s5 & _ & H) | [(e & _ & ?) | [_ ?]]];
    try done.
  apply bind_inv in H as [(hv & s6 & Hh & H) | [(e & _ & ?) | [_ ?]]];
    try done.
  assert (Heh : dict_get data "excel_hash" = Some (DValue hv)).
  { destruct (dict_get data "excel_hash") as [[?|?] |]; try done.
    by injection Hh as -> _. }
  unfold bind, modify in H. injection H as <-. cbn.
  split; [done |]. split; [by exists recs |]. split; [done |].
  split; [done |]. intros h current Hh'. rewrite Heh in Hh'.
  by injection Hh' as <-.
Qed.

(** X18.  When [_make_cells] returns for an address that is not a range,
    it has made exactly one object, a cell with the address, the value
    and the compiled formula of what the data source answered, and bound
    the answered address to it; the cell is queued for connection to its
    precedents exactly when it has a formula. *)
Theorem make_cells_makes_one_cell (k : string) (st st' : state) :
  is_range k = false →
  _make_cells k st = (Ok tt, st') →
  ∃ xl a' f0 v0,
    dict_get (cell_map st) k = None ∧ excel st = Some xl
    ∧ get_range xl k = Ok (CellData a' f0 v0)
    ∧ let fm := if String.eqb f0 EmptyString then None
                else Some (compile_formula (is_compiled_importer xl) f0) in
      heap st' = heap st ++ [NCell {| c_address := a'; c_value := v0;
                                      c_formula := fm; c_id := S (ctr st) |}]
      ∧ cell_map st' = dict_set (cell_map st) a' (length (heap st))
      ∧ graph_todos st'
        = match fm with
          | Some _ => (λ l, l ++ [length (heap st)]) <$> graph_todos st
          | None => graph_todos st
          end.
Proof.
  intros Hr H.
  destruct (dict_get (cell_map st) k) as [id |] eqn:Hk.
  { unfold _make_cells in H. unfold bind at 1 in H. rewrite get_state_run in H.
    unfold bind at 1 in H.
    rewrite (proj2 (dict_mem_true _ _)) in H by (by rewrite Hk). done. }
  destruct (excel st) as [xl |] eqn:Hxl.
  2:{ unfold _make_cells in H. unfold bind at 1 in H. rewrite get_state_run in H.
      unfold bind at 1 in H.
      rewrite (proj2 (dict_mem_false _ _) Hk) in H. cbn [negb assert] in H.
      unfold ret at 1 in H. unfold bind at 1 in H. unfold get_excel at 1 in H.
      by rewrite Hxl in H. }
  destruct (get_range xl k) as [[a' f0 v0 | a' fs vs] | e |] eqn:Hget.
  - rewrite (make_cells_cell k a' f0 v0 xl st Hk Hxl Hget Hr) in H.
    exists xl, a', f0, v0. split; [done |]. split; [done |]. split; [done |].
    cbv zeta in *.
    destruct (String.eqb f0 EmptyString).
    + by injection H as <-.
    + destruct (graph_todos st) as [l |] eqn:Hgt; [| done].
      injection H as <-. cbn. by rewrite ?Hgt.
  - unfold _make_cells in H. unfold bind at 1 in H. rewrite get_state_run in H.
    unfold bind at 1 in H.
    rewrite (proj2 (dict_mem_false _ _) Hk) in H. cbn [negb assert] in H.
    unfold ret at 1 in H. unfold bind at 1 in H. unfold get_excel at 1 in H.
    rewrite Hxl in H. unfold bind at 1 in H. unfold lift_res at 1 in H.
    rewrite Hget, Hr in H. by cbn in H.
  - unfold _make_cells in H. unfold bind at 1 in H. rewrite get_state_run in H.
    unfold bind at 1 in H.
    rewrite (proj2 (dict_mem_false _ _) Hk) in H. cbn [negb assert] in H.
    unfold ret at 1 in H. unfold bind at 1 in H. unfold get_excel at 1 in H.
    rewrite Hxl in H. unfold bind at 1 in H. unfold lift_res at 1 in H.
    by rewrite Hget in H.
  - unfold _make_cells in H. unfold bind at 1 in H. rewrite get_state_run in H.
    unfold bind at 1 in H.
    rewrite (proj2 (dict_mem_false _ _) Hk) in H. cbn [negb assert] in H.
    unfold ret at 1 in H. unfold bind at 1 in H. unfold get_excel at 1 in H.
    rewrite Hxl in H. unfold bind at 1 in H. unfold lift_res at 1 in H.
    by rewrite Hget in H.
Qed.

(** ** The dependants of the inputs *)

Lemma marked_mono (hp : list node) (N N' : gset string) (w : nat) :
  N ⊆ N' → marked hp N w → marked hp N' w.
Proof. intros Hsub (z & Hz & Hin). exists z. split; [done | set_solver]. Qed.

(** The walk over the dependants of a node marks all its successors and
    leaves the marks closed. *)
Lemma walk_dependents_closes (g : DiGraph) (hp : list node) :
  targets_distinct hp g →
  ∀ (n : nat) (cell : nat) (N N' : gset string) (S : gset nat),
    walk_dependents n g hp N cell = (Ok tt, N') →
    closed_marks hp g N (S ∪ {[cell]}) →
    N ⊆ N' ∧ closed_marks hp g N' (S ∪ {[cell]})
    ∧ ∀ w, (cell, w) ∈ dg_edges g → marked hp N' w.
Proof.
  intros Hdist. induction n as [| n IH]; intros cell N N' S H HC; [done |].
  cbn [walk_dependents] in H.
  destruct (successors g cell) as [children |] eqn:Hsucc; [| done].
  assert (Hch : ∀ c, c ∈ children → (cell, c) ∈ dg_edges g).
  { intros c Hc. by apply (successors_are_targets _ _ _ _ Hsucc). }
  assert (Hloop : ∀ children N,
    (∀ c, c ∈ children → (cell, c) ∈ dg_edges g) →
    (fix loop (children : list nat) (needed_cells : gset string)
       : res unit * gset string :=
       match children with
       | [] => (Ok tt, needed_cells)
       | child_cell :: rest =>
           match hp !! child_cell with
           | None => (Raise (AttributeError "object"), needed_cells)
           | Some y =>
               let child_addr := node_address y in
               if bool_decide (child_addr ∈ needed_cells)
               then loop rest needed_cells
               else
                 match walk_dependents n g hp
                         ({[child_addr]} ∪ needed_cells) child_cell with
                 | (Ok _, needed_cells') => loop rest needed_cells'
                 | r => r
                 end
           end
       end) children N = (Ok tt, N') →
    closed_marks hp g N (S ∪ {[cell]}) →
    N ⊆ N' ∧ closed_marks hp g N' (S ∪ {[cell]})
    ∧ ∀ c, c ∈ children → marked hp N' c).
  { clear H HC Hch Hsucc children N.
    induction children as [| child rest IHc]; intros N Hch H HC.
    - injection H as <-. split; [done |]. split; [done |].
      intros c Hc. by apply elem_of_nil in Hc.
    - destruct (hp !! child) as [y |] eqn:Hy; [| done]. cbv zeta in H.
      destruct (bool_decide (node_address y ∈ N)) eqn:Hin.
      + apply bool_decide_eq_true_1 in Hin.
        destruct (IHc N) as (Hsub & HC' & Hm); [| done | done |].
        { intros c Hc. apply Hch. by right. }
        split; [done |]. split; [done |].
        intros c Hc. apply elem_of_cons in Hc as [-> | Hc]; [| by apply Hm].
        exists y. split; [done | set_solver].
      + apply bool_decide_eq_false_1 in Hin.
        destruct (walk_dependents n g hp ({[node_address y]} ∪ N) child)
          as [[[] | e |] N1] eqn:Hwalk; try done.
        assert (Htc : is_target g child).
        { exists cell. apply Hch. by left. }
        destruct (IH child _ _ (S ∪ {[cell]}) Hwalk) as (Hsub1 & HC1 & Hm1).
        { intros u Htu (z & Hz & Hzin) Hu w Hw.
          assert (Hzn : node_address z ∈ N).
          { apply elem_of_union in Hzin as [Hzin | Hzin]; [| done].
            apply elem_of_singleton in Hzin.
            assert (u = child) by (by apply (Hdist u child z y)).
            set_solver. }
          apply (marked_mono hp N); [set_solver |].
          apply (HC u Htu); [by exists z | set_solver | done]. }
        assert (HC1' : closed_marks hp g N1 (S ∪ {[cell]})).
        { intros u Htu Hmu Hu w Hw. destruct (decide (u = child)) as [-> | Hne].
          - by apply Hm1.
          - apply (HC1 u Htu Hmu); [set_solver | done]. }
        destruct (IHc N1) as (Hsub & HC' & Hm); [| done | done |].
        { intros c Hc. apply Hch. by right. }
        split; [set_solver |]. split; [done |].
        intros c Hc. apply elem_of_cons in Hc as [-> | Hc]; [| by apply Hm].
        exists y. split; [done | set_solver]. }
  destruct (Hloop children N Hch H HC) as (Hsub & HC' & Hm).
  split; [done |]. split; [done |].
  intros w Hw. apply Hm. by apply (elem_of_successors _ _ _ _ Hsucc).
Qed.

(** a walk from a node of a graph whose edges lead to nodes does not
    fail for a node that is not in the graph *)
Lemma walk_dependents_no_NetworkXError (g : DiGraph) (hp : list node) :
  edges_end_at_nodes g →
  ∀ (n : nat) (cell : nat) (N N' : gset string) (msg : string),
    nat_mem cell (dg_nodes g) = true →
    walk_dependents n g hp N cell ≠ (Raise (NetworkXError msg), N').
Proof.
  intros Hwf. induction n as [| n IH]; intros cell N N' msg Hcell; [done |].
  cbn [walk_dependents].
  destruct (successors g cell) as [children |] eqn:Hsucc.
  2:{ unfold successors in Hsucc. by rewrite Hcell in Hsucc. }
  assert (Hch : ∀ c, c ∈ children → nat_mem c (dg_nodes g) = true).
  { intros c Hc. apply (Hwf cell).
    by apply (successors_are_targets _ _ _ _ Hsucc). }
  clear Hsucc. revert N Hch.
  induction children as [| child rest IHc]; intros N Hch; [done |].
  destruct (hp !! child) as [y |]; [| done]. cbv zeta.
  destruct (bool_decide (node_address y ∈ N)).
  - apply IHc. intros c Hc. apply Hch. by right.
  - destruct (walk_dependents n g hp ({[node_address y]} ∪ N) child)
      as [[[] | e |] N1] eqn:Hwalk; try done.
    + apply IHc. intros c Hc. apply Hch. by right.
    + intros [= -> ->].
      apply (IH child ({[node_address y]} ∪ N) N' msg); [| done].
      apply Hch. by left.
Qed.

Lemma same_graph_refl (s : state) : same_graph s s.
Proof. done. Qed.

Lemma same_graph_trans (a b c : state) :
  same_graph a b → same_graph b c → same_graph a c.
Proof. unfold same_graph. intros (? & ? & ?) (? & ? & ?). repeat split; congruence. Qed.

Lemma same_graph_log_call (lvl : log_level) (msg : string) (args : list value) :
  pres same_graph (log_call lvl msg args).
Proof. intros s. unfold log_call. by destruct (log s). Qed.

(** the walk from the inputs, when no input fails *)
Lemma walk_inputs_closes (n : nat) (ins : list string) :
  ∀ (N N' : gset string) (s s' : state) caught,
    targets_distinct (heap s) (dep_graph s) →
    edges_end_at_nodes (dep_graph s) →
    (∀ i c, i ∈ ins → dict_get (cell_map s) i = Some c →
            nat_mem c (dg_nodes (dep_graph s)) = true) →
    walk_inputs n ins N s = (Ok (N', caught), s') →
    closed_marks (heap s) (dep_graph s) N ∅ →
    N ⊆ N' ∧ closed_marks (heap s) (dep_graph s) N' ∅
    ∧ ∀ i c w, i ∈ ins → dict_get (cell_map s) i = Some c →
               (c, w) ∈ dg_edges (dep_graph s) →
               marked (heap s) N' w.
Proof.
  induction ins as [| addr rest IH]; intros N N' s s' caught Hd Hwf Hins H HC;
    cbn [walk_inputs] in H.
  - injection H as <- _ _. split; [done |]. split; [done |].
    intros i c w Hi. by apply elem_of_nil in Hi.
  - unfold bind at 1 in H. rewrite get_state_run in H.
    destruct (dict_get (cell_map s) addr) as [cell |] eqn:Hk.
    + destruct (walk_dependents n (dep_graph s) (heap s) N cell)
        as [[[] | e |] N1] eqn:Hwalk.
      * destruct (walk_dependents_closes _ _ Hd n cell N N1 ∅ Hwalk)
          as (Hsub1 & HC1 & Hm1).
        { intros u Htu Hmu _. by apply HC. }
        assert (HC1' : closed_marks (heap s) (dep_graph s) N1 ∅).
        { intros u Htu Hmu _ w Hw. destruct (decide (u = cell)) as [-> | Hne].
          - by apply Hm1.
          - apply (HC1 u Htu Hmu); [set_solver | done]. }
        destruct (IH N1 N' s s' caught Hd Hwf) as (Hsub & HC' & Hm);
          [| done | done |].
        { intros i c Hi. apply Hins. by right. }
        split; [set_solver |]. split; [done |].
        intros i c w Hi Hc Hw. apply elem_of_cons in Hi as [-> | Hi].
        -- rewrite Hk in Hc. injection Hc as <-.
           apply (marked_mono _ N1); [done | by apply Hm1].
        -- by apply (Hm i c).
      * destruct e; try done. exfalso.
        apply (walk_dependents_no_NetworkXError _ (heap s) Hwf n cell N N1 msg);
          [| done].
        apply (Hins addr); [by left | done].
      * done.
    + apply bind_inv in H as [([] & s1 & Hlog & H) | [(e & _ & ?) | [_ ?]]];
        try done.
      pose proof (same_graph_log_call WARNING
                    ("Address " +:+ addr +:+ " not found in cell_map") [] s) as G.
      rewrite Hlog in G. destruct G as (G1 & G2 & G3). cbn in G1, G2, G3.
      destruct (IH N N' s1 s' caught) as (Hsub & HC' & Hm).
      { by rewrite G1, G2. }
      { by rewrite G1. }
      { intros i c Hi Hc. rewrite G1. rewrite G3 in Hc. apply (Hins i);
          [by right | done]. }
      { done. }
      { by rewrite G1, G2. }
      rewrite G1, G2 in HC', Hm. split; [done |]. split; [done |].
      intros i c w Hi Hc Hw. apply elem_of_cons in Hi as [-> | Hi].
      * congruence.
      * apply (Hm i c); [done | by rewrite G3 | done].
Qed.

(** what is closed holds the marks of everything that can be reached *)
Lemma closed_marks_reach (hp : list node) (g : DiGraph) (N : gset string)
      (c w : nat) :
  closed_marks hp g N ∅ →
  (∀ w, (c, w) ∈ dg_edges g → marked hp N w) →
  reach g c w → marked hp N w.
Proof.
  intros HC Hc Hr.
  assert (H : ∀ u w, reach g u w → (u = c ∨ (is_target g u ∧ marked hp N u)) →
                     marked hp N w).
  { clear w Hr. intros u w Hr. induction Hr as [u w He | u v w He Hr IH].
    - intros [-> | [Ht Hm]]; [by apply Hc |]. by apply (HC u Ht Hm).
    - intros Hu. apply IH. right. split; [by exists u |].
      destruct Hu as [-> | [Ht Hm]]; [by apply Hc |]. by apply (HC u Ht Hm). }
  apply (H c w Hr). by left.
Qed.

(** what [trim_graph] went through when it returns: the build, the
    needed cells of step 2, and the entries of the needed cells, which
    are those of the build *)
Lemma trim_graph_inv (n : nat) (ins outs : list string) (s s' : state) :
  trim_graph n ins outs s = (Ok tt, s') →
  ∃ s1 needed s2,
    _gen_graph n (SeedIter (map SeedAddr (map canon outs))) false s
    = (Ok tt, s1)
    ∧ find_needed_cells n (map canon ins) (map canon outs) s1
      = (Ok needed, s2)
    ∧ ∀ k, k ∈ needed →
           dict_get (cell_map s') k = dict_get (cell_map s1) k.
Proof.
  rewrite trim_graph_unfold. intros H.
  apply bind_inv in H as [([] & s1 & Hgen & H) | [(e & _ & ?) | [_ ?]]];
    try done.
  unfold trim_after_build in H.
  apply bind_inv in H as [(needed & s2 & Hfind & H) | [(e & _ & ?) | [_ ?]]];
    try done.
  exists s1, needed, s2. split; [done |]. split; [done |]. intros k Hk.
  apply bind_inv in H as [(sets & s3 & Hwalk & H) | [(e & _ & ?) | [_ ?]]];
    try done.
  apply bind_inv in H as [([] & s4 & Hfour & H) | [(e & _ & ?) | [_ ?]]];
    try done.
  apply bind_inv in H as [(s4' & s5 & Hst & H) | [(e & _ & ?) | [_ ?]]];
    try done.
  injection Hst as -> ->.
  pose proof (walks_find_needed_cells same_map same_map_refl same_map_trans
                same_map_log_call n (map canon ins) (map canon outs) s1) as M12.
  rewrite Hfind in M12.
  pose proof (walks_walk_outputs same_map same_map_refl same_map_trans
                same_map_log_call same_map_set_heap n (map canon outs)
                (needed, ∅) s2) as M23.
  rewrite Hwalk in M23.
  pose proof (walks_buried_inputs same_map same_map_refl same_map_trans
                same_map_log_call (map canon ins) s3) as M34.
  rewrite Hfour in M34. unfold same_map in *. cbn in M12, M23, M34.
  destruct (walk_outputs_inv _ _ _ _ _ _ Hwalk) as [Hsub _]. cbn in Hsub.
  destruct (remove_unneeded_keeps sets.1
              (filter (λ addr, addr ∉ sets.1) (dict_keys (cell_map s5))) k)
    with (s := s5) as (s6 & Hrun & Hget).
  { set_solver. }
  { intros a Ha. by apply list_elem_of_filter in Ha as [? _]. }
  rewrite Hrun in H. injection H as <-.
  by rewrite Hget, M34, M23, M12.
Qed.

(** X19.  [trim_graph] keeps every cell that depends on an input: when
    it returns, the address of every node that an edge, or a path of
    edges, leads to from the node of an input still has the entry the
    build step left.  This is for a graph whose edges lead to nodes of
    the graph, in which no two such nodes have the same address, and for
    inputs whose nodes, if they have one, are nodes of the graph. *)
Theorem trim_graph_keeps_the_dependants (n : nat) (ins outs : list string)
        (s s1 s' : state) :
  trim_graph n ins outs s = (Ok tt, s') →
  _gen_graph n (SeedIter (map SeedAddr (map canon outs))) false s
  = (Ok tt, s1) →
  targets_distinct (heap s1) (dep_graph s1) →
  edges_end_at_nodes (dep_graph s1) →
  (∀ i c, i ∈ ins → dict_get (cell_map s1) (canon i) = Some c →
          nat_mem c (dg_nodes (dep_graph s1)) = true) →
  ∀ i c w, i ∈ ins → dict_get (cell_map s1) (canon i) = Some c →
           reach (dep_graph s1) c w →
           ∃ y, heap s1 !! w = Some y
                ∧ dict_get (cell_map s') (node_address y)
                  = dict_get (cell_map s1) (node_address y).
Proof.
  intros H Hgen1 Hd Hwf Hins i c w Hi Hc Hr.
  destruct (trim_graph_inv _ _ _ _ _ H)
    as (s1' & needed & s2 & Hgen & Hfind & Hkeep).
  rewrite Hgen1 in Hgen. injection Hgen as <-.
  unfold find_needed_cells in Hfind.
  apply bind_inv in Hfind
    as [([N' caught] & s0 & Hwalk & Hfind) | [(e & _ & ?) | [_ ?]]];
    try done.
  apply bind_inv in Hfind as [([] & s0' & _ & Hfind) | [(e & _ & ?) | [_ ?]]];
    try done.
  injection Hfind as <- _.
  destruct (walk_inputs_closes n (map canon ins) ∅ N' s1 s0 caught Hd Hwf)
    as (_ & HC & Hm); [| done | |].
  { intros i0 c0 Hi0 Hc0. apply list_elem_of_fmap in Hi0 as (i1 & -> & Hi1).
    by apply (Hins i1). }
  { intros u _ (z & _ & Hz). set_solver. }
  assert (Hmw : marked (heap s1) N' w).
  { apply (closed_marks_reach _ _ _ c w HC); [| done].
    intros w0 Hw0. apply (Hm (canon i) c); [| done | done].
    apply list_elem_of_fmap. by exists i. }
  destruct Hmw as (y & Hy & Hin). exists y. split; [done |].
  apply Hkeep.
  destruct (foldl_union_grows (map canon outs) N') as [Hsub _].
  by apply Hsub.
Qed.

(** ** [from_file] for a name without an extension *)

(** X20.  For a file name that ends with no known extension, [from_file]
    looks for a saved file under the name with [.pkl], [.pickle],
    [.yml], [.yaml] and [.json] appended, in this order.  When the
    [.pkl] file exists it loads that pickle, whatever else exists; when
    exactly one of the five exists it loads that one, a pickle for
    [pkl] and [pickle], a text for the others (JSON exactly for
    [json]); when none exists it raises [ValueError]. *)
Theorem from_file_probes_the_extensions (path_exists : string → bool)
        (fn : string) :
  _filename_has_extension fn = None →
  (path_exists (fn +:+ ".pkl") = true →
   from_file_decide path_exists fn = Ok (LoadPickle (fn +:+ ".pkl")))
  ∧ (∀ ft, ft ∈ save_file_extensions →
       path_exists (fn +:+ "." +:+ ft) = true →
       (∀ e, e ∈ save_file_extensions →
             path_exists (fn +:+ "." +:+ e) = true → e = ft) →
       from_file_decide path_exists fn
       = Ok (if str_in ft ["pkl"; "pickle"]
             then LoadPickle (fn +:+ "." +:+ ft)
             else LoadText (fn +:+ "." +:+ ft) (String.eqb ft "json")))
  ∧ ((∀ e, e ∈ save_file_extensions →
           path_exists (fn +:+ "." +:+ e) = false) →
     from_file_decide path_exists fn
     = Raise (ValueError
                ("Unrecognized file type or compiled file not found: '"
                 +:+ fn +:+ "'"))).
Proof.
  intros Hn. pose proof (has_extension_None _ Hn) as Hends.
  assert (Hin : ∀ e, e ∈ ["pkl"; "pickle"; "yml"; "yaml"; "json"] →
                     e ∈ save_file_extensions) by done.
  assert (Hpkl : endswith fn "pkl" = false).
  { apply Hends, Hin. set_solver. }
  assert (Hpickle : endswith fn "pickle" = false).
  { apply Hends, Hin. set_solver. }
  assert (Hyml : endswith fn "yml" = false).
  { apply Hends, Hin. set_solver. }
  assert (Hyaml : endswith fn "yaml" = false).
  { apply Hends, Hin. set_solver. }
  assert (Hjson : endswith fn "json" = false).
  { apply Hends, Hin. set_solver. }
  unfold from_file_decide. rewrite Hn.
  unfold save_file_extensions. cbn [List.find].
  split; [| split].
  - intros He. change (fn +:+ "." +:+ "pkl") with (fn +:+ ".pkl").
    rewrite He. cbn [negb]. by rewrite Hpkl.
  - intros ft Hft He Hone.
    assert (Hoff : ∀ e, e ∈ save_file_extensions → e ≠ ft →
                        path_exists (fn +:+ "." +:+ e) = false).
    { intros e Hemem Hne.
      destruct (path_exists (fn +:+ "." +:+ e)) eqn:E; [| done].
      exfalso. apply Hne. by apply Hone. }
    unfold save_file_extensions in Hft.
    repeat (apply elem_of_cons in Hft as [-> | Hft]);
      [| | | | | by apply elem_of_nil in Hft].
    + rewrite He. cbn [negb]. by rewrite Hpkl.
    + rewrite (Hoff "pkl"), He by (done || apply Hin; set_solver).
      cbn [negb]. by rewrite Hpickle.
    + rewrite (Hoff "pkl"), (Hoff "pickle"), He
        by (done || apply Hin; set_solver).
      cbn [negb]. by rewrite Hyml.
    + rewrite (Hoff "pkl"), (Hoff "pickle"), (Hoff "yml"), He
        by (done || apply Hin; set_solver).
      cbn [negb]. by rewrite Hyaml.
    + rewrite (Hoff "pkl"), (Hoff "pickle"), (Hoff "yml"), (Hoff "yaml"), He
        by (done || apply Hin; set_solver).
      cbn [negb]. by rewrite Hjson.
  - intros Hnone.
    by rewrite !Hnone by (apply Hin; set_solver).
Qed.

(** ** The cells of a range that [build_range] makes *)

(** the loop of [build_range] over the members of the range *)
Lemma build_range_loop (l : list (string * (string * value))) :
  ∀ (s s' : state) (added : list (list nat)),
    map_M l (λ '(cell_address, (f, v)),
      assert (negb (is_range cell_address)) ;;
      s <- get_state ;;
      if dict_mem (cell_map s) cell_address then ret []
      else if String.eqb f EmptyString && is_None v then ret []
      else a_cell <- new_Cell cell_address v f (excel s) ;;
           cell_map_set cell_address a_cell ;;
           ret [a_cell]) s = (Ok added, s') →
    (∀ k, dict_get (cell_map s) k ≠ None →
          dict_get (cell_map s') k = dict_get (cell_map s) k)
    ∧ (∀ k, dict_get (cell_map s) k = None →
            dict_get (cell_map s') k ≠ None →
            ∃ f v, (k, (f, v)) ∈ l ∧ (f ≠ EmptyString ∨ v ≠ VNone))
    ∧ (∀ k f v, (k, (f, v)) ∈ l → f ≠ EmptyString ∨ v ≠ VNone →
                dict_get (cell_map s') k ≠ None).
Proof.
  induction l as [| [k0 [f0 v0]] l IH]; intros s s' added H;
    cbn [map_M] in H.
  { injection H as _ <-. split; [done |]. split; [done |].
    intros k f v Hk. by apply elem_of_nil in Hk. }
  apply bind_inv in H as [(y & s1 & H1 & H) | [(e & _ & ?) | [_ ?]]];
    try done.
  apply bind_inv in H as [(ys & s2 & H2 & H) | [(e & _ & ?) | [_ ?]]];
    try done.
  injection H as _ <-.
  destruct (IH _ _ _ H2) as (Kold & Knew & Kall). clear IH H2.
  apply bind_inv in H1 as [([] & s0 & Ha & H1) | [(e & _ & ?) | [_ ?]]];
    try done.
  assert (s0 = s) as ->.
  { unfold assert in Ha. destruct (negb _); [| done]. by injection Ha. }
  clear Ha. unfold bind at 1, get_state at 1 in H1.
  assert (Hstep :
    (cell_map s1 = cell_map s
     ∧ (dict_get (cell_map s) k0 ≠ None ∨ (f0 = EmptyString ∧ v0 = VNone)))
    ∨ (∃ id, cell_map s1 = dict_set (cell_map s) k0 id
             ∧ dict_get (cell_map s) k0 = None
             ∧ (f0 ≠ EmptyString ∨ v0 ≠ VNone))).
  { destruct (dict_mem (cell_map s) k0) eqn:Hm.
    { injection H1 as _ <-. left. split; [done |]. left.
      apply dict_mem_true in Hm. destruct Hm as [x Hx]. by rewrite Hx. }
    apply dict_mem_false in Hm.
    destruct (String.eqb f0 EmptyString && is_None v0) eqn:He.
    { injection H1 as _ <-. left. split; [done |]. right.
      apply andb_true_iff in He as [Hf Hv]. apply String.eqb_eq in Hf.
      by destruct v0. }
    right.
    apply bind_inv in H1 as [(id & s3 & Hn & H1) | [(e & _ & ?) | [_ ?]]];
      try done.
    assert (cell_map s3 = cell_map s) as Hc.
    { unfold new_Cell, bind, get_state, modify, new_node in Hn.
      by injection Hn as _ <-. }
    unfold bind, cell_map_set, modify, ret in H1. injection H1 as _ <-.
    exists id. cbn [cell_map set_cell_map]. rewrite Hc.
    split; [done |]. split; [done |].
    apply andb_false_iff in He as [Hf | Hv].
    - left. intros ->. by rewrite String.eqb_refl in Hf.
    - right. intros ->. done. }
  destruct Hstep as [[Hc Hwhy] | (id & Hc & Hnone & Hne)].
  - rewrite Hc in Kold, Knew. split; [done |]. split.
    + intros k Hk Hk'. destruct (Knew k Hk Hk') as (f & v & Hin & Hfv).
      exists f, v. split; [by right | done].
    + intros k f v Hin Hfv. apply elem_of_cons in Hin as [Heq | Hin];
        [| by eapply Kall].
      injection Heq as -> -> ->.
      destruct Hwhy as [Hin | [-> ->]]; [| by destruct Hfv].
      by rewrite Kold.
  - split; [| split].
    + intros k Hk. assert (k0 ≠ k) as Hkk by (intros ->; done).
      rewrite Kold; rewrite Hc, dict_get_set_ne; done.
    + intros k Hk Hk'. destruct (decide (k0 = k)) as [<- | Hkk].
      { exists f0, v0. split; [by left | done]. }
      destruct (Knew k) as (f & v & Hin & Hfv); [| done |].
      { by rewrite Hc, dict_get_set_ne. }
      exists f, v. split; [by right | done].
    + intros k f v Hin Hfv. apply elem_of_cons in Hin as [Heq | Hin];
        [| by eapply Kall].
      injection Heq as -> -> ->.
      rewrite Kold; rewrite Hc, dict_get_set_eq; done.
Qed.

(** X21.  [build_range] is sparse and leaves what is there: when it
    returns for a range, the range's address is mapped to the new range
    object; every other address that had an object keeps that very
    object; a member that has a formula or a value has an object
    afterwards; and an address that had none has one afterwards only if
    it is a member of the range with a formula or a value, so that an
    empty cell of the range gets no object. *)
Theorem build_range_skips_empty_cells (address : string)
        (formulas : list (list string)) (values : list (list value))
        (s s' : state) (ids : list nat) :
  build_range (MatrixData address formulas values) s = (Ok ids, s') →
  let excel_cells :=
    zip (concat (resolve_range address))
        (zip (concat formulas) (flat_map flatten (concat values))) in
  dict_get (cell_map s') address = Some (length (heap s))
  ∧ heap s' !! length (heap s)
    = Some (NRange {| r_address := address;
                      r_addresses := resolve_range address;
                      r_value := VNone |})
  ∧ hd_error ids = Some (length (heap s))
  ∧ (∀ k, k ≠ address → dict_get (cell_map s) k ≠ None →
          dict_get (cell_map s') k = dict_get (cell_map s) k)
  ∧ (∀ k f v, (k, (f, v)) ∈ excel_cells → f ≠ EmptyString ∨ v ≠ VNone →
              dict_get (cell_map s') k ≠ None)
  ∧ (∀ k, k ≠ address → dict_get (cell_map s) k = None →
          dict_get (cell_map s') k ≠ None →
          ∃ f v, (k, (f, v)) ∈ excel_cells
                 ∧ (f ≠ EmptyString ∨ v ≠ VNone)).
Proof.
  intros H excel_cells. cbn [build_range] in H.
  apply bind_inv in H as [(a_range & s0 & Hr & H) | [(e & _ & ?) | [_ ?]]];
    try done.
  assert (a_range = length (heap s) ∧ cell_map s0 = cell_map s
          ∧ heap s0 = heap s ++ [NRange {| r_address := address;
                                           r_addresses := resolve_range address;
                                           r_value := VNone |}])
    as (-> & Hc0 & Hh0).
  { unfold new_CellRange in Hr. destruct (has_sheet address).
    - unfold bind, ret, new_node in Hr. by injection Hr as <- <-.
    - by unfold bind, raise in Hr. }
  apply bind_inv in H as [(added & s1 & Hl & H) | [(e & _ & ?) | [_ ?]]];
    try done.
  unfold bind, cell_map_set, modify, ret in H. injection H as <- <-.
  cbn [cell_map set_cell_map heap].
  destruct (build_range_loop _ _ _ _ Hl) as (Kold & Knew & Kall).
  rewrite Hc0 in Kold, Knew.
  assert (Hpre : ∀ sa sb r,
    map_M excel_cells (λ '(cell_address, (f, v)),
      assert (negb (is_range cell_address)) ;;
      s <- get_state ;;
      if dict_mem (cell_map s) cell_address then ret []
      else if String.eqb f EmptyString && is_None v then ret []
      else a_cell <- new_Cell cell_address v f (excel s) ;;
           cell_map_set cell_address a_cell ;;
           ret [a_cell]) sa = (Ok r, sb) →
    ∃ more, heap sb = heap sa ++ more).
  { generalize excel_cells. intros l. induction l as [| [k0 [f0 v0]] l IH];
      intros sa sb r Hm; cbn [map_M] in Hm.
    { injection Hm as _ <-. exists []. by rewrite app_nil_r. }
    apply bind_inv in Hm as [(y & sc & H1 & Hm) | [(e & _ & ?) | [_ ?]]];
      try done.
    apply bind_inv in Hm as [(ys & sd & H2 & Hm) | [(e & _ & ?) | [_ ?]]];
      try done.
    injection Hm as _ <-. destruct (IH _ _ _ H2) as [more Hmore].
    assert (∃ m0, heap sc = heap sa ++ m0) as [m0 Hm0].
    { apply bind_inv in H1 as [([] & se & Ha & H1) | [(e & _ & ?) | [_ ?]]];
        try done.
      assert (se = sa) as ->.
      { unfold assert in Ha. destruct (negb _); [| done]. by injection Ha. }
      unfold bind at 1, get_state at 1 in H1.
      destruct (dict_mem _ _).
      { injection H1 as _ <-. exists []. by rewrite app_nil_r. }
      destruct (_ && _).
      { injection H1 as _ <-. exists []. by rewrite app_nil_r. }
      unfold new_Cell, bind, get_state, modify, new_node, cell_map_set, ret
        in H1.
      injection H1 as _ <-. cbn. by eexists. }
    exists (m0 ++ more). by rewrite Hmore, Hm0, app_assoc. }
  destruct (Hpre _ _ _ Hl) as [more Hmore].
  split; [apply dict_get_set_eq |]. split.
  { rewrite Hmore, Hh0, <- app_assoc. apply list_lookup_middle. done. }
  split; [done |]. split.
  { intros k Hk Hin. rewrite dict_get_set_ne by done. by apply Kold. }
  split.
  { intros k f v Hin Hfv. destruct (decide (address = k)) as [<- | Hk].
    - by rewrite dict_get_set_eq.
    - rewrite dict_get_set_ne by done. by eapply Kall. }
  intros k Hk Hnone Hsome. rewrite dict_get_set_ne in Hsome by done.
  by apply Knew.
Qed.
End More.

(** ** The properties at work *)


(** X2 at work: the default file types, and the spreadsheet's name. *)
Lemma to_file_accepts_witness :
  (∃ p, to_file_decide "book.xlsx" None (FTSeq ["pkl"; "yml"]) = Ok p)
  ↔ (∀ ft, ft ∈ ["pkl"; "yml"] → ft ∈ save_file_extensions)
    ∧ (∀ ft ft', ft ∈ ["pkl"; "yml"] → ft' ∈ ["pkl"; "yml"] →
                 startswith ft "p" = startswith ft' "p" → ft = ft').
Proof. exact (to_file_accepts "book.xlsx" None ["pkl"; "yml"] eq_refl). Defined.


(** X4 at work: [model.yaml]. *)
Lemma text_file_written_is_file_read_witness :
  to_file_decide "book.xlsx" (Some "model.yaml") (FTStr "pkl")
  = Ok {| tf_text_name := "model.yaml"; tf_is_json := false;
          tf_pickle := None |}
  ∧ from_file_decide (λ _, false) "model.yaml"
    = Ok (LoadText "model.yaml" false)
  ∧ text_file_name "model.yaml" false = "model.yaml".
Proof.
  exact (text_file_written_is_file_read "book.xlsx" "model" "yaml"
           (FTStr "pkl") (λ _, false)
           (list_elem_of_further _ _ _ (list_elem_of_here _ _))).
Defined.

(** X5 at work: [datajson]. *)
Lemma undotted_json_name_is_not_read_back_witness :
  to_file_decide "book.xlsx" (Some "datajson") (FTStr "pkl")
  = Ok {| tf_text_name := "datajson"; tf_is_json := true; tf_pickle := None |}
  ∧ from_file_decide (λ _, true) "datajson" = Ok (LoadText "datajson" true)
  ∧ text_file_name "datajson" true = "datajson.json".
Proof.
  exact (undotted_json_name_is_not_read_back "book.xlsx" "datajson"
           (FTStr "pkl") (λ _, true) eq_refl eq_refl).
Defined.

(** X6 at work: the node of [S!C1] waits in the queue, and the builder
    connects it, making the nodes of [S!B1] and [S!A1] on the way. *)
Lemma process_gen_graph_empties_the_queues_witness :
  graph_todos Demo2.made_C1 = Some [0]
  ∧ drained (Demo.after (_process_gen_graph 10) Demo2.made_C1)
  ∧ range_todos (Demo.after (_process_gen_graph 10) Demo2.made_C1) = Some [].
Proof.
  split; [reflexivity |].
  refine (process_gen_graph_empties_the_queues 10 Demo2.made_C1 _ _).
  vm_compute. reflexivity.
Defined.

(** X7 at work on the unpickled demo compiler. *)
Lemma evaluate_unknown_address_without_source_witness :
  evaluate 2 (AOne "S!Z9") Demo2.unpickled
  = (Raise (AttributeError "excel"), Demo2.unpickled).
Proof.
  exact (evaluate_unknown_address_without_source 0 "S!Z9" Demo2.unpickled
           eq_refl eq_refl eq_refl eq_refl).
Defined.


(** X10 at work: the formula cell [S!B1] of the built demo compiler is
    set to 100. *)
Lemma set_value_then_evaluate_witness :
  ∃ s', set_value 5 (AOne "S!B1") (VNum 100) Demo.built = (Ok tt, s')
        ∧ val s' 1 = Some (VNum 100)
        ∧ evaluate 2 (AOne "S!B1") s' = (Ok (VNum 100), s').
Proof.
  refine (set_value_then_evaluate 5 0 Demo.built "S!B1" 1 (VNum 100)
            eq_refl demo_built_graph_ok eq_refl _ eq_refl _ _ _).
  - vm_compute. lia.
  - discriminate.
  - discriminate.
  - vm_compute. lia.
Defined.

(** X11 at work: trimming the demo compiler to the output [S!C1]. *)
Lemma trim_graph_keeps_the_outputs_witness :
  ∃ s1, _gen_graph 20 (SeedIter (map SeedAddr (map canon ["S!C1"]))) false
          Demo.with_G1 = (Ok tt, s1)
        ∧ ∀ o, o ∈ ["S!C1"] →
               ∃ id, dict_get (cell_map s1) (canon o) = Some id
                     ∧ dict_get (cell_map Demo.trimmed_G1) (canon o) = Some id.
Proof.
  refine (trim_graph_keeps_the_outputs 20 ["S!A1"] ["S!C1"] Demo.with_G1
            Demo.trimmed_G1 _).
  vm_compute. reflexivity.
Defined.

Lemma string_leb_trans (a b c : string) :
  String.leb a b = true → String.leb b c = true → String.leb a c = true.
Proof.
  intros H1 H2. apply Is_true_true. apply Is_true_true in H1, H2.
  exact (transitivity (R := String.le) H1 H2).
Qed.

Lemma demo_built_records_round_trip (rec : string * value) :
  rec ∈ text_cell_map Demo.built →
  round_trips (dict_keys (text_cell_map Demo.built)) rec.
Proof.
  intros H. vm_compute in H.
  repeat (apply elem_of_cons in H as [-> | H]);
    [| | | by apply elem_of_nil in H];
    (split; [reflexivity |]); (split; [reflexivity |]);
    (split; [reflexivity |]); intros f Hf; vm_compute in Hf;
    try discriminate; injection Hf as <-;
    (split; [reflexivity |]); (split; [reflexivity |]);
    intros p Hp; vm_compute in Hp;
    apply elem_of_cons in Hp as [-> | Hp]; try (by apply elem_of_nil in Hp);
    vm_compute; set_solver.
Qed.

(** X13 at work: the built demo compiler is saved, loaded and saved
    again. *)
Lemma saved_text_is_a_fixed_point_witness :
  ∃ s2, _from_text 5 "book.xlsx.yml" false (_to_text Demo.built).1 VNone
          Demo.world0 = (Ok tt, s2)
        ∧ (_to_text s2).1 = (_to_text Demo.built).1
        ∧ dict_keys (cell_map s2) = dict_keys (text_cell_map Demo.built).
Proof.
  refine (saved_text_is_a_fixed_point 5 Demo.built Demo.world0
            "book.xlsx.yml" false VNone String.leb_total string_leb_trans
            demo_built_records_round_trip _ _).
  - intros d Hd. vm_compute in Hd. discriminate.
  - vm_compute. lia.
Defined.

(** X14 at work: the range [S!A1:A2] over two cells. *)
Lemma evaluate_range_shape_witness :
  ∃ rows, VSeq [VSeq [VNum 1]; VSeq [VNum 2]] = VSeq (VSeq <$> rows)
          ∧ Forall2 (λ row addrs, length row = length addrs)
                    rows [["S!A1"]; ["S!A2"]]
          ∧ val (Demo.after (_evaluate_range 3 "S!A1:A2") Demo2.with_range) 2
            = Some (VSeq [VSeq [VNum 1]; VSeq [VNum 2]]).
Proof.
  refine (evaluate_range_shape 2 "S!A1:A2" 2
            {| r_address := "S!A1:A2"; r_addresses := [["S!A1"]; ["S!A2"]];
               r_value := VNone |}
            Demo2.with_range _ _ eq_refl eq_refl eq_refl _).
  vm_compute. reflexivity.
Defined.


(** X16 at work: the column [S!A:A] stands for [S!A1:A2]. *)
Lemma importer_follows_reference_witness :
  @importer_get_range Demo2.columns_AA 1 Demo2.column_records "S!A:A"
  = @importer_get_range Demo2.columns_AA 0 Demo2.column_records "S!A1:A2".
Proof.
  exact (@importer_follows_reference Demo2.columns_AA 0 Demo2.column_records
           "S!A:A" "S!A1:A2" eq_refl eq_refl eq_refl).
Defined.

(** X17 at work: the document saved of the built demo compiler, loaded. *)
Lemma from_text_leaves_witness :
  excel Demo2.reloaded = None
  ∧ (∃ recs, dict_get Demo2.saved "cell_map" = Some (DMap recs))
  ∧ dict_get Demo2.saved "excel_hash"
    = Some (DValue (excel_file_md5_digest Demo2.reloaded))
  ∧ extra_data Demo2.reloaded
    = Some (dict_del (dict_del Demo2.saved "cell_map") "excel_hash")
  ∧ ∀ h current, dict_get Demo2.saved "excel_hash" = Some (DValue h) →
                 hash_matches Demo2.reloaded current = value_eqb h current.
Proof.
  refine (from_text_leaves 5 "book.xlsx.yml" false Demo2.saved VNone
            Demo.world0 Demo2.reloaded _).
  vm_compute. reflexivity.
Defined.

(** X18 at work: the node of [S!C1] in the new demo compiler. *)
Lemma make_cells_makes_one_cell_witness :
  ∃ xl a' f0 v0,
    dict_get (cell_map Demo.fresh) "S!C1" = None ∧ excel Demo.fresh = Some xl
    ∧ get_range xl "S!C1" = Ok (CellData a' f0 v0)
    ∧ let fm := if String.eqb f0 EmptyString then None
                else Some (compile_formula (is_compiled_importer xl) f0) in
      heap Demo2.made_C1
      = heap Demo.fresh ++ [NCell {| c_address := a'; c_value := v0;
                                     c_formula := fm;
                                     c_id := S (ctr Demo.fresh) |}]
      ∧ cell_map Demo2.made_C1
        = dict_set (cell_map Demo.fresh) a' (length (heap Demo.fresh))
      ∧ graph_todos Demo2.made_C1
        = match fm with
          | Some _ => (λ l, l ++ [length (heap Demo.fresh)])
                        <$> graph_todos Demo.fresh
          | None => graph_todos Demo.fresh
          end.
Proof.
  refine (make_cells_makes_one_cell "S!C1" Demo.fresh Demo2.made_C1 eq_refl _).
  vm_compute. reflexivity.
Defined.

(** X19 at work: [S!G1] depends on the input [S!A1] of the demo
    compiler and is kept. *)
Lemma trim_graph_keeps_the_dependants_witness :
  ∃ y, heap Demo2.rebuilt_G1 !! 3 = Some y
       ∧ node_address y = "S!G1"
       ∧ dict_get (cell_map Demo.trimmed_G1) (node_address y)
         = dict_get (cell_map Demo2.rebuilt_G1) (node_address y).
Proof.
  assert (Hd : targets_distinct (heap Demo2.rebuilt_G1)
                                (dep_graph Demo2.rebuilt_G1)).
  { intros u w x y [v Hu] [v' Hw]. vm_compute in Hu, Hw.
    repeat (apply elem_of_cons in Hu as [Hu | Hu];
            [injection Hu as -> -> |]);
      try (exfalso; exact (proj1 (elem_of_nil _) Hu));
      repeat (apply elem_of_cons in Hw as [Hw | Hw];
              [injection Hw as -> -> |]);
      try (exfalso; exact (proj1 (elem_of_nil _) Hw));
      intros Hx Hy Ha; vm_compute in Hx, Hy;
      injection Hx as <-; injection Hy as <-;
      first [reflexivity | discriminate Ha]. }
  assert (Hwf : edges_end_at_nodes (dep_graph Demo2.rebuilt_G1)).
  { intros u w He. vm_compute in He.
    repeat (apply elem_of_cons in He as [He | He];
            [injection He as -> ->; reflexivity |]).
    exfalso. exact (proj1 (elem_of_nil _) He). }
  assert (Hins : ∀ i c, i ∈ ["S!A1"] →
            dict_get (cell_map Demo2.rebuilt_G1) (canon i) = Some c →
            nat_mem c (dg_nodes (dep_graph Demo2.rebuilt_G1)) = true).
  { intros i c Hi Hc. apply list_elem_of_singleton in Hi. subst i.
    vm_compute in Hc. injection Hc as <-. reflexivity. }
  assert (Hr : reach (dep_graph Demo2.rebuilt_G1) 2 3).
  { apply reach_edge. vm_compute.
    apply list_elem_of_further, list_elem_of_further, list_elem_of_here. }
  assert (Htrim : trim_graph 20 ["S!A1"] ["S!C1"] Demo.with_G1
                  = (Ok tt, Demo.trimmed_G1)).
  { vm_compute. reflexivity. }
  assert (Hgen : _gen_graph 20 (SeedIter (map SeedAddr (map canon ["S!C1"])))
                   false Demo.with_G1 = (Ok tt, Demo2.rebuilt_G1)).
  { vm_compute. reflexivity. }
  destruct (trim_graph_keeps_the_dependants 20 ["S!A1"] ["S!C1"]
              Demo.with_G1 Demo2.rebuilt_G1 Demo.trimmed_G1 Htrim Hgen
              Hd Hwf Hins "S!A1" 2 3 (list_elem_of_here _ _) eq_refl Hr)
    as (y & Hy & Hkeep).
  exists y. split; [exact Hy |]. split; [| exact Hkeep].
  clear -Hy. vm_compute in Hy. injection Hy as <-. reflexivity.
Defined.

(** X20 at work: of the five candidates for [model] only [model.yml]
    exists. *)
Lemma from_file_probes_the_extensions_witness :
  _filename_has_extension "model" = None
  ∧ from_file_decide (String.eqb "model.yml") "model"
    = Ok (LoadText "model.yml" false).
Proof.
  split; [reflexivity |].
  destruct (from_file_probes_the_extensions (String.eqb "model.yml") "model"
              eq_refl) as (_ & H & _).
  apply (H "yml").
  - exact (list_elem_of_further _ _ _
             (list_elem_of_further _ _ _ (list_elem_of_here _ _))).
  - reflexivity.
  - intros e He Hex. unfold save_file_extensions in He.
    repeat (apply elem_of_cons in He as [-> | He]);
      [discriminate Hex | discriminate Hex | reflexivity | discriminate Hex
       | discriminate Hex | exfalso; exact (proj1 (elem_of_nil _) He)].
Defined.

(** X21 at work: the range [S!A1:A2] of a sheet in which [A1] holds 1
    and [A2] is empty. *)
Lemma build_range_skips_empty_cells_witness :
  let m := build_range (AA := Demo2.columns_AA)
             (MatrixData "S!A1:A2" [[EmptyString]; [EmptyString]]
                         [[VNum 1]; [VNone]]) in
  m Demo.fresh = (Ok [0; 1], Demo.after m Demo.fresh)
  ∧ dict_get (cell_map (Demo.after m Demo.fresh)) "S!A1:A2" = Some 0
  ∧ dict_get (cell_map (Demo.after m Demo.fresh)) "S!A1" ≠ None
  ∧ dict_get (cell_map (Demo.after m Demo.fresh)) "S!A2" = None.
Proof.
  intros m.
  assert (H : m Demo.fresh = (Ok [0; 1], Demo.after m Demo.fresh))
    by reflexivity.
  destruct (build_range_skips_empty_cells (AA := Demo2.columns_AA)
              _ _ _ _ _ _ H) as (Ha & _ & _ & _ & Hall & Hnew).
  split; [exact H |]. split; [exact Ha |]. split.
  - apply (Hall "S!A1" EmptyString (VNum 1)).
    + exact (list_elem_of_here _ _).
    + right. discriminate.
  - destruct (dict_get (cell_map (Demo.after m Demo.fresh)) "S!A2") eqn:E;
      [exfalso | reflexivity].
    destruct (Hnew "S!A2") as (f & v & Hin & Hfv).
    + discriminate.
    + reflexivity.
    + rewrite E. discriminate.
    + clear -Hin Hfv.
      apply elem_of_cons in Hin as [Heq | Hin].
      { discriminate Heq. }
      apply elem_of_cons in Hin as [Heq | Hin].
      { injection Heq as -> ->. destruct Hfv as [Hf | Hv]; congruence. }
      exact (proj1 (elem_of_nil _) Hin).
Defined.
